(** * AdvancedProfanityFilter: the caption/cue detection-and-mute engine

    A shallow embedding of [src/script/webAudio.ts] (class [WebAudio]) and
    the properties of its rule initialiser, node matcher, mute controller,
    cue engine and SRT parser.

    Conventions of the embedding
    - JavaScript strings are [string]s of code units below 256.
    - [undefined]/[null] are [None]; an optional rule field is an [option].
    - Media times are integers counting milliseconds (1.0 s is [1000]).
    - Objects shared by reference (cues, media elements, nodes) live in
      stores and are named by a number; a rule is named by its position
      in [this.rules].
    - Messages, periodic tasks and log entries that leave the engine are
      appended to a trace kept in the engine state; pending unmute timers
      are kept in a table by handle. *)

From Stdlib Require Import ZArith Ascii String List Bool Lia.
From stdpp Require Import base option list strings gmap.

Local Open Scope Z_scope.

(** ** JavaScript values used by the engine *)

Module JS.

(** Truthiness of a value that is a string, [null] or [undefined]. *)
Definition truthy_str (v : option string) : bool :=
  match v with
  | Some (String _ _) => true
  | _ => false
  end.

(** Truthiness of a boolean-or-undefined field. *)
Definition truthy_bool (v : option bool) : bool :=
  match v with
  | Some b => b
  | None => false
  end.

(** Truthiness of a number-or-undefined field. *)
Definition truthy_num (v : option Z) : bool :=
  match v with
  | Some n => negb (n =? 0)%Z
  | None => false
  end.

Definition str_eqb (a b : string) : bool := bool_decide (a = b).

(** [a == b] / [a === b] on two string-or-undefined values. *)
Definition opt_str_eqb (a b : option string) : bool := bool_decide (a = b).

Definition LF : ascii := ascii_of_nat 10.
Definition CR : ascii := ascii_of_nat 13.
Definition TAB : ascii := ascii_of_nat 9.
Definition SP : ascii := ascii_of_nat 32.

Definition ascii_eqb (a b : ascii) : bool := bool_decide (a = b).

(** White space and line terminators removed by [String.prototype.trim]
    and matched by [\s], among the code units below 256. *)
Definition is_space (c : ascii) : bool :=
  let n := nat_of_ascii c in
  ((9 <=? n)%nat && (n <=? 13)%nat) || (n =? 32)%nat || (n =? 160)%nat.

(** The class [[ \t]] of the SRT separator. *)
Definition is_blank (c : ascii) : bool :=
  ascii_eqb c SP || ascii_eqb c TAB.

Definition is_digit (c : ascii) : bool :=
  let n := nat_of_ascii c in (48 <=? n)%nat && (n <=? 57)%nat.

Definition digit_val (c : ascii) : Z := Z.of_nat (nat_of_ascii c) - 48.

Fixpoint trimStart (s : string) : string :=
  match s with
  | String c s' => if is_space c then trimStart s' else s
  | EmptyString => EmptyString
  end.

Fixpoint trimEnd (s : string) : string :=
  match s with
  | String c s' =>
      match trimEnd s' with
      | EmptyString => if is_space c then EmptyString else String c EmptyString
      | t => String c t
      end
  | EmptyString => EmptyString
  end.

Definition trim (s : string) : string := trimEnd (trimStart s).

(** [s.startsWith(p)], returning what follows the prefix. *)
Fixpoint strip_prefix (p s : string) : option string :=
  match p, s with
  | EmptyString, _ => Some s
  | String a p', String b s' =>
      if ascii_eqb a b then strip_prefix p' s' else None
  | String _ _, EmptyString => None
  end.

(** [s.indexOf(p) >= 0]. *)
Fixpoint includes (p s : string) : bool :=
  match strip_prefix p s with
  | Some _ => true
  | None =>
      match s with
      | String _ s' => includes p s'
      | EmptyString => false
      end
  end.

(** [s.replace(p, r)] with a string pattern: only the first occurrence
    is replaced. *)
Fixpoint replace_first (p r s : string) : string :=
  match strip_prefix p s with
  | Some rest => r +:+ rest
  | None =>
      match s with
      | String c s' => String c (replace_first p r s')
      | EmptyString => EmptyString
      end
  end.

(** [s.split(re)] for a regular expression [re] that never matches the
    empty string.  [matchAt s] is the length of the match of [re]
    anchored at the start of [s].  [skip] counts the code units of a
    match still to be passed over, [cur] is the piece being collected. *)
Fixpoint split_go (matchAt : string -> option nat)
    (skip : nat) (cur : string) (s : string) : list string :=
  match s with
  | EmptyString => [cur]
  | String c s' =>
      match skip with
      | S k => split_go matchAt k cur s'
      | O =>
          match matchAt s with
          | Some n => cur :: split_go matchAt (Nat.pred n) EmptyString s'
          | None => split_go matchAt O (cur +:+ String c EmptyString) s'
          end
      end
  end.

Definition split (matchAt : string -> option nat) (s : string) : list string :=
  split_go matchAt O EmptyString s.

(** The number of leading code units of [s] satisfying [p]. *)
Fixpoint span_length (p : ascii -> bool) (s : string) : nat :=
  match s with
  | String c s' => if p c then S (span_length p s') else O
  | EmptyString => O
  end.

Fixpoint drop_str (n : nat) (s : string) : string :=
  match n, s with
  | S k, String _ s' => drop_str k s'
  | _, _ => s
  end.

(** The regular expression [/[\r\n]/] anchored at the start of [s]. *)
Definition match_newline (s : string) : option nat :=
  match s with
  | String c _ => if ascii_eqb c CR || ascii_eqb c LF then Some 1%nat else None
  | EmptyString => None
  end.

(** The regular expression [/[ \t]+-->[ \t]+/] anchored at the start of
    [s].  Both repetitions are greedy; a shorter first repetition would
    put [-->] against a blank, so no backtracking succeeds where the
    greedy reading fails. *)
Definition match_arrow (s : string) : option nat :=
  let n1 := span_length is_blank s in
  match n1 with
  | O => None
  | S _ =>
      match strip_prefix "-->" (drop_str n1 s) with
      | Some rest =>
          match span_length is_blank rest with
          | O => None
          | S _ as n2 => Some (n1 + 3 + n2)%nat
          end
      | None => None
      end
  end.

(** [parseInt(s)] without radix: leading white space, an optional sign,
    then the digits up to the first other code unit, read as hexadecimal
    after the prefix [0x] or [0X] and as decimal otherwise.  The integer
    read is rounded to the nearest double, ties to even.  [None] is
    [NaN]; the sign of zero is not kept, and a numeral whose value is
    beyond the range of a double (more than 308 digits, [Infinity]) is
    outside the model. *)
Fixpoint digits_val (acc : Z) (s : string) : Z :=
  match s with
  | String c s' => if is_digit c then digits_val (10 * acc + digit_val c) s' else acc
  | EmptyString => acc
  end.

Definition hex_val (c : ascii) : option Z :=
  let n := nat_of_ascii c in
  if is_digit c then Some (Z.of_nat n - 48)
  else if (65 <=? n)%nat && (n <=? 70)%nat then Some (Z.of_nat n - 55)
  else if (97 <=? n)%nat && (n <=? 102)%nat then Some (Z.of_nat n - 87)
  else None.

Fixpoint hex_digits_val (acc : Z) (s : string) : Z :=
  match s with
  | String c s' =>
      match hex_val c with
      | Some d => hex_digits_val (16 * acc + d) s'
      | None => acc
      end
  | EmptyString => acc
  end.

(** The double nearest to the integer [n], [0 <= n], as an integer: 53
    significant bits are kept. *)
Definition to_double (n : Z) : Z :=
  if n <? 2 ^ 53 then n
  else
    let k := Z.log2 n - 52 in
    let q := Z.shiftr n k in
    let r := n - Z.shiftl q k in
    let half := 2 ^ (k - 1) in
    let q := if (half <? r) || ((r =? half) && Z.odd q) then q + 1 else q in
    Z.shiftl q k.

Definition parseUnsigned (s : string) : option Z :=
  match s with
  | String "0" (String x h) =>
      if ascii_eqb x "x" || ascii_eqb x "X" then
        match h with
        | String c _ =>
            match hex_val c with
            | Some _ => Some (to_double (hex_digits_val 0 h))
            | None => None
            end
        | EmptyString => None
        end
      else Some (to_double (digits_val 0 s))
  | String c _ => if is_digit c then Some (to_double (digits_val 0 s)) else None
  | EmptyString => None
  end.

Definition parseInt (s : string) : option Z :=
  match trimStart s with
  | String "-" s' => Z.opp <$> parseUnsigned s'
  | String "+" s' => parseUnsigned s'
  | t => parseUnsigned t
  end.

End JS.

(** ** Completion of a call that may throw *)

Inductive Exception : Type :=
  | SplitError (line : string)   (* [Error when splitting "-->": line.] *)
  | TypeError (what : string).   (* a property read on [undefined] *)

Inductive Completion (A : Type) : Type :=
  | Normal (a : A)
  | Throw (e : Exception).
Arguments Normal {A} a.
Arguments Throw {A} e.

(** ** Cues *)

Inductive LineAndPositionSetting : Type :=
  | Auto
  | Number (n : option Z).   (* [None] is [NaN] *)

(** A [VTTCue] with the three properties of [FilteredVTTCue] the engine
    adds to it.  [filtered = None] is a cue without the own property
    [filtered]. *)
Record Cue : Type := mkCue {
  startTime : Z;
  endTime : Z;
  text : string;
  align : option string;
  line : option LineAndPositionSetting;
  position : option LineAndPositionSetting;
  filtered : option bool;
  filteredText : option string;
  originalText : option string;
}.

Record ParsedSubOptions : Type := mkOptions {
  opt_align : option string;
  opt_line : option string;
  opt_position : option string;
}.

(** The default value [{}] of the [options] parameter. *)
Definition noOptions : ParsedSubOptions := mkOptions None None None.

(** A timing argument of [newCue]: a number of seconds or a string token. *)
Inductive Timing : Type :=
  | TNum (ms : Z)
  | TStr (token : string).

Module Helper.

Definition match_colon (s : string) : option nat :=
  match s with
  | String ":" _ => Some 1%nat
  | _ => None
  end.

Definition match_fraction_mark (s : string) : option nat :=
  match s with
  | String "." _ | String "," _ => Some 1%nat
  | _ => None
  end.

Fixpoint all_digits (s : string) : bool :=
  match s with
  | String c s' => JS.is_digit c && all_digits s'
  | EmptyString => true
  end.

(** A non-empty run of decimal digits, as a number. *)
Definition decimal (s : string) : option Z :=
  match s with
  | String _ _ => if all_digits s then Some (JS.digits_val 0 s) else None
  | EmptyString => None
  end.

(** One to three digits after the fraction mark, as milliseconds. *)
Definition millis (s : string) : option Z :=
  match String.length s with
  | 1%nat => Z.mul 100 <$> decimal s
  | 2%nat => Z.mul 10 <$> decimal s
  | 3%nat => decimal s
  | _ => None
  end.

(** Modelled from the spec: [hmsToSeconds] of [lib/helper], which is not
    among the sources.  A timing token is [H:MM:SS.mmm]; the conversion is
    exact to the millisecond and a malformed token throws ([None]).  The
    SRT example of the specification writes the milliseconds after a
    comma, so both marks are read. *)
Definition hmsToSeconds (token : string) : option Z :=
  match JS.split match_colon token with
  | [h; m; s] =>
      hh ← decimal h;
      mm ← decimal m;
      match JS.split match_fraction_mark s with
      | [whole] =>
          ss ← decimal whole;
          Some (((hh * 60 + mm) * 60 + ss) * 1000)
      | [whole; frac] =>
          ss ← decimal whole;
          ms ← millis frac;
          Some (((hh * 60 + mm) * 60 + ss) * 1000 + ms)
      | _ => None
      end
  | _ => None
  end.

End Helper.

(** ** Subtitle parsers *)

Section Parsers.

(** The timing-token conversion imported from [lib/helper]; [None] is a
    thrown error. *)
Variable hmsToSeconds : string -> option Z.

(** [new VTTCue(start, end, text)]: a [null] text is converted to the
    string [null]; the other properties keep the platform's defaults. *)
Definition VTTCue_new (s e : Z) (t : option string) : Cue :=
  mkCue s e (default "null" t) None None None None None None.

Definition parseLineAndPositionSetting (setting : option string)
  : option LineAndPositionSetting :=
  match setting with
  | Some (String _ _ as s) =>
      if JS.str_eqb s "auto" then Some Auto else Some (Number (JS.parseInt s))
  | _ => None
  end.

Definition toSeconds (t : Timing) : option Z :=
  match t with
  | TStr token => hmsToSeconds token
  | TNum ms => Some ms
  end.

(** [newCue]: the [try] block builds the cue; the [catch] clause logs and
    falls off the end of the function, so the caller receives [undefined]
    ([None]). *)
Definition newCue (start end_ : Timing) (t : option string)
    (options : ParsedSubOptions) : option Cue :=
  match toSeconds start with
  | None => None
  | Some startSeconds =>
      match toSeconds end_ with
      | None => None
      | Some endSeconds =>
          let cue := VTTCue_new startSeconds endSeconds t in
          let cue :=
            if JS.truthy_str (opt_align options)
            then mkCue (startTime cue) (endTime cue) (text cue) (opt_align options)
                   (line cue) (position cue) (filtered cue) (filteredText cue)
                   (originalText cue)
            else cue in
          let cue :=
            if JS.truthy_str (opt_line options)
            then mkCue (startTime cue) (endTime cue) (text cue) (align cue)
                   (parseLineAndPositionSetting (opt_line options))
                   (position cue) (filtered cue) (filteredText cue)
                   (originalText cue)
            else cue in
          let cue :=
            if JS.truthy_str (opt_position options)
            then mkCue (startTime cue) (endTime cue) (text cue) (align cue)
                   (line cue)
                   (parseLineAndPositionSetting (opt_position options))
                   (filtered cue) (filteredText cue) (originalText cue)
            else cue in
          Some cue
      end
  end.

(** The local variables of [parseSRT]. *)
Record SrtLocals : Type := mkSrt {
  srt_start : option string;
  srt_end : option string;
  srt_text : option string;
  srt_cues : list (option Cue);
}.

(** [cues.push(this.newCue(start, end, text))]: whatever [newCue] returns
    is appended. *)
Definition pushCue (st : SrtLocals) : list (option Cue) :=
  srt_cues st ++
    [newCue (TStr (default "" (srt_start st))) (TStr (default "" (srt_end st)))
       (srt_text st) noOptions].

Definition srt_ready (st : SrtLocals) : bool :=
  JS.truthy_str (srt_start st) && JS.truthy_str (srt_end st).

(** The [for] loop of [parseSRT] over the lines still to be read, then
    the statements after it. *)
Fixpoint parseSRT_loop (lines : list string) (st : SrtLocals)
  : Completion (list (option Cue)) :=
  match lines with
  | l :: rest =>
      if JS.includes "-->" l then
        match JS.split JS.match_arrow l with
        | [a; b] =>
            parseSRT_loop rest (mkSrt (Some a) (Some b) (srt_text st) (srt_cues st))
        | _ => Throw (SplitError l)
        end
      else if JS.str_eqb l "" then
        if srt_ready st
        then parseSRT_loop rest (mkSrt None None None (pushCue st))
        else parseSRT_loop rest st
      else if srt_ready st then
        match srt_text st with
        | None =>
            parseSRT_loop rest
              (mkSrt (srt_start st) (srt_end st) (Some l) (srt_cues st))
        | Some t =>
            parseSRT_loop rest
              (mkSrt (srt_start st) (srt_end st)
                 (Some (t +:+ String JS.LF l)) (srt_cues st))
        end
      else parseSRT_loop rest st
  | [] => Normal (if srt_ready st then pushCue st else srt_cues st)
  end.

Definition srt_lines (srt : string) : list string :=
  JS.trim <$>
    JS.split JS.match_newline
      (JS.replace_first (String JS.CR (String JS.LF "")) (String JS.LF "")
         (JS.trim srt)).

Definition parseSRT (srt : string) : Completion (list (option Cue)) :=
  parseSRT_loop (srt_lines srt) (mkSrt None None None []).

End Parsers.

(** ** Rules

    The fields of [AudioRule] (declared in the project's global type
    declarations) that the embedded methods read or write. *)

(** The members of [Constants.MUTE_METHODS] the engine switches on.  The
    numbers behind them are not among the sources; [OTHER_METHOD] is a
    number equal to none of the three. *)
Inductive MuteMethod : Type :=
  | TAB
  | VIDEO_MUTE
  | VIDEO_VOLUME
  | OTHER_METHOD.

#[global] Instance MuteMethod_eq_dec : EqDecision MuteMethod.
Proof. solve_decision. Defined.

Record AudioRule : Type := mkRule {
  dynamic_ : option bool;   (* [_dynamic] *)
  apfCaptions : option bool;
  apfCuesLabel : option string;
  checkInterval : option Z;
  className : option string;
  containsSelector : option string;
  dataPropPresent : option string;
  disabled : option bool;
  displayHide : option string;
  displaySelector : option string;
  displayShow : option string;
  dynamicTargetMode : option string;
  dynamicTextKey : option string;
  externalSub : option bool;
  externalSubFormatKey : option string;
  externalSubTrackLabel : option string;
  externalSubTrackMode : option string;
  externalSubURLKey : option string;
  filterSubtitles : option bool;
  hasChildrenElements : option bool;
  iframe : option bool;
  ignoreMutations : option bool;
  mode : option string;
  muteMethod : option MuteMethod;
  parentSelector : option string;
  parentSelectorAll : option string;
  rootNode : option bool;
  showSubtitles : option Z;
  simpleUnmute : option bool;
  subtitleSelector : option string;
  tagName : option string;
  toCue : option bool;
  unmuteDelay : option Z;
  videoCueHideCues : option bool;
  videoCueKind : option string;
  videoCueLabel : option string;
  videoCueLanguage : option string;
  videoCueRequireShowing : option bool;
  videoCueSync : option Z;
  videoSelector : option string;
}.

(** The rule object literal [{}] extended with a mode. *)
Definition emptyRule : AudioRule :=
  mkRule None None None None None None None None None None None None None
    None None None None None None None None None None None None None None
    None None None None None None None None None None None None None.

(** Assignments [rule.field = v]. *)
Definition set_dynamic_ (v : option bool) (r : AudioRule) : AudioRule :=
  mkRule v (apfCaptions r) (apfCuesLabel r) (checkInterval r) (className r)
    (containsSelector r) (dataPropPresent r) (disabled r) (displayHide r)
    (displaySelector r) (displayShow r) (dynamicTargetMode r)
    (dynamicTextKey r) (externalSub r) (externalSubFormatKey r)
    (externalSubTrackLabel r) (externalSubTrackMode r) (externalSubURLKey r)
    (filterSubtitles r) (hasChildrenElements r) (iframe r) (ignoreMutations r)
    (mode r) (muteMethod r) (parentSelector r) (parentSelectorAll r)
    (rootNode r) (showSubtitles r) (simpleUnmute r) (subtitleSelector r)
    (tagName r) (toCue r) (unmuteDelay r) (videoCueHideCues r)
    (videoCueKind r) (videoCueLabel r) (videoCueLanguage r)
    (videoCueRequireShowing r) (videoCueSync r) (videoSelector r).
Definition set_apfCuesLabel (v : option string) (r : AudioRule) : AudioRule :=
  mkRule (dynamic_ r) (apfCaptions r) v (checkInterval r) (className r)
    (containsSelector r) (dataPropPresent r) (disabled r) (displayHide r)
    (displaySelector r) (displayShow r) (dynamicTargetMode r)
    (dynamicTextKey r) (externalSub r) (externalSubFormatKey r)
    (externalSubTrackLabel r) (externalSubTrackMode r) (externalSubURLKey r)
    (filterSubtitles r) (hasChildrenElements r) (iframe r) (ignoreMutations r)
    (mode r) (muteMethod r) (parentSelector r) (parentSelectorAll r)
    (rootNode r) (showSubtitles r) (simpleUnmute r) (subtitleSelector r)
    (tagName r) (toCue r) (unmuteDelay r) (videoCueHideCues r)
    (videoCueKind r) (videoCueLabel r) (videoCueLanguage r)
    (videoCueRequireShowing r) (videoCueSync r) (videoSelector r).
Definition set_checkInterval (v : option Z) (r : AudioRule) : AudioRule :=
  mkRule (dynamic_ r) (apfCaptions r) (apfCuesLabel r) v (className r)
    (containsSelector r) (dataPropPresent r) (disabled r) (displayHide r)
    (displaySelector r) (displayShow r) (dynamicTargetMode r)
    (dynamicTextKey r) (externalSub r) (externalSubFormatKey r)
    (externalSubTrackLabel r) (externalSubTrackMode r) (externalSubURLKey r)
    (filterSubtitles r) (hasChildrenElements r) (iframe r) (ignoreMutations r)
    (mode r) (muteMethod r) (parentSelector r) (parentSelectorAll r)
    (rootNode r) (showSubtitles r) (simpleUnmute r) (subtitleSelector r)
    (tagName r) (toCue r) (unmuteDelay r) (videoCueHideCues r)
    (videoCueKind r) (videoCueLabel r) (videoCueLanguage r)
    (videoCueRequireShowing r) (videoCueSync r) (videoSelector r).
Definition set_disabled (v : option bool) (r : AudioRule) : AudioRule :=
  mkRule (dynamic_ r) (apfCaptions r) (apfCuesLabel r) (checkInterval r)
    (className r) (containsSelector r) (dataPropPresent r) v (displayHide r)
    (displaySelector r) (displayShow r) (dynamicTargetMode r)
    (dynamicTextKey r) (externalSub r) (externalSubFormatKey r)
    (externalSubTrackLabel r) (externalSubTrackMode r) (externalSubURLKey r)
    (filterSubtitles r) (hasChildrenElements r) (iframe r) (ignoreMutations r)
    (mode r) (muteMethod r) (parentSelector r) (parentSelectorAll r)
    (rootNode r) (showSubtitles r) (simpleUnmute r) (subtitleSelector r)
    (tagName r) (toCue r) (unmuteDelay r) (videoCueHideCues r)
    (videoCueKind r) (videoCueLabel r) (videoCueLanguage r)
    (videoCueRequireShowing r) (videoCueSync r) (videoSelector r).
Definition set_displayHide (v : option string) (r : AudioRule) : AudioRule :=
  mkRule (dynamic_ r) (apfCaptions r) (apfCuesLabel r) (checkInterval r)
    (className r) (containsSelector r) (dataPropPresent r) (disabled r) v
    (displaySelector r) (displayShow r) (dynamicTargetMode r)
    (dynamicTextKey r) (externalSub r) (externalSubFormatKey r)
    (externalSubTrackLabel r) (externalSubTrackMode r) (externalSubURLKey r)
    (filterSubtitles r) (hasChildrenElements r) (iframe r) (ignoreMutations r)
    (mode r) (muteMethod r) (parentSelector r) (parentSelectorAll r)
    (rootNode r) (showSubtitles r) (simpleUnmute r) (subtitleSelector r)
    (tagName r) (toCue r) (unmuteDelay r) (videoCueHideCues r)
    (videoCueKind r) (videoCueLabel r) (videoCueLanguage r)
    (videoCueRequireShowing r) (videoCueSync r) (videoSelector r).
Definition set_displayShow (v : option string) (r : AudioRule) : AudioRule :=
  mkRule (dynamic_ r) (apfCaptions r) (apfCuesLabel r) (checkInterval r)
    (className r) (containsSelector r) (dataPropPresent r) (disabled r)
    (displayHide r) (displaySelector r) v (dynamicTargetMode r)
    (dynamicTextKey r) (externalSub r) (externalSubFormatKey r)
    (externalSubTrackLabel r) (externalSubTrackMode r) (externalSubURLKey r)
    (filterSubtitles r) (hasChildrenElements r) (iframe r) (ignoreMutations r)
    (mode r) (muteMethod r) (parentSelector r) (parentSelectorAll r)
    (rootNode r) (showSubtitles r) (simpleUnmute r) (subtitleSelector r)
    (tagName r) (toCue r) (unmuteDelay r) (videoCueHideCues r)
    (videoCueKind r) (videoCueLabel r) (videoCueLanguage r)
    (videoCueRequireShowing r) (videoCueSync r) (videoSelector r).
Definition set_externalSubFormatKey (v : option string) (r : AudioRule) : AudioRule :=
  mkRule (dynamic_ r) (apfCaptions r) (apfCuesLabel r) (checkInterval r)
    (className r) (containsSelector r) (dataPropPresent r) (disabled r)
    (displayHide r) (displaySelector r) (displayShow r) (dynamicTargetMode r)
    (dynamicTextKey r) (externalSub r) v (externalSubTrackLabel r)
    (externalSubTrackMode r) (externalSubURLKey r) (filterSubtitles r)
    (hasChildrenElements r) (iframe r) (ignoreMutations r) (mode r)
    (muteMethod r) (parentSelector r) (parentSelectorAll r) (rootNode r)
    (showSubtitles r) (simpleUnmute r) (subtitleSelector r) (tagName r)
    (toCue r) (unmuteDelay r) (videoCueHideCues r) (videoCueKind r)
    (videoCueLabel r) (videoCueLanguage r) (videoCueRequireShowing r)
    (videoCueSync r) (videoSelector r).
Definition set_externalSubTrackLabel (v : option string) (r : AudioRule) : AudioRule :=
  mkRule (dynamic_ r) (apfCaptions r) (apfCuesLabel r) (checkInterval r)
    (className r) (containsSelector r) (dataPropPresent r) (disabled r)
    (displayHide r) (displaySelector r) (displayShow r) (dynamicTargetMode r)
    (dynamicTextKey r) (externalSub r) (externalSubFormatKey r) v
    (externalSubTrackMode r) (externalSubURLKey r) (filterSubtitles r)
    (hasChildrenElements r) (iframe r) (ignoreMutations r) (mode r)
    (muteMethod r) (parentSelector r) (parentSelectorAll r) (rootNode r)
    (showSubtitles r) (simpleUnmute r) (subtitleSelector r) (tagName r)
    (toCue r) (unmuteDelay r) (videoCueHideCues r) (videoCueKind r)
    (videoCueLabel r) (videoCueLanguage r) (videoCueRequireShowing r)
    (videoCueSync r) (videoSelector r).
Definition set_externalSubTrackMode (v : option string) (r : AudioRule) : AudioRule :=
  mkRule (dynamic_ r) (apfCaptions r) (apfCuesLabel r) (checkInterval r)
    (className r) (containsSelector r) (dataPropPresent r) (disabled r)
    (displayHide r) (displaySelector r) (displayShow r) (dynamicTargetMode r)
    (dynamicTextKey r) (externalSub r) (externalSubFormatKey r)
    (externalSubTrackLabel r) v (externalSubURLKey r) (filterSubtitles r)
    (hasChildrenElements r) (iframe r) (ignoreMutations r) (mode r)
    (muteMethod r) (parentSelector r) (parentSelectorAll r) (rootNode r)
    (showSubtitles r) (simpleUnmute r) (subtitleSelector r) (tagName r)
    (toCue r) (unmuteDelay r) (videoCueHideCues r) (videoCueKind r)
    (videoCueLabel r) (videoCueLanguage r) (videoCueRequireShowing r)
    (videoCueSync r) (videoSelector r).
Definition set_externalSubURLKey (v : option string) (r : AudioRule) : AudioRule :=
  mkRule (dynamic_ r) (apfCaptions r) (apfCuesLabel r) (checkInterval r)
    (className r) (containsSelector r) (dataPropPresent r) (disabled r)
    (displayHide r) (displaySelector r) (displayShow r) (dynamicTargetMode r)
    (dynamicTextKey r) (externalSub r) (externalSubFormatKey r)
    (externalSubTrackLabel r) (externalSubTrackMode r) v (filterSubtitles r)
    (hasChildrenElements r) (iframe r) (ignoreMutations r) (mode r)
    (muteMethod r) (parentSelector r) (parentSelectorAll r) (rootNode r)
    (showSubtitles r) (simpleUnmute r) (subtitleSelector r) (tagName r)
    (toCue r) (unmuteDelay r) (videoCueHideCues r) (videoCueKind r)
    (videoCueLabel r) (videoCueLanguage r) (videoCueRequireShowing r)
    (videoCueSync r) (videoSelector r).
Definition set_filterSubtitles (v : option bool) (r : AudioRule) : AudioRule :=
  mkRule (dynamic_ r) (apfCaptions r) (apfCuesLabel r) (checkInterval r)
    (className r) (containsSelector r) (dataPropPresent r) (disabled r)
    (displayHide r) (displaySelector r) (displayShow r) (dynamicTargetMode r)
    (dynamicTextKey r) (externalSub r) (externalSubFormatKey r)
    (externalSubTrackLabel r) (externalSubTrackMode r) (externalSubURLKey r) v
    (hasChildrenElements r) (iframe r) (ignoreMutations r) (mode r)
    (muteMethod r) (parentSelector r) (parentSelectorAll r) (rootNode r)
    (showSubtitles r) (simpleUnmute r) (subtitleSelector r) (tagName r)
    (toCue r) (unmuteDelay r) (videoCueHideCues r) (videoCueKind r)
    (videoCueLabel r) (videoCueLanguage r) (videoCueRequireShowing r)
    (videoCueSync r) (videoSelector r).
Definition set_ignoreMutations (v : option bool) (r : AudioRule) : AudioRule :=
  mkRule (dynamic_ r) (apfCaptions r) (apfCuesLabel r) (checkInterval r)
    (className r) (containsSelector r) (dataPropPresent r) (disabled r)
    (displayHide r) (displaySelector r) (displayShow r) (dynamicTargetMode r)
    (dynamicTextKey r) (externalSub r) (externalSubFormatKey r)
    (externalSubTrackLabel r) (externalSubTrackMode r) (externalSubURLKey r)
    (filterSubtitles r) (hasChildrenElements r) (iframe r) v (mode r)
    (muteMethod r) (parentSelector r) (parentSelectorAll r) (rootNode r)
    (showSubtitles r) (simpleUnmute r) (subtitleSelector r) (tagName r)
    (toCue r) (unmuteDelay r) (videoCueHideCues r) (videoCueKind r)
    (videoCueLabel r) (videoCueLanguage r) (videoCueRequireShowing r)
    (videoCueSync r) (videoSelector r).
Definition set_mode (v : option string) (r : AudioRule) : AudioRule :=
  mkRule (dynamic_ r) (apfCaptions r) (apfCuesLabel r) (checkInterval r)
    (className r) (containsSelector r) (dataPropPresent r) (disabled r)
    (displayHide r) (displaySelector r) (displayShow r) (dynamicTargetMode r)
    (dynamicTextKey r) (externalSub r) (externalSubFormatKey r)
    (externalSubTrackLabel r) (externalSubTrackMode r) (externalSubURLKey r)
    (filterSubtitles r) (hasChildrenElements r) (iframe r) (ignoreMutations r)
    v (muteMethod r) (parentSelector r) (parentSelectorAll r) (rootNode r)
    (showSubtitles r) (simpleUnmute r) (subtitleSelector r) (tagName r)
    (toCue r) (unmuteDelay r) (videoCueHideCues r) (videoCueKind r)
    (videoCueLabel r) (videoCueLanguage r) (videoCueRequireShowing r)
    (videoCueSync r) (videoSelector r).
Definition set_muteMethod (v : option MuteMethod) (r : AudioRule) : AudioRule :=
  mkRule (dynamic_ r) (apfCaptions r) (apfCuesLabel r) (checkInterval r)
    (className r) (containsSelector r) (dataPropPresent r) (disabled r)
    (displayHide r) (displaySelector r) (displayShow r) (dynamicTargetMode r)
    (dynamicTextKey r) (externalSub r) (externalSubFormatKey r)
    (externalSubTrackLabel r) (externalSubTrackMode r) (externalSubURLKey r)
    (filterSubtitles r) (hasChildrenElements r) (iframe r) (ignoreMutations r)
    (mode r) v (parentSelector r) (parentSelectorAll r) (rootNode r)
    (showSubtitles r) (simpleUnmute r) (subtitleSelector r) (tagName r)
    (toCue r) (unmuteDelay r) (videoCueHideCues r) (videoCueKind r)
    (videoCueLabel r) (videoCueLanguage r) (videoCueRequireShowing r)
    (videoCueSync r) (videoSelector r).
Definition set_parentSelectorAll (v : option string) (r : AudioRule) : AudioRule :=
  mkRule (dynamic_ r) (apfCaptions r) (apfCuesLabel r) (checkInterval r)
    (className r) (containsSelector r) (dataPropPresent r) (disabled r)
    (displayHide r) (displaySelector r) (displayShow r) (dynamicTargetMode r)
    (dynamicTextKey r) (externalSub r) (externalSubFormatKey r)
    (externalSubTrackLabel r) (externalSubTrackMode r) (externalSubURLKey r)
    (filterSubtitles r) (hasChildrenElements r) (iframe r) (ignoreMutations r)
    (mode r) (muteMethod r) (parentSelector r) v (rootNode r)
    (showSubtitles r) (simpleUnmute r) (subtitleSelector r) (tagName r)
    (toCue r) (unmuteDelay r) (videoCueHideCues r) (videoCueKind r)
    (videoCueLabel r) (videoCueLanguage r) (videoCueRequireShowing r)
    (videoCueSync r) (videoSelector r).
Definition set_showSubtitles (v : option Z) (r : AudioRule) : AudioRule :=
  mkRule (dynamic_ r) (apfCaptions r) (apfCuesLabel r) (checkInterval r)
    (className r) (containsSelector r) (dataPropPresent r) (disabled r)
    (displayHide r) (displaySelector r) (displayShow r) (dynamicTargetMode r)
    (dynamicTextKey r) (externalSub r) (externalSubFormatKey r)
    (externalSubTrackLabel r) (externalSubTrackMode r) (externalSubURLKey r)
    (filterSubtitles r) (hasChildrenElements r) (iframe r) (ignoreMutations r)
    (mode r) (muteMethod r) (parentSelector r) (parentSelectorAll r)
    (rootNode r) v (simpleUnmute r) (subtitleSelector r) (tagName r) (toCue r)
    (unmuteDelay r) (videoCueHideCues r) (videoCueKind r) (videoCueLabel r)
    (videoCueLanguage r) (videoCueRequireShowing r) (videoCueSync r)
    (videoSelector r).
Definition set_simpleUnmute (v : option bool) (r : AudioRule) : AudioRule :=
  mkRule (dynamic_ r) (apfCaptions r) (apfCuesLabel r) (checkInterval r)
    (className r) (containsSelector r) (dataPropPresent r) (disabled r)
    (displayHide r) (displaySelector r) (displayShow r) (dynamicTargetMode r)
    (dynamicTextKey r) (externalSub r) (externalSubFormatKey r)
    (externalSubTrackLabel r) (externalSubTrackMode r) (externalSubURLKey r)
    (filterSubtitles r) (hasChildrenElements r) (iframe r) (ignoreMutations r)
    (mode r) (muteMethod r) (parentSelector r) (parentSelectorAll r)
    (rootNode r) (showSubtitles r) v (subtitleSelector r) (tagName r)
    (toCue r) (unmuteDelay r) (videoCueHideCues r) (videoCueKind r)
    (videoCueLabel r) (videoCueLanguage r) (videoCueRequireShowing r)
    (videoCueSync r) (videoSelector r).
Definition set_tagName (v : option string) (r : AudioRule) : AudioRule :=
  mkRule (dynamic_ r) (apfCaptions r) (apfCuesLabel r) (checkInterval r)
    (className r) (containsSelector r) (dataPropPresent r) (disabled r)
    (displayHide r) (displaySelector r) (displayShow r) (dynamicTargetMode r)
    (dynamicTextKey r) (externalSub r) (externalSubFormatKey r)
    (externalSubTrackLabel r) (externalSubTrackMode r) (externalSubURLKey r)
    (filterSubtitles r) (hasChildrenElements r) (iframe r) (ignoreMutations r)
    (mode r) (muteMethod r) (parentSelector r) (parentSelectorAll r)
    (rootNode r) (showSubtitles r) (simpleUnmute r) (subtitleSelector r) v
    (toCue r) (unmuteDelay r) (videoCueHideCues r) (videoCueKind r)
    (videoCueLabel r) (videoCueLanguage r) (videoCueRequireShowing r)
    (videoCueSync r) (videoSelector r).
Definition set_unmuteDelay (v : option Z) (r : AudioRule) : AudioRule :=
  mkRule (dynamic_ r) (apfCaptions r) (apfCuesLabel r) (checkInterval r)
    (className r) (containsSelector r) (dataPropPresent r) (disabled r)
    (displayHide r) (displaySelector r) (displayShow r) (dynamicTargetMode r)
    (dynamicTextKey r) (externalSub r) (externalSubFormatKey r)
    (externalSubTrackLabel r) (externalSubTrackMode r) (externalSubURLKey r)
    (filterSubtitles r) (hasChildrenElements r) (iframe r) (ignoreMutations r)
    (mode r) (muteMethod r) (parentSelector r) (parentSelectorAll r)
    (rootNode r) (showSubtitles r) (simpleUnmute r) (subtitleSelector r)
    (tagName r) (toCue r) v (videoCueHideCues r) (videoCueKind r)
    (videoCueLabel r) (videoCueLanguage r) (videoCueRequireShowing r)
    (videoCueSync r) (videoSelector r).
Definition set_videoCueHideCues (v : option bool) (r : AudioRule) : AudioRule :=
  mkRule (dynamic_ r) (apfCaptions r) (apfCuesLabel r) (checkInterval r)
    (className r) (containsSelector r) (dataPropPresent r) (disabled r)
    (displayHide r) (displaySelector r) (displayShow r) (dynamicTargetMode r)
    (dynamicTextKey r) (externalSub r) (externalSubFormatKey r)
    (externalSubTrackLabel r) (externalSubTrackMode r) (externalSubURLKey r)
    (filterSubtitles r) (hasChildrenElements r) (iframe r) (ignoreMutations r)
    (mode r) (muteMethod r) (parentSelector r) (parentSelectorAll r)
    (rootNode r) (showSubtitles r) (simpleUnmute r) (subtitleSelector r)
    (tagName r) (toCue r) (unmuteDelay r) v (videoCueKind r) (videoCueLabel r)
    (videoCueLanguage r) (videoCueRequireShowing r) (videoCueSync r)
    (videoSelector r).
Definition set_videoCueKind (v : option string) (r : AudioRule) : AudioRule :=
  mkRule (dynamic_ r) (apfCaptions r) (apfCuesLabel r) (checkInterval r)
    (className r) (containsSelector r) (dataPropPresent r) (disabled r)
    (displayHide r) (displaySelector r) (displayShow r) (dynamicTargetMode r)
    (dynamicTextKey r) (externalSub r) (externalSubFormatKey r)
    (externalSubTrackLabel r) (externalSubTrackMode r) (externalSubURLKey r)
    (filterSubtitles r) (hasChildrenElements r) (iframe r) (ignoreMutations r)
    (mode r) (muteMethod r) (parentSelector r) (parentSelectorAll r)
    (rootNode r) (showSubtitles r) (simpleUnmute r) (subtitleSelector r)
    (tagName r) (toCue r) (unmuteDelay r) (videoCueHideCues r) v
    (videoCueLabel r) (videoCueLanguage r) (videoCueRequireShowing r)
    (videoCueSync r) (videoSelector r).
Definition set_videoCueLabel (v : option string) (r : AudioRule) : AudioRule :=
  mkRule (dynamic_ r) (apfCaptions r) (apfCuesLabel r) (checkInterval r)
    (className r) (containsSelector r) (dataPropPresent r) (disabled r)
    (displayHide r) (displaySelector r) (displayShow r) (dynamicTargetMode r)
    (dynamicTextKey r) (externalSub r) (externalSubFormatKey r)
    (externalSubTrackLabel r) (externalSubTrackMode r) (externalSubURLKey r)
    (filterSubtitles r) (hasChildrenElements r) (iframe r) (ignoreMutations r)
    (mode r) (muteMethod r) (parentSelector r) (parentSelectorAll r)
    (rootNode r) (showSubtitles r) (simpleUnmute r) (subtitleSelector r)
    (tagName r) (toCue r) (unmuteDelay r) (videoCueHideCues r)
    (videoCueKind r) v (videoCueLanguage r) (videoCueRequireShowing r)
    (videoCueSync r) (videoSelector r).
Definition set_videoCueRequireShowing (v : option bool) (r : AudioRule) : AudioRule :=
  mkRule (dynamic_ r) (apfCaptions r) (apfCuesLabel r) (checkInterval r)
    (className r) (containsSelector r) (dataPropPresent r) (disabled r)
    (displayHide r) (displaySelector r) (displayShow r) (dynamicTargetMode r)
    (dynamicTextKey r) (externalSub r) (externalSubFormatKey r)
    (externalSubTrackLabel r) (externalSubTrackMode r) (externalSubURLKey r)
    (filterSubtitles r) (hasChildrenElements r) (iframe r) (ignoreMutations r)
    (mode r) (muteMethod r) (parentSelector r) (parentSelectorAll r)
    (rootNode r) (showSubtitles r) (simpleUnmute r) (subtitleSelector r)
    (tagName r) (toCue r) (unmuteDelay r) (videoCueHideCues r)
    (videoCueKind r) (videoCueLabel r) (videoCueLanguage r) v (videoCueSync r)
    (videoSelector r).
Definition set_videoSelector (v : option string) (r : AudioRule) : AudioRule :=
  mkRule (dynamic_ r) (apfCaptions r) (apfCuesLabel r) (checkInterval r)
    (className r) (containsSelector r) (dataPropPresent r) (disabled r)
    (displayHide r) (displaySelector r) (displayShow r) (dynamicTargetMode r)
    (dynamicTextKey r) (externalSub r) (externalSubFormatKey r)
    (externalSubTrackLabel r) (externalSubTrackMode r) (externalSubURLKey r)
    (filterSubtitles r) (hasChildrenElements r) (iframe r) (ignoreMutations r)
    (mode r) (muteMethod r) (parentSelector r) (parentSelectorAll r)
    (rootNode r) (showSubtitles r) (simpleUnmute r) (subtitleSelector r)
    (tagName r) (toCue r) (unmuteDelay r) (videoCueHideCues r)
    (videoCueKind r) (videoCueLabel r) (videoCueLanguage r)
    (videoCueRequireShowing r) (videoCueSync r) v.
Definition set_iframe (v : option bool) (r : AudioRule) : AudioRule :=
  mkRule (dynamic_ r) (apfCaptions r) (apfCuesLabel r) (checkInterval r)
    (className r) (containsSelector r) (dataPropPresent r) (disabled r)
    (displayHide r) (displaySelector r) (displayShow r) (dynamicTargetMode r)
    (dynamicTextKey r) (externalSub r) (externalSubFormatKey r)
    (externalSubTrackLabel r) (externalSubTrackMode r) (externalSubURLKey r)
    (filterSubtitles r) (hasChildrenElements r) v (ignoreMutations r) (mode r)
    (muteMethod r) (parentSelector r) (parentSelectorAll r) (rootNode r)
    (showSubtitles r) (simpleUnmute r) (subtitleSelector r) (tagName r)
    (toCue r) (unmuteDelay r) (videoCueHideCues r) (videoCueKind r)
    (videoCueLabel r) (videoCueLanguage r) (videoCueRequireShowing r)
    (videoCueSync r) (videoSelector r).

(** ** Text tracks *)

Record TextTrack : Type := mkTrack {
  track_label : string;
  track_language : string;
  track_kind : string;
  track_mode : string;                (* [disabled], [hidden] or [showing] *)
  track_cues : option (list Cue);     (* [None] is [null] *)
}.

(** The keys of [WebAudio.textTrackRuleMappings]: the rule properties that
    name a property of a text track.  An [overrideKey] is one of them (the
    engine passes [externalSubTrackLabel]). *)
Inductive RuleKey : Type :=
  | K_externalSubTrackLabel
  | K_videoCueKind
  | K_videoCueLabel
  | K_videoCueLanguage.

Inductive TrackKey : Type :=
  | K_label
  | K_kind
  | K_language.

Definition textTrackRuleMappings (k : RuleKey) : TrackKey :=
  match k with
  | K_externalSubTrackLabel => K_label
  | K_videoCueKind => K_kind
  | K_videoCueLabel => K_label
  | K_videoCueLanguage => K_language
  end.

(** [rule[key]] *)
Definition rule_get (rule : AudioRule) (k : RuleKey) : option string :=
  match k with
  | K_externalSubTrackLabel => externalSubTrackLabel rule
  | K_videoCueKind => videoCueKind rule
  | K_videoCueLabel => videoCueLabel rule
  | K_videoCueLanguage => videoCueLanguage rule
  end.

(** [textTrack[key]] *)
Definition track_get (t : TextTrack) (k : TrackKey) : string :=
  match k with
  | K_label => track_label t
  | K_kind => track_kind t
  | K_language => track_language t
  end.

Definition textTrackKeyTest (t : TextTrack) (key : TrackKey)
    (value : option string) : bool :=
  JS.truthy_str (Some (track_get t key)) && JS.truthy_str value
    && JS.opt_str_eqb (Some (track_get t key)) value.

(** [overrideKey && rule[overrideKey]] *)
Definition override_set (rule : AudioRule) (overrideKey : option RuleKey) : bool :=
  match overrideKey with
  | Some k => JS.truthy_str (rule_get rule k)
  | None => false
  end.

Definition perfectScore (rule : AudioRule) (overrideKey : option RuleKey) : Z :=
  (if override_set rule overrideKey then 1000 else 0)
  + (if JS.truthy_str (videoCueLabel rule) then 100 else 0)
  + (if JS.truthy_str (videoCueLanguage rule) then 10 else 0)
  + (if JS.truthy_str (videoCueKind rule) then 1 else 0).

Definition override_matches (rule : AudioRule) (overrideKey : option RuleKey)
    (t : TextTrack) : bool :=
  match overrideKey with
  | Some k =>
      JS.truthy_str (rule_get rule k)
        && textTrackKeyTest t (textTrackRuleMappings k) (rule_get rule k)
  | None => false
  end.

Definition currentScore (rule : AudioRule) (overrideKey : option RuleKey)
    (t : TextTrack) : Z :=
  (if override_matches rule overrideKey t then 1000 else 0)
  + (if JS.truthy_str (videoCueLabel rule)
        && textTrackKeyTest t (textTrackRuleMappings K_videoCueLabel)
             (videoCueLabel rule)
     then 100 else 0)
  + (if JS.truthy_str (videoCueLanguage rule)
        && textTrackKeyTest t (textTrackRuleMappings K_videoCueLanguage)
             (videoCueLanguage rule)
     then 10 else 0)
  + (if JS.truthy_str (videoCueKind rule)
     then
       if textTrackKeyTest t (textTrackRuleMappings K_videoCueKind)
            (videoCueKind rule)
       then 1 else 0
     else
       if textTrackKeyTest t (textTrackRuleMappings K_videoCueKind)
            (Some "captions")
          || textTrackKeyTest t (textTrackRuleMappings K_videoCueKind)
               (Some "subtitles")
       then 1 else 0).

(** The two [continue] guards of the loop, negated: the track is scored. *)
Definition considered (rule : AudioRule) (t : TextTrack) : bool :=
  match track_cues t with
  | None | Some [] => false
  | Some (_ :: _) =>
      negb (JS.truthy_bool (videoCueRequireShowing rule)
              && negb (JS.str_eqb (track_mode t) "showing"))
  end.

(** The [for] loop of [getVideoTextTrack] from index [i] on, [rest] being
    the tracks at [i], [i+1], ...; then the statement after the loop.  A
    track object is returned as its index in [textTracks]. *)
Fixpoint getVideoTextTrack_loop (rule : AudioRule) (overrideKey : option RuleKey)
    (rest : list TextTrack) (i bestIndex : nat) (bestScore : Z)
    (foundCues : bool) : option nat :=
  match rest with
  | t :: rest' =>
      if considered rule t then
        let score := currentScore rule overrideKey t in
        if score =? perfectScore rule overrideKey then Some i
        else if (bestScore <? score) || negb foundCues
        then getVideoTextTrack_loop rule overrideKey rest' (S i) i score true
        else getVideoTextTrack_loop rule overrideKey rest' (S i)
               bestIndex bestScore foundCues
      else getVideoTextTrack_loop rule overrideKey rest' (S i)
             bestIndex bestScore foundCues
  | [] => if foundCues then Some bestIndex else None
  end.

Definition getVideoTextTrack (textTracks : list TextTrack) (rule : AudioRule)
    (overrideKey : option RuleKey) : option nat :=
  getVideoTextTrack_loop rule overrideKey textTracks 0%nat 0%nat 0 false.

(** ** Cue classification *)

Record ReplaceTextResult : Type := mkResult {
  res_filtered : string;
  res_modified : bool;
  res_original : string;
}.

(** Cue objects are shared between a track, the arrays made from it and
    the engine, so they live in a store and are named by reference.  The
    store also records the texts handed to the word filter. *)
Record CueStore : Type := mkStore {
  cue_objects : gmap nat Cue;
  filter_calls : list string;
}.

Section ProcessCues.

(** [this.filter.replaceTextResult(text, this.wordlistId, 'audio')]: the
    word filter, an outside collaborator. *)
Variable replaceTextResult : string -> ReplaceTextResult.

Definition shiftCue (rule : AudioRule) (cue : Cue) : Cue :=
  if JS.truthy_num (videoCueSync rule)
  then mkCue (startTime cue + default 0 (videoCueSync rule))
         (endTime cue + default 0 (videoCueSync rule))
         (text cue) (align cue) (line cue) (position cue)
         (filtered cue) (filteredText cue) (originalText cue)
  else cue.

(** The body of the loop of [processCues] for a cue without the own
    property [filtered]. *)
Definition classifyCue (rule : AudioRule) (cue : Cue) : Cue :=
  let cue := shiftCue rule cue in
  let result := replaceTextResult (text cue) in
  if res_modified result
  then mkCue (startTime cue) (endTime cue)
         (if JS.truthy_bool (filterSubtitles rule)
             && negb (JS.truthy_bool (apfCaptions rule))
          then res_filtered result else text cue)
         (align cue) (line cue) (position cue)
         (Some true) (Some (res_filtered result)) (Some (text cue))
  else mkCue (startTime cue) (endTime cue) (text cue)
         (align cue) (line cue) (position cue)
         (Some false) (Some (res_filtered result)) (Some (text cue)).

(** One iteration: [cue.hasOwnProperty('filtered')] skips the cue.  An
    array slot always holds a cue object; a reference outside the store
    leaves it as it is. *)
Definition processCue (rule : AudioRule) (st : CueStore) (ref : nat) : CueStore :=
  match cue_objects st !! ref with
  | Some cue =>
      match filtered cue with
      | Some _ => st
      | None =>
          mkStore (<[ref := classifyCue rule cue]> (cue_objects st))
            (filter_calls st ++ [text (shiftCue rule cue)])
      end
  | None => st
  end.

Definition processCues (cues : list nat) (rule : AudioRule) (st : CueStore)
  : CueStore :=
  foldl (processCue rule) st cues.

End ProcessCues.

(** ** Engine state *)

(** What the engine reads of [this.filter]: the page context and the
    configuration.  None of the embedded methods writes them. *)
Record Filter : Type := mkFilter {
  extension : bool;                    (* [filter.extension] *)
  in_iframe : bool;                    (* [filter.iframe != null] *)
  filterText : bool;                   (* [filter.filterText] *)
  collectStats : bool;                 (* [filter.cfg.collectStats] *)
  cfg_muteMethod : option MuteMethod;  (* [filter.cfg.muteMethod] *)
  cfg_showSubtitles : option Z;        (* [filter.cfg.showSubtitles] *)
  muteCueRequireShowing : option bool; (* [filter.cfg.muteCueRequireShowing] *)
}.

(** A media element, as far as the effectors and [playing] read it. *)
Record Video : Type := mkVideo {
  v_muted : bool;
  v_volume : option Z;     (* thousandths; [None] when the property is absent *)
  v_currentTime : Z;
  v_paused : bool;
  v_ended : bool;
  v_readyState : Z;
  v_fillerListeners : bool; (* the filler pause/play handlers are attached *)
}.

Record FillerAudio : Type := mkFiller {
  filler_playing : bool;
  filler_currentTime : Z;
}.

(** A timer armed by [window.setTimeout(this.delayedUnmute, delay, this, rule)]. *)
Record TimerTask : Type := mkTask {
  task_delay : Z;
  task_rule : AudioRule;
}.

Inductive WatcherKind : Type :=
  | Watcher
  | WatcherToCue.

Inductive Event : Type :=
  | SendMute (mute : bool)             (* [sendMessage(buildMessage(BACKGROUND, {mute}))] *)
  | SendStatus (captions : bool) (forceUpdate : bool)
                                       (* the status message of [supportedCaptionsFound] *)
  | SetInterval (fn : WatcherKind) (interval : option Z) (ruleId : nat)
  | LogInfo (message : string) (ruleId : option nat)
  | DebugTime (label : string).

Record WebAudio : Type := mkWebAudio {
  apfCaptionRuleIds : list nat;
  cueRuleIds : list nat;
  enabledRuleIds : list nat;
  fillerAudio : option FillerAudio;   (* [undefined] without filler audio *)
  muted : bool;
  rules : list AudioRule;
  supportedCaptions : bool;
  unmuteTimeout : option positive;   (* a timer handle, or [null] *)
  volume : Z;   (* the volume saved by the volume effector *)
  watcherRuleIds : list nat;
  stats_mutes : Z;   (* [filter.stats.mutes] *)
  videos : gmap nat Video;   (* the media elements of the page *)
  timers : gmap positive TimerTask;   (* the pending [delayedUnmute] timers *)
  next_handle : positive;   (* the handle the next timer receives *)
  trace : list Event;   (* calls that left the engine, oldest first *)
}.

Definition set_apfCaptionRuleIds (v : list nat) (s : WebAudio) : WebAudio :=
  mkWebAudio v (cueRuleIds s) (enabledRuleIds s) (fillerAudio s) (muted s)
    (rules s) (supportedCaptions s) (unmuteTimeout s) (volume s)
    (watcherRuleIds s) (stats_mutes s) (videos s) (timers s) (next_handle s)
    (trace s).
Definition set_cueRuleIds (v : list nat) (s : WebAudio) : WebAudio :=
  mkWebAudio (apfCaptionRuleIds s) v (enabledRuleIds s) (fillerAudio s)
    (muted s) (rules s) (supportedCaptions s) (unmuteTimeout s) (volume s)
    (watcherRuleIds s) (stats_mutes s) (videos s) (timers s) (next_handle s)
    (trace s).
Definition set_enabledRuleIds (v : list nat) (s : WebAudio) : WebAudio :=
  mkWebAudio (apfCaptionRuleIds s) (cueRuleIds s) v (fillerAudio s) (muted s)
    (rules s) (supportedCaptions s) (unmuteTimeout s) (volume s)
    (watcherRuleIds s) (stats_mutes s) (videos s) (timers s) (next_handle s)
    (trace s).
Definition set_fillerAudio (v : option FillerAudio) (s : WebAudio) : WebAudio :=
  mkWebAudio (apfCaptionRuleIds s) (cueRuleIds s) (enabledRuleIds s) v
    (muted s) (rules s) (supportedCaptions s) (unmuteTimeout s) (volume s)
    (watcherRuleIds s) (stats_mutes s) (videos s) (timers s) (next_handle s)
    (trace s).
Definition set_muted (v : bool) (s : WebAudio) : WebAudio :=
  mkWebAudio (apfCaptionRuleIds s) (cueRuleIds s) (enabledRuleIds s)
    (fillerAudio s) v (rules s) (supportedCaptions s) (unmuteTimeout s)
    (volume s) (watcherRuleIds s) (stats_mutes s) (videos s) (timers s)
    (next_handle s) (trace s).
Definition set_rules (v : list AudioRule) (s : WebAudio) : WebAudio :=
  mkWebAudio (apfCaptionRuleIds s) (cueRuleIds s) (enabledRuleIds s)
    (fillerAudio s) (muted s) v (supportedCaptions s) (unmuteTimeout s)
    (volume s) (watcherRuleIds s) (stats_mutes s) (videos s) (timers s)
    (next_handle s) (trace s).
Definition set_supportedCaptions (v : bool) (s : WebAudio) : WebAudio :=
  mkWebAudio (apfCaptionRuleIds s) (cueRuleIds s) (enabledRuleIds s)
    (fillerAudio s) (muted s) (rules s) v (unmuteTimeout s) (volume s)
    (watcherRuleIds s) (stats_mutes s) (videos s) (timers s) (next_handle s)
    (trace s).
Definition set_unmuteTimeout (v : option positive) (s : WebAudio) : WebAudio :=
  mkWebAudio (apfCaptionRuleIds s) (cueRuleIds s) (enabledRuleIds s)
    (fillerAudio s) (muted s) (rules s) (supportedCaptions s) v (volume s)
    (watcherRuleIds s) (stats_mutes s) (videos s) (timers s) (next_handle s)
    (trace s).
Definition set_volume (v : Z) (s : WebAudio) : WebAudio :=
  mkWebAudio (apfCaptionRuleIds s) (cueRuleIds s) (enabledRuleIds s)
    (fillerAudio s) (muted s) (rules s) (supportedCaptions s)
    (unmuteTimeout s) v (watcherRuleIds s) (stats_mutes s) (videos s)
    (timers s) (next_handle s) (trace s).
Definition set_watcherRuleIds (v : list nat) (s : WebAudio) : WebAudio :=
  mkWebAudio (apfCaptionRuleIds s) (cueRuleIds s) (enabledRuleIds s)
    (fillerAudio s) (muted s) (rules s) (supportedCaptions s)
    (unmuteTimeout s) (volume s) v (stats_mutes s) (videos s) (timers s)
    (next_handle s) (trace s).
Definition set_stats_mutes (v : Z) (s : WebAudio) : WebAudio :=
  mkWebAudio (apfCaptionRuleIds s) (cueRuleIds s) (enabledRuleIds s)
    (fillerAudio s) (muted s) (rules s) (supportedCaptions s)
    (unmuteTimeout s) (volume s) (watcherRuleIds s) v (videos s) (timers s)
    (next_handle s) (trace s).
Definition set_videos (v : gmap nat Video) (s : WebAudio) : WebAudio :=
  mkWebAudio (apfCaptionRuleIds s) (cueRuleIds s) (enabledRuleIds s)
    (fillerAudio s) (muted s) (rules s) (supportedCaptions s)
    (unmuteTimeout s) (volume s) (watcherRuleIds s) (stats_mutes s) v
    (timers s) (next_handle s) (trace s).
Definition set_timers (v : gmap positive TimerTask) (s : WebAudio) : WebAudio :=
  mkWebAudio (apfCaptionRuleIds s) (cueRuleIds s) (enabledRuleIds s)
    (fillerAudio s) (muted s) (rules s) (supportedCaptions s)
    (unmuteTimeout s) (volume s) (watcherRuleIds s) (stats_mutes s) (videos s)
    v (next_handle s) (trace s).
Definition set_next_handle (v : positive) (s : WebAudio) : WebAudio :=
  mkWebAudio (apfCaptionRuleIds s) (cueRuleIds s) (enabledRuleIds s)
    (fillerAudio s) (muted s) (rules s) (supportedCaptions s)
    (unmuteTimeout s) (volume s) (watcherRuleIds s) (stats_mutes s) (videos s)
    (timers s) v (trace s).
Definition set_trace (v : list Event) (s : WebAudio) : WebAudio :=
  mkWebAudio (apfCaptionRuleIds s) (cueRuleIds s) (enabledRuleIds s)
    (fillerAudio s) (muted s) (rules s) (supportedCaptions s)
    (unmuteTimeout s) (volume s) (watcherRuleIds s) (stats_mutes s) (videos s)
    (timers s) (next_handle s) v.

Definition emit (e : Event) (s : WebAudio) : WebAudio :=
  set_trace (trace s ++ [e]) s.

(** [window.setTimeout]: the task is armed under a handle never used before. *)
Definition setTimeout (task : TimerTask) (s : WebAudio) : positive * WebAudio :=
  (next_handle s,
   set_next_handle (Pos.succ (next_handle s))
     (set_timers (<[next_handle s := task]> (timers s)) s)).

(** [clearTimeout]: a handle that is not pending is ignored. *)
Definition clearTimeout (handle : positive) (s : WebAudio) : WebAudio :=
  set_timers (delete handle (timers s)) s.

(** ** Mute controller *)

Section MuteController.

Variable filter : Filter.

(** [getElement(selector)] of [lib/helper]: the element of the page the
    selector designates, if any.  The rules' video selectors designate
    media elements, which are looked up in [videos]. *)
Variable getElement : option string -> option nat.

Definition the_video (video : option nat) (s : WebAudio) : option Video :=
  video ≫= (λ id, videos s !! id).

Definition playing (video : option nat) (s : WebAudio) : bool :=
  match the_video video s with
  | Some v =>
      (0 <? v_currentTime v) && negb (v_paused v) && negb (v_ended v)
        && (2 <? v_readyState v)
  | None => false
  end.

Definition update_video (video : option nat) (f : Video -> Video)
    (s : WebAudio) : WebAudio :=
  match video with
  | Some id => set_videos (alter f id (videos s)) s
  | None => s
  end.

Definition video_set_muted (b : bool) (v : Video) : Video :=
  mkVideo b (v_volume v) (v_currentTime v) (v_paused v) (v_ended v)
    (v_readyState v) (v_fillerListeners v).

Definition video_set_volume (x : Z) (v : Video) : Video :=
  mkVideo (v_muted v) (Some x) (v_currentTime v) (v_paused v) (v_ended v)
    (v_readyState v) (v_fillerListeners v).

Definition video_listen (v : Video) : Video :=
  mkVideo (v_muted v) (v_volume v) (v_currentTime v) (v_paused v) (v_ended v)
    (v_readyState v) true.

Definition playFillerAudio (video : option nat) (s : WebAudio) : WebAudio :=
  if playing video s
  then update_video video video_listen
         (set_fillerAudio
            ((λ f, mkFiller true (filler_currentTime f)) <$> fillerAudio s) s)
  else s.

Definition stopFillerAudio (s : WebAudio) : WebAudio :=
  set_fillerAudio ((λ _, mkFiller false 0) <$> fillerAudio s) s.

Definition clearUnmuteTimeout (rule : AudioRule) (s : WebAudio) : WebAudio :=
  match unmuteTimeout s with
  | Some handle =>
      if JS.truthy_num (unmuteDelay rule)
      then set_unmuteTimeout None (clearTimeout handle s)
      else s
  | None => s
  end.

(** [if (!video) video = getElement(rule.videoSelector)] *)
Definition video_or_lookup (rule : AudioRule) (video : option nat) : option nat :=
  match video with
  | Some id => Some id
  | None => getElement (videoSelector rule)
  end.

(** The [switch (rule.muteMethod)] of [mute]. *)
Definition muteEffector (rule : AudioRule) (video : option nat)
    (s : WebAudio) : WebAudio :=
  match muteMethod rule with
  | Some TAB => emit (SendMute true) s
  | Some VIDEO_MUTE =>
      let video := video_or_lookup rule video in
      let s :=
        match the_video video s with
        | Some v =>
            if negb (v_muted v) then update_video video (video_set_muted true) s
            else s
        | None => s
        end in
      if fillerAudio s is Some _ then playFillerAudio video s else s
  | Some VIDEO_VOLUME =>
      let video := video_or_lookup rule video in
      let s :=
        match the_video video s with
        | Some v =>
            match v_volume v with
            | Some x => update_video video (video_set_volume 0) (set_volume x s)
            | None => s
            end
        | None => s
        end in
      if fillerAudio s is Some _ then playFillerAudio video s else s
  | _ => s
  end.

(** The block guarded by [if (!this.muted)] in [mute]. *)
Definition muteBlock (rule : AudioRule) (video : option nat)
    (s : WebAudio) : WebAudio :=
  let s := set_muted true s in
  let s := if collectStats filter then set_stats_mutes (stats_mutes s + 1) s else s in
  let s := muteEffector rule video s in
  emit (DebugTime "mute()") s.

(** The last statement of [mute]: a planned delayed unmute is cleared. *)
Definition cancelPendingUnmute (rule : AudioRule) (s : WebAudio) : WebAudio :=
  if JS.truthy_num (unmuteDelay rule) && bool_decide (is_Some (unmuteTimeout s))
  then clearUnmuteTimeout rule s
  else s.

Definition mute (rule : AudioRule) (video : option nat) (s : WebAudio) : WebAudio :=
  let s := if negb (muted s) then muteBlock rule video s else s in
  cancelPendingUnmute rule s.

(** [rule.unmuteDelay >= 0]; the comparison is false for [undefined]. *)
Definition unmuteDelay_ge0 (rule : AudioRule) : bool :=
  match unmuteDelay rule with
  | Some d => 0 <=? d
  | None => false
  end.

(** The [switch (rule.muteMethod)] of [unmute]. *)
Definition unmuteEffector (rule : AudioRule) (video : option nat)
    (s : WebAudio) : WebAudio :=
  match muteMethod rule with
  | Some TAB => emit (SendMute false) s
  | Some VIDEO_MUTE =>
      let s := if fillerAudio s is Some _ then stopFillerAudio s else s in
      let video := video_or_lookup rule video in
      match the_video video s with
      | Some v =>
          if v_muted v then update_video video (video_set_muted false) s else s
      | None => s
      end
  | Some VIDEO_VOLUME =>
      let s := if fillerAudio s is Some _ then stopFillerAudio s else s in
      let video := video_or_lookup rule video in
      match the_video video s with
      | Some v =>
          match v_volume v with
          | Some _ => update_video video (video_set_volume (volume s)) s
          | None => s
          end
      | None => s
      end
  | _ => s
  end.

(** The branch of [unmute] that arms the timer. *)
Definition scheduleUnmute (rule : AudioRule) (s : WebAudio) : WebAudio :=
  let s :=
    if bool_decide (unmuteTimeout s = None) then clearUnmuteTimeout rule s else s in
  let '(handle, s) := setTimeout (mkTask (default 0 (unmuteDelay rule)) rule) s in
  set_unmuteTimeout (Some handle) s.

Definition unmute (rule : AudioRule) (video : option nat) (delayed : bool)
    (s : WebAudio) : WebAudio :=
  if muted s then
    if negb delayed && unmuteDelay_ge0 rule then scheduleUnmute rule s
    else
      let s := set_muted false s in
      let s := unmuteEffector rule video s in
      emit (DebugTime "unmute()") s
  else s.

(** [delayedUnmute(instance, rule)].  The method is handed to
    [setTimeout] unbound, so inside it [this] is the timer's receiver and
    not the engine: the assignment [this.unmuteTimeout = null] leaves
    [instance.unmuteTimeout] as it is. *)
Definition delayedUnmute (rule : AudioRule) (instance : WebAudio) : WebAudio :=
  unmute rule None true instance.

(** The expiry of the timer with the given handle: it leaves the table
    of pending timers and runs its callback. *)
Definition fire (handle : positive) (s : WebAudio) : WebAudio :=
  match timers s !! handle with
  | Some task => delayedUnmute (task_rule task) (clearTimeout handle s)
  | None => s
  end.

End MuteController.

(** ** Rule initialiser *)

Section RuleInitializer.

Variable filter : Filter.

Definition defaultVideoSelector : string := "video".

Definition mode_is (rule : AudioRule) (m : string) : bool :=
  JS.opt_str_eqb (mode rule) (Some m).

Definition initCueRule (rule : AudioRule) : AudioRule :=
  let rule :=
    if bool_decide (apfCaptions rule = Some true)
    then set_videoCueHideCues (Some true) rule else rule in
  let rule :=
    if bool_decide (videoCueRequireShowing rule = None)
    then set_videoCueRequireShowing (muteCueRequireShowing filter) rule
    else rule in
  if JS.truthy_bool (externalSub rule) then
    let rule :=
      if bool_decide (externalSubTrackMode rule = None)
      then set_externalSubTrackMode (Some "showing") rule else rule in
    let rule :=
      if bool_decide (externalSubURLKey rule = None)
      then set_externalSubURLKey (Some "url") rule else rule in
    let rule :=
      if bool_decide (externalSubFormatKey rule = None)
      then set_externalSubFormatKey (Some "format") rule else rule in
    if bool_decide (externalSubTrackLabel rule = None)
    then set_externalSubTrackLabel (Some "APF") rule else rule
  else rule.

Definition initDisplaySelector (rule : AudioRule) : AudioRule :=
  if bool_decide (displaySelector rule = None) then rule
  else
    let rule :=
      if bool_decide (displayHide rule = None)
      then set_displayHide (Some "none") rule else rule in
    if bool_decide (displayShow rule = None)
    then set_displayShow (Some "") rule else rule.

(** [if (rule.dynamicTargetMode == undefined) rule.disabled == true;] the
    statement after the test is a comparison, whose value is dropped. *)
Definition initDynamicRule (rule : AudioRule) : AudioRule :=
  let rule := set_dynamic_ (Some true) rule in
  if bool_decide (dynamicTargetMode rule = None)
  then let _ := bool_decide (disabled rule = Some true) in rule
  else rule.

Definition initElementChildRule (rule : AudioRule) : AudioRule :=
  let rule :=
    if negb (JS.truthy_str (parentSelector rule))
         && negb (JS.truthy_str (parentSelectorAll rule))
    then set_disabled (Some true) rule else rule in
  if JS.truthy_bool (apfCaptions rule) then
    if bool_decide (displaySelector rule = None)
    then set_disabled (Some true) rule else rule
  else rule.

Definition initElementRule (rule : AudioRule) : AudioRule :=
  if JS.truthy_bool (apfCaptions rule) then
    if bool_decide (displaySelector rule = None)
    then set_disabled (Some true) rule else rule
  else rule.

Definition initTextRule (rule : AudioRule) : AudioRule :=
  let rule := set_tagName (Some "#text") rule in
  if bool_decide (simpleUnmute rule = None)
  then set_simpleUnmute (Some true) rule else rule.

Definition initWatcherRule (rule : AudioRule) : AudioRule :=
  let rule :=
    if bool_decide (apfCuesLabel rule = None)
    then set_apfCuesLabel (Some "APF-Cues") rule else rule in
  let rule :=
    if bool_decide (checkInterval rule = None)
    then set_checkInterval (Some 20) rule else rule in
  let rule :=
    if bool_decide (ignoreMutations rule = None)
    then set_ignoreMutations (Some true) rule else rule in
  if bool_decide (simpleUnmute rule = None)
  then set_simpleUnmute (Some true) rule else rule.

(** [s.toUpperCase()] / [s.toLowerCase()] on code units below 256: the
    letters a-z, A-Z and those of Latin-1; the capital of the sharp s
    (223) is [SS].  The capitals of the code units 181 and 255 lie beyond
    255: these two are outside the model and are left as they are. *)
Definition upper_char (c : ascii) : string :=
  let n := nat_of_ascii c in
  if ((97 <=? n)%nat && (n <=? 122)%nat)
       || ((224 <=? n)%nat && (n <=? 254)%nat && negb (n =? 247)%nat)
  then String (ascii_of_nat (n - 32)) EmptyString
  else if (n =? 223)%nat then "SS"
  else String c EmptyString.

Definition lower_char (c : ascii) : ascii :=
  let n := nat_of_ascii c in
  if ((65 <=? n)%nat && (n <=? 90)%nat)
       || ((192 <=? n)%nat && (n <=? 222)%nat && negb (n =? 215)%nat)
  then ascii_of_nat (n + 32) else c.

Fixpoint map_string (f : ascii -> ascii) (s : string) : string :=
  match s with
  | String c s' => String (f c) (map_string f s')
  | EmptyString => EmptyString
  end.

Fixpoint toUpperCase (s : string) : string :=
  match s with
  | String c s' => upper_char c +:+ toUpperCase s'
  | EmptyString => EmptyString
  end.

Definition toLowerCase : string -> string := map_string lower_char.

(** The condition under which [initRule] first disables a rule. *)
Definition inapplicable (rule : AudioRule) : bool :=
  bool_decide (mode rule = None)
  || ((mode_is rule "element" || mode_is rule "elementChild")
        && negb (JS.truthy_str (tagName rule)))
  || (bool_decide (iframe rule = Some true) && negb (in_iframe filter))
  || (bool_decide (iframe rule = Some false) && in_iframe filter).

(** The defaults [initRule] gives a rule that is not disabled. *)
Definition ruleDefaults (rule : AudioRule) : AudioRule :=
  let rule :=
    if bool_decide (filterSubtitles rule = None)
    then set_filterSubtitles (Some true) rule else rule in
  let rule :=
    if negb (filterText filter)
    then set_filterSubtitles (Some false) rule else rule in
  let rule :=
    if bool_decide (videoSelector rule = None)
    then set_videoSelector (Some defaultVideoSelector) rule else rule in
  let rule := initDisplaySelector rule in
  let rule :=
    if bool_decide (muteMethod rule = None)
    then set_muteMethod (cfg_muteMethod filter) rule else rule in
  let rule :=
    if bool_decide (showSubtitles rule = None)
    then set_showSubtitles (cfg_showSubtitles filter) rule else rule in
  match tagName rule with
  | Some t =>
      if negb (JS.str_eqb t "#text")
      then set_tagName (Some (toUpperCase t)) rule else rule
  | None => rule
  end.

(** The [switch (rule.mode)] of [initRule], on the rule and on the cue
    and watcher index arrays. *)
Definition initByMode (ruleId : nat) (rule : AudioRule) (s : WebAudio)
  : AudioRule * WebAudio :=
  if mode_is rule "cue" then
    let rule := initCueRule rule in
    (rule,
     if negb (JS.truthy_bool (disabled rule))
     then set_cueRuleIds (cueRuleIds s ++ [ruleId]) s else s)
  else if mode_is rule "dynamic" then (initDynamicRule rule, s)
  else if mode_is rule "elementChild" then (initElementChildRule rule, s)
  else if mode_is rule "element" then (initElementRule rule, s)
  else if mode_is rule "text" then (initTextRule rule, s)
  else if mode_is rule "watcher" then
    let rule := initWatcherRule rule in
    (rule,
     if negb (JS.truthy_bool (disabled rule))
     then set_watcherRuleIds (watcherRuleIds s ++ [ruleId]) s else s)
  else if mode_is rule "ytauto" then (set_disabled (Some true) rule, s)
  else (rule, s).

(** The last [if] of [initRule]: a rule still enabled is indexed, and a
    watcher gets its periodic task. *)
Definition enableRule (ruleId : nat) (rule : AudioRule) (s : WebAudio) : WebAudio :=
  if JS.truthy_bool (disabled rule) then
    if negb (mode_is rule "ytauto")
    then emit (LogInfo "Audio rule disabled during initialization" (Some ruleId)) s
    else s
  else
    let s := set_enabledRuleIds (enabledRuleIds s ++ [ruleId]) s in
    let s :=
      if JS.truthy_bool (apfCaptions rule)
      then set_apfCaptionRuleIds (apfCaptionRuleIds s ++ [ruleId]) s else s in
    if mode_is rule "watcher" then
      if JS.truthy_bool (toCue rule)
      then emit (SetInterval WatcherToCue (checkInterval rule) ruleId) s
      else emit (SetInterval Watcher (checkInterval rule) ruleId) s
    else s.

(** [store_rule]: the rule object sits in [this.rules]; what [initRule]
    assigns to it is visible there. *)
Definition store_rule (ruleId : nat) (rule : AudioRule) (s : WebAudio) : WebAudio :=
  set_rules (<[ruleId := rule]> (rules s)) s.

(** [initRule(rule)] for the rule object at position [ruleId] of
    [this.rules] (the value of [this.rules.indexOf(rule)]). *)
Definition initRule (ruleId : nat) (s : WebAudio) : WebAudio :=
  match rules s !! ruleId with
  | Some rule =>
      let rule := if inapplicable rule then set_disabled (Some true) rule else rule in
      if JS.truthy_bool (disabled rule) then
        emit (LogInfo "Audio rule disabled" (Some ruleId)) (store_rule ruleId rule s)
      else
        let rule := ruleDefaults rule in
        let '(rule, s) := initByMode ruleId rule s in
        enableRule ruleId rule (store_rule ruleId rule s)
  | None => s
  end.

(** [this.rules.forEach((rule) => { this.initRule(rule); })] of the
    constructor. *)
Definition initRules (s : WebAudio) : WebAudio :=
  foldl (λ s ruleId, initRule ruleId s) s (seq 0 (length (rules s))).

End RuleInitializer.

(** ** Node matcher *)

(** What the matcher reads of an element. *)
Record Element : Type := mkElement {
  el_tagName : string;
  el_className : string;
  el_classList : list string;
  el_dataset : list string;        (* the own keys of [dataset] *)
  el_childElementCount : Z;
}.

(** An observed node: an element, or a node without the element
    properties (a text node). *)
Record DomNode : Type := mkNode {
  nodeName : string;
  textContent : option string;
  parentElement : option nat;
  element : option Element;
}.

Inductive Root : Type :=
  | Document
  | RootNodeOf (node : nat).       (* [node.getRootNode()] *)

(** The page, as the matcher queries it.  Nodes are named by reference. *)
Record Dom : Type := mkDom {
  dom_node : nat -> DomNode;
  node_querySelector : nat -> string -> option nat;
  root_querySelector : Root -> string -> option nat;
  root_querySelectorAll : Root -> string -> list nat;
  node_contains : nat -> nat -> bool;              (* [a.contains(b)] *)
  dom_getElement : option string -> option nat;    (* [getElement] of [lib/helper] *)
}.

(** The value [supportedNode] returns: a rule id, or [false]. *)
Inductive NodeResult : Type :=
  | RuleId (id : nat)
  | NotSupported.

(** [if (result)] on such a value: the number [0] and [false] are falsy. *)
Definition result_truthy (r : NodeResult) : bool :=
  match r with
  | RuleId O => false
  | RuleId (S _) => true
  | NotSupported => false
  end.

Section NodeMatcher.

Variable filter : Filter.
Variable dom : Dom.

(** A selector argument: [undefined] is converted to a string. *)
Definition selector (v : option string) : string := default "undefined" v.

Definition supportedCaptionsFound (found forceUpdate : bool) (s : WebAudio) : WebAudio :=
  if negb (extension filter)
       || (negb forceUpdate && Bool.eqb found (supportedCaptions s))
  then s
  else
    let s := set_supportedCaptions found s in
    let s := emit (SendStatus found forceUpdate) s in
    if found then emit (LogInfo "Supported captions found" None) s
    else emit (LogInfo "Watching for supported captions" None) s.

Definition has_selected (node : nat) (sel : option string) : bool :=
  match element (dom_node dom node) with
  | Some _ => bool_decide (is_Some (node_querySelector dom node (selector sel)))
  | None => false
  end.

Definition supportedElementNode (node : nat) (rule : AudioRule) : bool :=
  let n := dom_node dom node in
  if JS.opt_str_eqb (Some (nodeName n)) (tagName rule) then
    if JS.truthy_str (className rule)
         && (negb (JS.truthy_str (el_className <$> element n))
             || negb (bool_decide
                        (default "" (className rule)
                           ∈ default [] (el_classList <$> element n))))
    then false
    else if JS.truthy_str (dataPropPresent rule)
         && negb (bool_decide
                    (default "" (dataPropPresent rule)
                       ∈ default [] (el_dataset <$> element n)))
    then false
    else if JS.truthy_bool (hasChildrenElements rule)
         && match element n with
            | Some e => el_childElementCount e =? 0
            | None => true
            end
    then false
    else if JS.truthy_str (subtitleSelector rule)
         && negb (has_selected node (subtitleSelector rule))
    then false
    else if JS.truthy_str (containsSelector rule)
         && negb (has_selected node (containsSelector rule))
    then false
    else true
  else false.

Definition supportedElementChildNode (node : nat) (rule : AudioRule) : bool :=
  let n := dom_node dom node in
  if JS.opt_str_eqb (Some (nodeName n)) (tagName rule) then
    let root := if JS.truthy_bool (rootNode rule) then RootNodeOf node else Document in
    if JS.truthy_str (parentSelector rule) then
      match root_querySelector dom root (selector (parentSelector rule)) with
      | Some parent => bool_decide (parent = node) || node_contains dom parent node
      | None => false
      end
    else
      existsb (λ parent, node_contains dom parent node)
        (root_querySelectorAll dom root (selector (parentSelectorAll rule)))
  else false.

Definition supportedTextNode (node : nat) (rule : AudioRule) : bool :=
  if JS.opt_str_eqb (Some (nodeName (dom_node dom node))) (tagName rule) then
    match root_querySelector dom Document (selector (parentSelector rule)) with
    | Some parent => node_contains dom parent node
    | None => false
    end
  else false.

Definition supportedWatcherNode (node : nat) (rule : AudioRule) : bool :=
  if bool_decide (is_Some (subtitleSelector rule))
       && match parentElement (dom_node dom node) with
          | Some p => bool_decide (Some p = dom_getElement dom (subtitleSelector rule))
          | None => false
          end
  then true
  else if bool_decide (is_Some (parentSelector rule)) then
    match dom_getElement dom (parentSelector rule) with
    | Some parent => node_contains dom parent node
    | None => false
    end
  else false.

Fixpoint join (sep : string) (l : list string) : string :=
  match l with
  | [] => ""
  | [x] => x
  | x :: rest => x +:+ sep +:+ join sep rest
  end.

(** [node.textContent === rule.dynamicTextKey]: [null] and [undefined]
    are not strictly equal. *)
Definition dynamicTriggered (node : nat) (rule : AudioRule) : bool :=
  match textContent (dom_node dom node), dynamicTextKey rule with
  | Some t, Some k => JS.str_eqb t k
  | _, _ => false
  end.

(** [supportedDynamicNode]: on the marker text the rule object takes its
    target mode and is initialised again.  A node without [tagName]
    makes the template string throw. *)
Definition supportedDynamicNode (node ruleId : nat) (rule : AudioRule)
    (s : WebAudio) : Completion WebAudio :=
  if dynamicTriggered node rule then
    match element (dom_node dom node) with
    | Some e =>
        let rule := set_mode (dynamicTargetMode rule) rule in
        let rule :=
          set_parentSelectorAll
            (Some (toLowerCase (el_tagName e) +:+ "." +:+ join "." (el_classList e)
                     +:+ " " +:+ selector (parentSelectorAll rule)))
            rule in
        Normal (initRule filter ruleId (store_rule ruleId rule s))
    | None => Throw (TypeError "node.tagName")
    end
  else Normal s.

(** The [for] loop of [supportedNode] from index [i] on, then the
    statement after it.  [this.enabledRuleIds.length] is read again at
    every turn and [supportedDynamicNode] may append to the array, so
    the turns are counted by [fuel]; [None] is a loop still running when
    the fuel is spent. *)
Fixpoint supportedNode_loop (fuel : nat) (node : nat) (i : nat) (s : WebAudio)
  : option (Completion (NodeResult * WebAudio)) :=
  match fuel with
  | O => None
  | S fuel' =>
      match enabledRuleIds s !! i with
      | Some ruleId =>
          match rules s !! ruleId with
          | Some rule =>
              let continue (supported : bool) (s : WebAudio) :=
                if supported
                then Some (Normal (RuleId ruleId, supportedCaptionsFound true false s))
                else supportedNode_loop fuel' node (S i) s in
              if mode_is rule "element"
              then continue (supportedElementNode node rule) s
              else if mode_is rule "elementChild"
              then continue (supportedElementChildNode node rule) s
              else if mode_is rule "text"
              then continue (supportedTextNode node rule) s
              else if mode_is rule "watcher"
              then continue (supportedWatcherNode node rule) s
              else if mode_is rule "dynamic" then
                match supportedDynamicNode node ruleId rule s with
                | Normal s' => continue false s'
                | Throw e => Some (Throw e)
                end
              else continue false s
          | None => Some (Throw (TypeError "rule.mode"))
          end
      | None => Some (Normal (NotSupported, s))
      end
  end.

Definition supportedNode (fuel : nat) (node : nat) (s : WebAudio)
  : option (Completion (NodeResult * WebAudio)) :=
  supportedNode_loop fuel node 0%nat s.

End NodeMatcher.

(** ** Rule registry *)

(** A rule as a site table holds it: the [buildTarget] property, which
    only the registry reads, and the rule the engine works on. *)
Record SiteRule : Type := mkSiteRule {
  buildTarget : option string;
  site_rule : AudioRule;
}.

(** The value under a site key: one rule object, or an array of them. *)
Inductive SiteEntry : Type :=
  | OneRule (r : SiteRule)
  | RuleArray (l : list SiteRule).

(** [BuildTargetSites] *)
Record BuildTargetSites : Type := mkTargetSites {
  disabledSites : list string;
  target_sites : gmap string SiteEntry;
}.

(** What the registry imports: the build target of [WebConfig.BUILD], the
    two target constants, the site table of [webAudioSites] and its three
    target configurations. *)
Record Build : Type := mkBuild {
  build_target : string;
  BUILD_TARGET_IOS : string;
  BUILD_TARGET_SAFARI : string;
  builtinSites : gmap string SiteEntry;
  iOSTargetConfig : BuildTargetSites;
  safariTargetConfig : BuildTargetSites;
  defaultTargetConfig : BuildTargetSites;
}.

Section RuleRegistry.

Variable build : Build.

Definition getBuildTargetConfig : BuildTargetSites :=
  if JS.str_eqb (build_target build) (BUILD_TARGET_IOS build)
  then iOSTargetConfig build
  else if JS.str_eqb (build_target build) (BUILD_TARGET_SAFARI build)
  then safariTargetConfig build
  else defaultTargetConfig build.

(** [Array.isArray(siteRules) ? siteRules : [siteRules]] *)
Definition asArray (e : SiteEntry) : list SiteRule :=
  match e with
  | OneRule r => [r]
  | RuleArray l => l
  end.

(** [rule.buildTarget == null || rule.buildTarget == WebConfig.BUILD.target] *)
Definition targetMatches (r : SiteRule) : bool :=
  match buildTarget r with
  | None => true
  | Some t => JS.str_eqb t (build_target build)
  end.

(** The first pass of [removeUnsupportedSites] on one site. *)
Definition keepSupportedRules (e : SiteEntry) : SiteEntry :=
  RuleArray (List.filter targetMatches (asArray e)).

(** [sites[siteKey].length == 0], the test of the second pass. *)
Definition noRules (e : SiteEntry) : bool :=
  match asArray e with
  | [] => true
  | _ :: _ => false
  end.

Definition removeUnsupportedSites (sites : gmap string SiteEntry)
  : gmap string SiteEntry :=
  filter (fun kv => noRules kv.2 = false) (keepSupportedRules <$> sites).

(** [Object.assign({}, a, b)]: the properties of [b] win. *)
Definition assign (a b : gmap string SiteEntry) : gmap string SiteEntry := b ∪ a.

Definition supportedSites (removeUnsupported : bool) : gmap string SiteEntry :=
  let buildTargetConfig := getBuildTargetConfig in
  let siteConfig := assign (builtinSites build) (target_sites buildTargetConfig) in
  let siteConfig :=
    foldl (fun m disabledSite => delete disabledSite m) siteConfig
      (disabledSites buildTargetConfig) in
  if removeUnsupported then removeUnsupportedSites siteConfig else siteConfig.

Definition supportedAndCustomSites (customConfig : gmap string SiteEntry)
  : gmap string SiteEntry :=
  removeUnsupportedSites (assign (supportedSites false) customConfig).

(** [getSiteKey]: [hostname] is [filter.hostname]; [iframe] is the host
    name of [filter.iframe], [None] without a frame. *)
Definition getSiteKey (sites : gmap string SiteEntry) (hostname : string)
    (iframe : option string) : string :=
  if bool_decide (is_Some (sites !! hostname)) then hostname
  else
    match iframe with
    | Some h =>
        if JS.truthy_str (Some h) && bool_decide (is_Some (sites !! h))
        then h else ""
    | None => ""
    end.

(** [this.rules = this.sites[this.siteKey]] of the constructor. *)
Definition siteRules (sites : gmap string SiteEntry) (hostname : string)
    (iframe : option string) : option SiteEntry :=
  sites !! getSiteKey sites hostname iframe.

End RuleRegistry.

(** ** Caption lines *)

(** The separator of [s.split('\n')], anchored at the start of [s]. *)
Definition match_LF (s : string) : option nat :=
  match s with
  | String c _ => if JS.ascii_eqb c JS.LF then Some 1%nat else None
  | EmptyString => None
  end.

(** [splitReplaceTextResultsOnNewlines(result)]: the lines of a result
    whose original and filtered texts have the same number of lines, more
    than one; the loop reads both arrays at the same index. *)
Definition splitReplaceTextResultsOnNewlines (result : ReplaceTextResult)
  : list ReplaceTextResult :=
  let originalLines := JS.split match_LF (res_original result) in
  let filteredLines := JS.split match_LF (res_filtered result) in
  if (length originalLines =? 1)%nat
       || negb (length originalLines =? length filteredLines)%nat
  then [result]
  else
    zip_with
      (fun originalLine filteredLine =>
         let lineModified :=
           res_modified result && negb (JS.str_eqb originalLine filteredLine) in
         mkResult filteredLine lineModified originalLine)
      originalLines filteredLines.

(** ** Watcher captions *)

(** [WatcherData], the record a watcher pass fills in. *)
Record WatcherData : Type := mkData {
  data_filtered : bool;
  initialCall : bool;
  skipped : option bool;
  textResults : list ReplaceTextResult;
}.

(** The engine with its field [lastProcessedText], which the mute
    controller neither reads nor writes, and the [textContent] of the
    caption elements of the page, named by number; an element without
    entry has the empty text. *)
Record CaptionPage : Type := mkPage {
  engine : WebAudio;
  lastProcessedText : string;
  captionText : gmap nat string;
}.

Definition textContentOf (p : CaptionPage) (caption : nat) : string :=
  default "" (captionText p !! caption).

Section WatcherCaptions.

Variable filter : Filter.
Variable getElement : option string -> option nat.
Variable replaceTextResult : string -> ReplaceTextResult.

(** [captions.map((caption) => caption.textContent).join(' ')] *)
Definition captionsText (captions : list nat) (p : CaptionPage) : string :=
  join " " (textContentOf p <$> captions).

(** The callback of [captions.forEach]: empty and white-space captions
    are passed over. *)
Definition processCaption (rule : AudioRule) (acc : WatcherData * CaptionPage)
    (caption : nat) : WatcherData * CaptionPage :=
  let '(data, p) := acc in
  let t := textContentOf p caption in
  if JS.truthy_str (Some t) && JS.truthy_str (Some (JS.trim t)) then
    let result := replaceTextResult t in
    let '(data, p) :=
      if res_modified result then
        let p :=
          mkPage (mute filter getElement rule None (engine p))
            (lastProcessedText p) (captionText p) in
        let data :=
          mkData true (initialCall data) (skipped data) (textResults data) in
        let p :=
          if JS.truthy_bool (filterSubtitles rule)
               && negb (JS.truthy_bool (apfCaptions rule))
          then mkPage (engine p) (lastProcessedText p)
                 (<[caption := res_filtered result]> (captionText p))
          else p in
        (data, p)
      else (data, p) in
    (mkData (data_filtered data) (initialCall data) (skipped data)
       (textResults data ++ [result]), p)
  else (data, p).

(** [processWatcherCaptionsArray(rule, captions, data)]: the value
    returned ([false] when the captions are skipped, [undefined]
    otherwise), the data and the page. *)
Definition processWatcherCaptionsArray (rule : AudioRule) (captions : list nat)
    (data : WatcherData) (p : CaptionPage)
  : option bool * WatcherData * CaptionPage :=
  let originalText := captionsText captions p in
  if JS.truthy_str (Some (lastProcessedText p))
       && JS.str_eqb (lastProcessedText p) originalText
  then
    (Some false,
     mkData (data_filtered data) (initialCall data) (Some true) (textResults data),
     p)
  else
    let p :=
      mkPage (unmute getElement rule None false (engine p)) "" (captionText p) in
    let '(data, p) := foldl (processCaption rule) (data, p) captions in
    (None, data, mkPage (engine p) (captionsText captions p) (captionText p)).

End WatcherCaptions.

(** * Vocabulary of the properties *)

(** ** Sample inputs *)

Definition cue_of (s e : Z) (t : string) : Cue :=
  mkCue s e t None None None None None None.

(** The SRT text [1\n00:00:01,000 --> 00:00:02,000\nHello\n\n]. *)
Definition srt_example : string :=
  "1" +:+ String JS.LF "00:00:01,000 --> 00:00:02,000"
      +:+ String JS.LF "Hello" +:+ String JS.LF (String JS.LF "").

(** Two blocks, the first with a start token that is no time. *)
Definition srt_malformed : string :=
  "1" +:+ String JS.LF "xx --> 00:00:02,000"
      +:+ String JS.LF "Hello" +:+ String JS.LF (String JS.LF "2")
      +:+ String JS.LF "00:00:03,000 --> 00:00:04,000"
      +:+ String JS.LF "Bye".

Definition sample_cue : Cue := cue_of 0 1000 "Hi".


Definition showing_metadata : TextTrack :=
  mkTrack "Data" "en" "metadata" "showing" (Some [sample_cue]).

Definition showing_captions : TextTrack :=
  mkTrack "English" "en" "captions" "showing" (Some [sample_cue]).

(** A cue rule without any of the track keys. *)
Definition plain_cue_rule : AudioRule := set_mode (Some "cue") emptyRule.

(** A cue rule that asks for showing tracks of kind [captions]. *)
Definition showing_rule : AudioRule :=
  set_videoCueRequireShowing (Some true)
    (set_videoCueKind (Some "captions") plain_cue_rule).

(** A page outside any frame, with statistics collected and the tab mute
    method as the configured default. *)
Definition sample_filter : Filter :=
  mkFilter true false true true (Some TAB) (Some 0) None.

Definition no_element : option string -> option nat := fun _ => None.

(** An element rule muting the tab, with a delayed unmute of 500 ms. *)
Definition delayed_rule : AudioRule :=
  set_unmuteDelay (Some 500)
    (set_muteMethod (Some TAB)
       (set_tagName (Some "SPAN") (set_mode (Some "element") emptyRule))).

(** The same rule with a delay of 0 ms. *)
Definition zero_delay_rule : AudioRule := set_unmuteDelay (Some 0) delayed_rule.

(** A rule for pages inside a frame only. *)
Definition framed_rule : AudioRule :=
  set_iframe (Some true)
    (set_tagName (Some "SPAN") (set_mode (Some "element") emptyRule)).

(** A dynamic rule without a target mode. *)
Definition dynamic_rule : AudioRule := set_mode (Some "dynamic") emptyRule.

(** The engine as the constructor has it before the rules are
    initialised, but for [muted]. *)
Definition engine_of (rs : list AudioRule) (m : bool) : WebAudio :=
  mkWebAudio [] [] [] None m rs false None 1000 [] 0 ∅ ∅ 1%positive [].

(** An engine that has muted for [delayed_rule] and has no timer pending. *)
Definition muted_engine : WebAudio := engine_of [delayed_rule] true.

Definition unmuted_engine : WebAudio := engine_of [delayed_rule] false.

(** A page with a single kind of node: a [SPAN] element. *)
Definition span_dom : Dom :=
  mkDom (fun _ => mkNode "SPAN" (Some "hello") None
                    (Some (mkElement "SPAN" "" [] [] 0)))
    (fun _ _ => None) (fun _ _ => None) (fun _ _ => []) (fun _ _ => false)
    (fun _ => None).

(** The engine the constructor's loop leaves for the one rule
    [delayed_rule], an element rule for [SPAN]. *)
Definition span_engine : WebAudio :=
  initRules sample_filter (engine_of [delayed_rule] false).

(** A dynamic rule that turns into a watcher on the marker text [KEY],
    and a text rule for the text nodes under [.p]. *)
Definition marker_rule : AudioRule :=
  mkRule None None None None None None None None None None None
    (Some "watcher") (Some "KEY") None None None None None None None None
    None (Some "dynamic") None None None None None None None None None None
    None None None None None None None.

Definition text_rule : AudioRule :=
  mkRule None None None None None None None None None None None None None
    None None None None None None None None None (Some "text") None
    (Some ".p") None None None None None None None None None None None None
    None None None.

(** A page whose node 7 is a text node with the text [KEY] inside the
    element 3, which [.p] selects; every other node is that element. *)
Definition marker_dom : Dom :=
  mkDom
    (fun n =>
       if (n =? 7)%nat then mkNode "#text" (Some "KEY") (Some 3%nat) None
       else mkNode "P" (Some "KEY") None (Some (mkElement "P" "p" ["p"] [] 0)))
    (fun _ _ => None)
    (fun _ sel => if JS.str_eqb sel ".p" then Some 3%nat else None)
    (fun _ _ => [])
    (fun a b => (a =? 3)%nat && ((b =? 3)%nat || (b =? 7)%nat))
    (fun _ => None).

(** The engine the constructor's loop leaves for the two rules. *)
Definition marker_engine : WebAudio :=
  initRules sample_filter (engine_of [marker_rule; text_rule] false).

(** A word filter that masks the one text [damn]. *)
Definition sample_replace (t : string) : ReplaceTextResult :=
  if JS.str_eqb t "damn" then mkResult "****" true t else mkResult t false t.

(** Two cues in the store, the second classified already. *)
Definition sample_store : CueStore :=
  mkStore
    (<[0%nat := cue_of 0 1000 "damn"]>
       (<[1%nat := mkCue 1000 2000 "damn" None None None
                     (Some false) None (Some "damn")]> ∅))
    [].

(** ** Track selection *)


(** [r] designates the first considered track of maximal score, or no
    track when none is considered. *)
Definition first_best (rule : AudioRule) (overrideKey : option RuleKey)
    (tracks : list TextTrack) (r : option nat) : Prop :=
  match r with
  | Some i =>
      exists pre t post,
        tracks = pre ++ t :: post /\ i = length pre
        /\ considered rule t = true
        /\ Forall (fun t' => considered rule t' = true ->
                     currentScore rule overrideKey t' < currentScore rule overrideKey t)
             pre
        /\ Forall (fun t' => considered rule t' = true ->
                     currentScore rule overrideKey t' <= currentScore rule overrideKey t)
             post
  | None => Forall (fun t => considered rule t = false) tracks
  end.

(** No considered track scores above the rule's perfect score. *)
Definition bounded (rule : AudioRule) (overrideKey : option RuleKey)
    (tracks : list TextTrack) : Prop :=
  Forall (fun t => considered rule t = true ->
            currentScore rule overrideKey t <= perfectScore rule overrideKey)
    tracks.

(** What the loop of [getVideoTextTrack] knows after the tracks [pre]. *)
Definition scanned (rule : AudioRule) (overrideKey : option RuleKey)
    (pre : list TextTrack) (bestIndex : nat) (bestScore : Z)
    (foundCues : bool) : Prop :=
  Forall (fun t => considered rule t = true ->
            currentScore rule overrideKey t < perfectScore rule overrideKey) pre
  /\ if foundCues
     then exists p1 t p2,
            pre = p1 ++ t :: p2 /\ bestIndex = length p1
            /\ considered rule t = true
            /\ currentScore rule overrideKey t = bestScore
            /\ Forall (fun t' => considered rule t' = true ->
                         currentScore rule overrideKey t'
                         < currentScore rule overrideKey t) p1
            /\ Forall (fun t' => considered rule t' = true ->
                         currentScore rule overrideKey t'
                         <= currentScore rule overrideKey t) p2
     else Forall (fun t => considered rule t = false) pre.



(** ** Cue classification *)

(** The cue behind [ref], if any, has the own property [filtered]. *)
Definition classified (st : CueStore) (ref : nat) : Prop :=
  match cue_objects st !! ref with
  | Some cue => is_Some (filtered cue)
  | None => True
  end.

(** ** Mute controller *)

(** The messages the mute effector of a rule sends. *)
Definition effector_messages (rule : AudioRule) : list Event :=
  match muteMethod rule with
  | Some TAB => [SendMute true]
  | _ => []
  end.

(** Two calls of [mute] in a row as the specification words them, for
    every engine state. *)
Definition mute_twice_as_stated : Prop :=
  forall filter getElement rule video s,
    let s2 := mute filter getElement rule video (mute filter getElement rule video s) in
    muted s2 = true
    /\ stats_mutes s2 = stats_mutes s + (if collectStats filter then 1 else 0)
    /\ trace s2 = trace s ++ effector_messages rule ++ [DebugTime "mute()"].

(** ** Rule initialiser *)

(** The cases in which a rule does not apply to the page. *)
Definition not_applicable (filter : Filter) (rule : AudioRule) : Prop :=
  mode rule = None
  \/ ((mode rule = Some "element" \/ mode rule = Some "elementChild")
      /\ JS.truthy_str (tagName rule) = false)
  \/ (iframe rule = Some true /\ in_iframe filter = false)
  \/ (iframe rule = Some false /\ in_iframe filter = true).

(** ** Node matcher *)

(** The mode predicate of the rule behind [ruleId], applied to the node.
    Dynamic rules and rules of other modes have none. *)
Definition accepts (dom : Dom) (node : nat) (s : WebAudio) (ruleId : nat) : bool :=
  match rules s !! ruleId with
  | Some rule =>
      if mode_is rule "element" then supportedElementNode dom node rule
      else if mode_is rule "elementChild" then supportedElementChildNode dom node rule
      else if mode_is rule "text" then supportedTextNode dom node rule
      else if mode_is rule "watcher" then supportedWatcherNode dom node rule
      else false
  | None => false
  end.

(** The id designates a rule, and the node is not the marker of that
    rule if it is a dynamic one. *)
Definition quiet (dom : Dom) (node : nat) (s : WebAudio) (ruleId : nat) : bool :=
  match rules s !! ruleId with
  | Some rule => negb (mode_is rule "dynamic" && dynamicTriggered dom node rule)
  | None => false
  end.

(** What [supportedNode] returns and the state it leaves, by the first
    enabled rule that accepts the node. *)
Definition first_match (filter : Filter) (dom : Dom) (node : nat) (s : WebAudio)
    (ids : list nat) : NodeResult * WebAudio :=
  match List.find (accepts dom node s) ids with
  | Some ruleId => (RuleId ruleId, supportedCaptionsFound filter true false s)
  | None => (NotSupported, s)
  end.

(** ** Vocabulary of the further properties *)

(** A build for target [chrome] with one site disabled. *)
Definition sample_build : Build :=
  mkBuild "chrome" "ios" "safari"
    (<["a.example" := OneRule (mkSiteRule None plain_cue_rule)]>
       (<["b.example" := RuleArray [mkSiteRule (Some "safari") plain_cue_rule]]>
          (<["c.example" := RuleArray [mkSiteRule (Some "chrome") delayed_rule;
                                        mkSiteRule (Some "ios") plain_cue_rule]]> ∅)))
    (mkTargetSites [] ∅) (mkTargetSites [] ∅)
    (mkTargetSites ["a.example"] ∅).


(** The rule at position [ruleId] is there and is not disabled. *)
Definition rule_enabled (s : WebAudio) (ruleId : nat) : bool :=
  match rules s !! ruleId with
  | Some rule => negb (JS.truthy_bool (disabled rule))
  | None => false
  end.

(** The rule at position [ruleId] satisfies [p]. *)
Definition rule_at (s : WebAudio) (p : AudioRule -> bool) (ruleId : nat) : bool :=
  match rules s !! ruleId with
  | Some rule => p rule
  | None => false
  end.

(** The engine the constructor starts the rule loop from: no rule is
    indexed yet. *)
Definition fresh_arrays (s : WebAudio) : Prop :=
  enabledRuleIds s = [] /\ cueRuleIds s = [] /\ watcherRuleIds s = []
  /\ apfCaptionRuleIds s = [].

(** The defaults every initialised rule carries. *)
Definition defaulted (filter : Filter) (rule : AudioRule) : Prop :=
  is_Some (videoSelector rule)
  /\ is_Some (filterSubtitles rule)
  /\ (filterText filter = false -> filterSubtitles rule = Some false)
  /\ (mode rule = Some "watcher" -> is_Some (checkInterval rule)).

(** What the [switch (rule.mode)] of [initRule] does to the rule object. *)
Definition modeSetup (filter : Filter) (rule : AudioRule) : AudioRule :=
  if mode_is rule "cue" then initCueRule filter rule
  else if mode_is rule "dynamic" then initDynamicRule rule
  else if mode_is rule "elementChild" then initElementChildRule rule
  else if mode_is rule "element" then initElementRule rule
  else if mode_is rule "text" then initTextRule rule
  else if mode_is rule "watcher" then initWatcherRule rule
  else if mode_is rule "ytauto" then set_disabled (Some true) rule
  else rule.

(** What [initRule] does to the rule object it is given. *)
Definition initialisedRule (filter : Filter) (rule : AudioRule) : AudioRule :=
  let rule := if inapplicable filter rule then set_disabled (Some true) rule else rule in
  if JS.truthy_bool (disabled rule) then rule
  else modeSetup filter (ruleDefaults filter rule).

(** A watcher rule with a parent selector, checked every 50 ms. *)
Definition watcher_rule : AudioRule :=
  set_checkInterval (Some 50)
    (set_mode (Some "watcher") (set_muteMethod (Some TAB) emptyRule)).

(** An elementChild rule for [SPAN] without a parent selector. *)
Definition orphan_child_rule : AudioRule :=
  set_tagName (Some "SPAN") (set_mode (Some "elementChild") emptyRule).



(** A rule that mutes through the media element. *)
Definition video_method (rule : AudioRule) : bool :=
  match muteMethod rule with
  | Some VIDEO_MUTE | Some VIDEO_VOLUME => true
  | _ => false
  end.

(** A playing media element, muted by the user, and a rule that mutes
    through the element, without delay. *)
Definition user_muted_video : Video :=
  mkVideo true (Some 80) 1500 false false 4 false.

Definition video_mute_rule : AudioRule :=
  set_muteMethod (Some VIDEO_MUTE) (set_videoSelector (Some "video") (set_mode (Some "cue") emptyRule)).

Definition video_volume_rule : AudioRule :=
  set_muteMethod (Some VIDEO_VOLUME) (set_videoSelector (Some "video") (set_mode (Some "cue") emptyRule)).

Definition video_element (sel : option string) : option nat :=
  if JS.opt_str_eqb sel (Some "video") then Some 7%nat else None.

Definition video_engine : WebAudio :=
  mkWebAudio [] [] [] (Some (mkFiller false 0)) false
    [video_mute_rule; video_volume_rule] false None 1000 [] 0
    {[ 7%nat := user_muted_video ]} ∅ 1%positive [].

(** The state on which the effector of [mute] runs. *)
Definition muteEntry (filter : Filter) (s : WebAudio) : WebAudio :=
  let s := set_muted true s in
  if collectStats filter then set_stats_mutes (stats_mutes s + 1) s else s.

(** A line of an SRT file that holds the arrow of a timing line. *)
Definition timing_line (l : string) : bool := JS.includes "-->" l.

(** A timing line that does not split into a start and an end around one
    blank-delimited arrow. *)
Definition malformed_timing (l : string) : bool :=
  timing_line l && negb (length (JS.split JS.match_arrow l) =? 2)%nat.

(** A line of the text of an SRT block: neither empty nor a timing
    line. *)
Definition text_line (l : string) : bool :=
  negb (timing_line l) && negb (JS.str_eqb l "").

(** The text [parseSRT] hands to [newCue] for a block with the given
    text lines: [null] without any. *)
Definition block_text (texts : list string) : option string :=
  match texts with
  | [] => None
  | _ :: _ => Some (join (String JS.LF "") texts)
  end.

(** What [processCues] leaves of a cue found in the store, when the cue
    is listed or not. *)
Definition processedCue (replaceTextResult : string -> ReplaceTextResult)
    (rule : AudioRule) (listed : bool) (cue : Cue) : Cue :=
  if listed && bool_decide (filtered cue = None)
  then classifyCue replaceTextResult rule cue else cue.




(** A page with two caption elements, and a rule that mutes the tab at
    once. *)
Definition caption_page : CaptionPage :=
  mkPage unmuted_engine "" (<[1%nat := "damn"]> (<[2%nat := "it"]> ∅)).

Definition prompt_rule : AudioRule :=
  set_muteMethod (Some TAB) (set_mode (Some "watcher") emptyRule).

Definition fresh_data : WatcherData := mkData false true None [].

(** * Properties *)

(** ** JavaScript values *)

Example parseInt_examples :
  JS.parseInt " -12px" = Some (-12)
  /\ JS.parseInt "0x1A" = Some 26
  /\ JS.parseInt "0x" = None
  /\ JS.parseInt "auto" = None
  /\ JS.parseInt "9007199254740993" = Some 9007199254740992.
Proof. vm_compute. repeat split. Qed.

Example toUpperCase_examples :
  toUpperCase "span" = "SPAN"
  /\ toUpperCase (String (ascii_of_nat 233) "") = String (ascii_of_nat 201) ""
  /\ toUpperCase (String (ascii_of_nat 223) "") = "SS"
  /\ toLowerCase "DIV" = "div".
Proof. vm_compute. repeat split. Qed.

(** ** SRT parser *)

Example srt_example_lines :
  srt_lines srt_example = ["1"; "00:00:01,000 --> 00:00:02,000"; "Hello"].
Proof. reflexivity. Qed.

Example split_arrow_example :
  JS.split JS.match_arrow "00:00:01,000 --> 00:00:02,000"
  = ["00:00:01,000"; "00:00:02,000"].
Proof. reflexivity. Qed.

Example split_arrow_unspaced : JS.split JS.match_arrow "a-->b" = ["a-->b"].
Proof. reflexivity. Qed.

Example parseSRT_unspaced_arrow_throws :
  parseSRT Helper.hmsToSeconds "a-->b" = Throw (SplitError "a-->b").
Proof. reflexivity. Qed.

Example hmsToSeconds_example : Helper.hmsToSeconds "01:02:03.5" = Some 3723500.
Proof. reflexivity. Qed.

Example hmsToSeconds_malformed : Helper.hmsToSeconds "xx" = None.
Proof. reflexivity. Qed.

Section ParserFacts.

Variable hms : string -> option Z.

(** A string token the conversion rejects makes [newCue] return
    [undefined], whatever the other arguments. *)
Lemma newCue_start_rejected token e t o :
  hms token = None -> newCue hms (TStr token) e t o = None.
Proof. intros H. unfold newCue. simpl. by rewrite H. Qed.

Lemma newCue_end_rejected start token t o :
  hms token = None -> newCue hms start (TStr token) t o = None.
Proof.
  intros H. unfold newCue. destruct (toSeconds hms start); [|done].
  simpl. by rewrite H.
Qed.

(** [newCue] returns a cue exactly when both conversions succeed. *)
Lemma newCue_defined start e t o :
  is_Some (newCue hms start e t o)
  <-> is_Some (toSeconds hms start) /\ is_Some (toSeconds hms e).
Proof.
  unfold newCue.
  destruct (toSeconds hms start), (toSeconds hms e); split;
    (intros [? ?] || intros ?); try split; eauto; try done;
    match goal with H : is_Some None |- _ => by destruct H end.
Qed.

(** Whatever [newCue] returns, [parseSRT] appends it: the array grows by
    one slot per flushed block. *)
Lemma pushCue_length st :
  length (pushCue hms st) = S (length (srt_cues st)).
Proof. unfold pushCue. rewrite length_app. simpl. lia. Qed.

Lemma pushCue_last st :
  last (pushCue hms st)
  = Some (newCue hms (TStr (default "" (srt_start st)))
            (TStr (default "" (srt_end st))) (srt_text st) noOptions).
Proof. unfold pushCue. by rewrite last_snoc. Qed.

(** A block whose start token is rejected still takes a slot of the
    array: the slot holds [undefined]. *)
Lemma pushCue_rejected st token :
  srt_start st = Some token -> hms token = None ->
  last (pushCue hms st) = Some None.
Proof.
  intros Hs Hr. rewrite pushCue_last, Hs. simpl.
  by rewrite newCue_start_rejected.
Qed.

End ParserFacts.

(** C8.  [parseSRT] applied to [1\n00:00:01,000 --> 00:00:02,000\nHello\n\n]
    returns a list of exactly one cue, with start time 1.0 s, end time
    2.0 s and text [Hello]. *)
Theorem parseSRT_example :
  parseSRT Helper.hmsToSeconds srt_example
  = Normal [Some (cue_of 1000 2000 "Hello")].
Proof. vm_compute. reflexivity. Qed.

(** C4.  At a block whose start token is rejected, the failure is caught
    in [newCue] and the other block still yields its cue, but the failed
    cue is not dropped: [undefined] is pushed in its place, so the
    returned list does not hold only constructed cues. *)
Theorem parseSRT_keeps_failed_cue :
  parseSRT Helper.hmsToSeconds srt_malformed
  = Normal [None; Some (cue_of 3000 4000 "Bye")].
Proof. vm_compute. reflexivity. Qed.

(** ** Track selection *)

Section TrackSelection.

Variable rule : AudioRule.
Variable overrideKey : option RuleKey.

Local Abbreviation score := (currentScore rule overrideKey).
Local Abbreviation perfect := (perfectScore rule overrideKey).
Local Abbreviation scanned' := (scanned rule overrideKey).

Lemma scanned_skip pre t bi bs fc :
  considered rule t = false ->
  scanned' pre bi bs fc -> scanned' (pre ++ [t]) bi bs fc.
Proof.
  intros Hc [Hlt Hbest]. split.
  - apply Forall_app. split; [done|]. constructor; [congruence|constructor].
  - destruct fc.
    + destruct Hbest as (p1 & tb & p2 & -> & -> & Hcb & Hs & H1 & H2).
      exists p1, tb, (p2 ++ [t]). rewrite <- app_assoc. simpl.
      repeat split; try done.
      apply Forall_app. split; [done|]. constructor; [congruence|constructor].
    + apply Forall_app. split; [done|]. by constructor.
Qed.

Lemma scanned_keep pre t bi bs :
  score t < perfect -> score t <= bs ->
  scanned' pre bi bs true -> scanned' (pre ++ [t]) bi bs true.
Proof.
  intros Hp Hle [Hlt (p1 & tb & p2 & -> & -> & Hcb & Hs & H1 & H2)]. split.
  - apply Forall_app. split; [done|]. by constructor.
  - exists p1, tb, (p2 ++ [t]). rewrite <- app_assoc. simpl.
    repeat split; try done.
    apply Forall_app. split; [done|]. constructor; [|constructor]. lia.
Qed.

Lemma scanned_better pre t bi bs fc :
  considered rule t = true -> score t < perfect ->
  (fc = true -> bs < score t) ->
  scanned' pre bi bs fc -> scanned' (pre ++ [t]) (length pre) (score t) true.
Proof.
  intros Hc Hp Hbs [Hlt Hbest]. split.
  - apply Forall_app. split; [done|]. by constructor.
  - exists pre, t, []. split; [done|]. split; [done|]. split; [done|].
    split; [done|]. split; [|constructor].
    destruct fc.
    + destruct Hbest as (p1 & tb & p2 & -> & -> & Hcb & Hs & H1 & H2).
      specialize (Hbs eq_refl).
      apply Forall_app. split; [|constructor].
      * eapply Forall_impl; [exact H1|]. simpl. intros x Hx Hcx.
        specialize (Hx Hcx). lia.
      * intros _. lia.
      * eapply Forall_impl; [exact H2|]. simpl. intros x Hx Hcx.
        specialize (Hx Hcx). lia.
    + eapply Forall_impl; [exact Hbest|]. simpl. intros x Hx Hcx. congruence.
Qed.

Lemma getVideoTextTrack_loop_first_best rest :
  forall pre bi bs fc,
    bounded rule overrideKey rest ->
    scanned' pre bi bs fc ->
    first_best rule overrideKey (pre ++ rest)
      (getVideoTextTrack_loop rule overrideKey rest (length pre) bi bs fc).
Proof.
  induction rest as [|t rest IH]; intros pre bi bs fc Hb Hs.
  - simpl. rewrite app_nil_r. destruct Hs as [_ Hbest].
    destruct fc; simpl.
    + destruct Hbest as (p1 & tb & p2 & -> & -> & Hcb & _ & H1 & H2).
      by exists p1, tb, p2.
    + done.
  - apply Forall_cons in Hb as [Hbt Hb]. simpl.
    assert (Hstep : forall bi' bs' fc',
               scanned' (pre ++ [t]) bi' bs' fc' ->
               first_best rule overrideKey (pre ++ t :: rest)
                 (getVideoTextTrack_loop rule overrideKey rest
                    (S (length pre)) bi' bs' fc')).
    { intros bi' bs' fc' Hs'.
      specialize (IH (pre ++ [t]) bi' bs' fc' Hb Hs').
      rewrite length_app, <- app_assoc in IH. simpl in IH.
      by replace (length pre + 1)%nat with (S (length pre)) in IH by lia. }
    destruct (considered rule t) eqn:Hc.
    + specialize (Hbt eq_refl).
      destruct (score t =? perfect) eqn:Hperf.
      * apply Z.eqb_eq in Hperf. simpl.
        exists pre, t, rest. repeat split; try done.
        -- destruct Hs as [Hlt _]. eapply Forall_impl; [exact Hlt|].
           simpl. intros x Hx Hcx. specialize (Hx Hcx). lia.
        -- eapply Forall_impl; [exact Hb|].
           simpl. intros x Hx Hcx. specialize (Hx Hcx). lia.
      * apply Z.eqb_neq in Hperf.
        destruct (bs <? score t) eqn:Hlt; simpl.
        -- apply Z.ltb_lt in Hlt. apply Hstep.
           eapply scanned_better; eauto. lia.
        -- apply Z.ltb_ge in Hlt. destruct fc; simpl.
           ++ apply Hstep. apply scanned_keep; [lia|lia|done].
           ++ apply Hstep. eapply scanned_better; eauto; [lia|congruence].
    + apply Hstep. by apply scanned_skip.
Qed.

(** A rule that names a kind fixes the perfect score as an upper bound. *)
Lemma score_le_perfect t :
  JS.truthy_str (videoCueKind rule) = true -> score t <= perfect.
Proof.
  intros Hk. unfold currentScore, perfectScore, override_matches, override_set.
  rewrite Hk.
  destruct overrideKey as [k|];
    repeat match goal with
      | |- context [if ?b then _ else _] => destruct b eqn:?
      end; simpl in *; try lia; try discriminate.
Qed.

Lemma bounded_of_kind tracks :
  JS.truthy_str (videoCueKind rule) = true -> bounded rule overrideKey tracks.
Proof.
  intros Hk. apply Forall_forall. intros t _ _. by apply score_le_perfect.
Qed.


(** A track that is not considered is never the one returned. *)
Lemma first_best_considered tracks i t :
  first_best rule overrideKey tracks (Some i) ->
  tracks !! i = Some t -> considered rule t = true.
Proof.
  intros (pre & t0 & post & -> & -> & Hc & _) Hi.
  rewrite lookup_app_r, Nat.sub_diag in Hi by lia. simpl in Hi. congruence.
Qed.

Lemma currentScore_nonneg t : 0 <= score t.
Proof.
  unfold currentScore.
  repeat match goal with
    | |- context [if ?b then _ else _] => destruct b
    end; lia.
Qed.

(** When no considered track scores above zero, the first best track is
    the first considered one. *)
Lemma first_best_fallback tracks r :
  Forall (fun t => considered rule t = true -> score t <= 0) tracks ->
  first_best rule overrideKey tracks r ->
  r = fst <$> list_find (fun t => considered rule t = true) tracks.
Proof.
  intros Hzero Hr. destruct r as [i|]; simpl in Hr.
  - destruct Hr as (pre & t & post & -> & -> & Hc & Hpre & _).
    assert (list_find (fun t => considered rule t = true) (pre ++ t :: post)
            = Some (length pre, t)) as ->; [|done].
    apply list_find_Some. split; [|split; [done|]].
    + rewrite lookup_app_r, Nat.sub_diag by lia. done.
    + intros j y Hj Hlt Hcy.
      rewrite lookup_app_l in Hj by done.
      rewrite Forall_lookup in Hpre. specialize (Hpre j y Hj Hcy).
      rewrite Forall_forall in Hzero.
      assert (score t <= 0) as Ht
        by (apply Hzero; [apply elem_of_app; right; left|done]).
      pose proof (currentScore_nonneg y). lia.
  - assert (list_find (fun t => considered rule t = true) tracks = None) as ->;
      [|done].
    apply list_find_None. eapply Forall_impl; [exact Hr|].
    simpl. intros x Hx. congruence.
Qed.

(** The perfect score bounds every score that is at most zero. *)
Lemma bounded_of_zero tracks :
  Forall (fun t => considered rule t = true -> score t <= 0) tracks ->
  bounded rule overrideKey tracks.
Proof.
  intros Hzero. eapply Forall_impl; [exact Hzero|]. simpl. intros t Ht Hc.
  specialize (Ht Hc). unfold perfectScore.
  repeat match goal with
    | |- context [if ?b then _ else _] => destruct b
    end; lia.
Qed.

End TrackSelection.




(** The fallback holds for every rule: when no considered track scores
    above zero, the first considered track is returned. *)
Lemma getVideoTextTrack_fallback tracks rule overrideKey :
  Forall (fun t => considered rule t = true ->
                   currentScore rule overrideKey t <= 0) tracks ->
  getVideoTextTrack tracks rule overrideKey
  = fst <$> list_find (fun t => considered rule t = true) tracks.
Proof.
  intros Hzero. apply (first_best_fallback rule overrideKey); [done|].
  apply (getVideoTextTrack_loop_first_best rule overrideKey tracks [] 0%nat 0 false).
  - by apply bounded_of_zero.
  - split; constructor.
Qed.

(** The default-kind point is missing from the perfect score of a rule
    that names no kind: [showing_metadata] scores 0, the perfect score of
    the rule, and is returned before [showing_captions], which scores 1. *)
Example getVideoTextTrack_default_kind :
  getVideoTextTrack [showing_metadata; showing_captions] plain_cue_rule None
  = Some 0%nat
  /\ perfectScore plain_cue_rule None = 0
  /\ currentScore plain_cue_rule None showing_metadata = 0
  /\ currentScore plain_cue_rule None showing_captions = 1.
Proof. vm_compute. repeat split. Qed.

(** ** Cue classification *)

Section ProcessCuesFacts.

Variable replaceTextResult : string -> ReplaceTextResult.
Variable rule : AudioRule.

Lemma classifyCue_filtered cue :
  is_Some (filtered (classifyCue replaceTextResult rule cue)).
Proof. unfold classifyCue. destruct (res_modified _); simpl; eauto. Qed.

Lemma classifyCue_texts cue :
  originalText (classifyCue replaceTextResult rule cue) = Some (text cue)
  /\ filteredText (classifyCue replaceTextResult rule cue)
     = Some (res_filtered (replaceTextResult (text cue))).
Proof.
  unfold classifyCue, shiftCue.
  destruct (JS.truthy_num (videoCueSync rule)); simpl;
    destruct (res_modified _); simpl; done.
Qed.

Lemma processCue_skips st ref :
  classified st ref -> processCue replaceTextResult rule st ref = st.
Proof.
  unfold classified, processCue.
  destruct (cue_objects st !! ref) as [cue|]; [|done].
  intros [b Hb]. by rewrite Hb.
Qed.

Lemma processCue_classifies st ref :
  classified (processCue replaceTextResult rule st ref) ref.
Proof.
  unfold classified, processCue.
  destruct (cue_objects st !! ref) as [cue|] eqn:Hcue.
  - destruct (filtered cue) eqn:Hf; simpl.
    + rewrite Hcue, Hf. eauto.
    + rewrite lookup_insert_eq. apply classifyCue_filtered.
  - by rewrite Hcue.
Qed.

(** A classified cue is left as it is by a turn of the loop, whichever
    cue the turn is about. *)
Lemma processCue_keeps st ref ref' cue :
  cue_objects st !! ref' = Some cue -> is_Some (filtered cue) ->
  cue_objects (processCue replaceTextResult rule st ref) !! ref' = Some cue.
Proof.
  intros Hcue [b Hb]. unfold processCue.
  destruct (cue_objects st !! ref) as [c|] eqn:Hc; [|done].
  destruct (filtered c) eqn:Hf; [done|]. simpl.
  destruct (decide (ref = ref')) as [->|Hne].
  - congruence.
  - by rewrite lookup_insert_ne.
Qed.

Lemma processCue_classified_mono st ref ref' :
  classified st ref' -> classified (processCue replaceTextResult rule st ref) ref'.
Proof.
  intros H. destruct (decide (ref = ref')) as [->|Hne].
  - apply processCue_classifies.
  - unfold classified in *. unfold processCue.
    destruct (cue_objects st !! ref) as [c|] eqn:Hc; [|done].
    destruct (filtered c); [done|]. simpl. by rewrite lookup_insert_ne.
Qed.

Lemma processCues_keeps cues : forall st ref cue,
  cue_objects st !! ref = Some cue -> is_Some (filtered cue) ->
  cue_objects (processCues replaceTextResult cues rule st) !! ref = Some cue.
Proof.
  unfold processCues.
  induction cues as [|r cues IH]; intros st ref cue Hcue Hf; simpl; [done|].
  apply IH; [|done]. by apply processCue_keeps.
Qed.

Lemma processCues_classified_mono cues : forall st ref,
  classified st ref -> classified (processCues replaceTextResult cues rule st) ref.
Proof.
  unfold processCues.
  induction cues as [|r cues IH]; intros st ref H; simpl; [done|].
  apply IH. by apply processCue_classified_mono.
Qed.

Lemma processCues_classifies cues : forall st,
  Forall (classified (processCues replaceTextResult cues rule st)) cues.
Proof.
  induction cues as [|r cues IH]; intros st; [constructor|].
  constructor.
  - change (processCues replaceTextResult (r :: cues) rule st)
      with (processCues replaceTextResult cues rule
              (processCue replaceTextResult rule st r)).
    apply processCues_classified_mono, processCue_classifies.
  - apply IH.
Qed.

Lemma processCues_skips cues : forall st,
  Forall (classified st) cues -> processCues replaceTextResult cues rule st = st.
Proof.
  unfold processCues.
  induction cues as [|r cues IH]; intros st H; simpl; [done|].
  apply Forall_cons in H as [Hr H]. rewrite processCue_skips by done. by apply IH.
Qed.

Lemma classifyCue_flag cue :
  filtered (classifyCue replaceTextResult rule cue)
  = Some (res_modified (replaceTextResult (text cue))).
Proof.
  unfold classifyCue, shiftCue.
  destruct (JS.truthy_num (videoCueSync rule)); simpl;
    destruct (res_modified _); simpl; done.
Qed.

Lemma classifyCue_text cue :
  text (classifyCue replaceTextResult rule cue)
  = if res_modified (replaceTextResult (text cue))
         && (JS.truthy_bool (filterSubtitles rule)
             && negb (JS.truthy_bool (apfCaptions rule)))
    then res_filtered (replaceTextResult (text cue)) else text cue.
Proof.
  unfold classifyCue, shiftCue.
  destruct (JS.truthy_num (videoCueSync rule)); simpl;
    destruct (res_modified _); simpl; done.
Qed.

(** A turn of the loop writes to the cue it is about and to no other. *)
Lemma processCue_other st ref ref' :
  ref <> ref' ->
  cue_objects (processCue replaceTextResult rule st ref) !! ref'
  = cue_objects st !! ref'.
Proof.
  intros Hne. unfold processCue.
  destruct (cue_objects st !! ref) as [c|]; [|done].
  destruct (filtered c); [done|]. simpl. by rewrite lookup_insert_ne.
Qed.

Lemma processCue_here st ref cue :
  cue_objects st !! ref = Some cue -> filtered cue = None ->
  cue_objects (processCue replaceTextResult rule st ref) !! ref
  = Some (classifyCue replaceTextResult rule cue).
Proof.
  intros Hcue Hf. unfold processCue. rewrite Hcue, Hf. simpl.
  apply lookup_insert_eq.
Qed.

(** A listed cue without the own property [filtered] is classified from
    what it was before the call, wherever and however often it is
    listed. *)
Lemma processCues_listed cues : forall st ref cue,
  ref ∈ cues -> cue_objects st !! ref = Some cue -> filtered cue = None ->
  cue_objects (processCues replaceTextResult cues rule st) !! ref
  = Some (classifyCue replaceTextResult rule cue).
Proof.
  induction cues as [|r cues IH]; intros st ref cue Hin Hcue Hf.
  - by apply elem_of_nil in Hin.
  - change (processCues replaceTextResult (r :: cues) rule st)
      with (processCues replaceTextResult cues rule
              (processCue replaceTextResult rule st r)).
    destruct (decide (r = ref)) as [->|Hne].
    + apply processCues_keeps.
      * by apply processCue_here.
      * apply classifyCue_filtered.
    + apply elem_of_cons in Hin as [->|Hin]; [done|].
      apply IH; [done| |done]. by rewrite processCue_other.
Qed.

Lemma processCues_unlisted cues : forall st ref,
  ref ∉ cues ->
  cue_objects (processCues replaceTextResult cues rule st) !! ref
  = cue_objects st !! ref.
Proof.
  unfold processCues.
  induction cues as [|r cues IH]; intros st ref Hnin; simpl; [done|].
  apply not_elem_of_cons in Hnin as [Hne Hnin].
  rewrite IH by done. by apply processCue_other.
Qed.

End ProcessCuesFacts.

(** A run over two references to one unclassified cue and one to a
    classified cue: the filter is called once, the first cue is
    classified and rewritten, the second is left as it was. *)
Example processCues_sample :
  let st' := processCues sample_replace [0; 0; 1]%nat
               (set_filterSubtitles (Some true) plain_cue_rule) sample_store in
  filter_calls st' = ["damn"]
  /\ cue_objects st' !! 0%nat
     = Some (mkCue 0 1000 "****" None None None (Some true) (Some "****") (Some "damn"))
  /\ cue_objects st' !! 1%nat = cue_objects sample_store !! 1%nat.
Proof. vm_compute. repeat split. Qed.

(** C6.  [processCues] writes [originalText], [filteredText] and
    [filtered] only on cues without the own property [filtered].  A
    listed cue without it receives the text it had as [originalText], the
    word filter's text as [filteredText] and the filter's verdict as
    [filtered], and its text is replaced by the filtered one only when
    the verdict is positive and the rule filters subtitles without
    synthetic captions.  A cue that has the property, and a cue that is
    not listed, is left as it is; every listed cue has the property
    afterwards, and a second run over the same list changes neither a cue
    nor the record of filter calls. *)
Theorem processCues_idempotent
    (replaceTextResult : string -> ReplaceTextResult)
    (cues : list nat) (rule : AudioRule) (st : CueStore) :
  let st' := processCues replaceTextResult cues rule st in
  processCues replaceTextResult cues rule st' = st'
  /\ (forall ref cue,
        cue_objects st !! ref = Some cue -> is_Some (filtered cue) ->
        cue_objects st' !! ref = Some cue)
  /\ (forall ref cue,
        ref ∈ cues -> cue_objects st' !! ref = Some cue -> is_Some (filtered cue))
  /\ (forall ref cue,
        ref ∈ cues -> cue_objects st !! ref = Some cue -> filtered cue = None ->
        exists cue',
          cue_objects st' !! ref = Some cue'
          /\ originalText cue' = Some (text cue)
          /\ filteredText cue' = Some (res_filtered (replaceTextResult (text cue)))
          /\ filtered cue' = Some (res_modified (replaceTextResult (text cue)))
          /\ text cue'
             = (if res_modified (replaceTextResult (text cue))
                   && (JS.truthy_bool (filterSubtitles rule)
                       && negb (JS.truthy_bool (apfCaptions rule)))
                then res_filtered (replaceTextResult (text cue)) else text cue))
  /\ (forall ref, ref ∉ cues -> cue_objects st' !! ref = cue_objects st !! ref).
Proof.
  intros st'. split; [|split; [|split; [|split]]].
  - apply processCues_skips, processCues_classifies.
  - apply processCues_keeps.
  - intros ref cue Hin Hcue.
    pose proof (processCues_classifies replaceTextResult rule cues st) as Hall.
    rewrite Forall_forall in Hall. specialize (Hall ref Hin).
    unfold classified in Hall. fold st' in Hall. by rewrite Hcue in Hall.
  - intros ref cue Hin Hcue Hf.
    exists (classifyCue replaceTextResult rule cue).
    destruct (classifyCue_texts replaceTextResult rule cue) as [Ho Hft].
    split; [by apply processCues_listed|].
    split; [exact Ho|]. split; [exact Hft|].
    split; [apply classifyCue_flag|apply classifyCue_text].
  - intros ref Hnin. by apply processCues_unlisted.
Qed.

(** ** Mute controller *)

Section MuteFacts.

Variable filter : Filter.
Variable getElement : option string -> option nat.

Local Abbreviation mute' := (mute filter getElement).
Local Abbreviation unmute' := (unmute getElement).
Local Abbreviation muteBlock' := (muteBlock filter getElement).
Local Abbreviation muteEffector' := (muteEffector getElement).

Ltac effector_cases :=
  unfold muteEffector, playFillerAudio, update_video, emit;
  repeat case_match; simpl; try done.

Lemma muteEffector_muted rule video s :
  muted (muteEffector' rule video s) = muted s.
Proof. effector_cases. Qed.

Lemma muteEffector_unmuteTimeout rule video s :
  unmuteTimeout (muteEffector' rule video s) = unmuteTimeout s.
Proof. effector_cases. Qed.

Lemma muteEffector_timers rule video s :
  timers (muteEffector' rule video s) = timers s.
Proof. effector_cases. Qed.

Lemma muteEffector_stats rule video s :
  stats_mutes (muteEffector' rule video s) = stats_mutes s.
Proof. effector_cases. Qed.

Lemma muteEffector_trace rule video s :
  trace (muteEffector' rule video s) = trace s ++ effector_messages rule.
Proof.
  unfold effector_messages. effector_cases; by rewrite app_nil_r.
Qed.

Lemma muteBlock_muted rule video s : muted (muteBlock' rule video s) = true.
Proof.
  unfold muteBlock, emit. simpl. rewrite muteEffector_muted.
  by destruct (collectStats filter).
Qed.

Lemma muteBlock_unmuteTimeout rule video s :
  unmuteTimeout (muteBlock' rule video s) = unmuteTimeout s.
Proof.
  unfold muteBlock, emit. simpl. rewrite muteEffector_unmuteTimeout.
  by destruct (collectStats filter).
Qed.

Lemma muteBlock_timers rule video s :
  timers (muteBlock' rule video s) = timers s.
Proof.
  unfold muteBlock, emit. simpl. rewrite muteEffector_timers.
  by destruct (collectStats filter).
Qed.

Lemma muteBlock_stats rule video s :
  stats_mutes (muteBlock' rule video s)
  = stats_mutes s + (if collectStats filter then 1 else 0).
Proof.
  unfold muteBlock, emit. simpl. rewrite muteEffector_stats.
  destruct (collectStats filter); simpl; lia.
Qed.

Lemma muteBlock_trace rule video s :
  trace (muteBlock' rule video s)
  = trace s ++ effector_messages rule ++ [DebugTime "mute()"].
Proof.
  unfold muteBlock, emit. simpl. rewrite muteEffector_trace.
  destruct (collectStats filter); simpl; by rewrite <- app_assoc.
Qed.

Lemma mute_unfold rule video s :
  mute' rule video s
  = cancelPendingUnmute rule (if muted s then s else muteBlock' rule video s).
Proof. unfold mute. by destruct (muted s). Qed.

Lemma cancelPendingUnmute_muted rule s :
  muted (cancelPendingUnmute rule s) = muted s.
Proof.
  unfold cancelPendingUnmute, clearUnmuteTimeout, clearTimeout.
  repeat case_match; done.
Qed.

Lemma cancelPendingUnmute_stats rule s :
  stats_mutes (cancelPendingUnmute rule s) = stats_mutes s.
Proof.
  unfold cancelPendingUnmute, clearUnmuteTimeout, clearTimeout.
  repeat case_match; done.
Qed.

Lemma cancelPendingUnmute_trace rule s :
  trace (cancelPendingUnmute rule s) = trace s.
Proof.
  unfold cancelPendingUnmute, clearUnmuteTimeout, clearTimeout.
  repeat case_match; done.
Qed.

(** After [cancelPendingUnmute] nothing is left for it to cancel. *)
Lemma cancelPendingUnmute_done rule s :
  JS.truthy_num (unmuteDelay rule)
    && bool_decide (is_Some (unmuteTimeout (cancelPendingUnmute rule s))) = false.
Proof.
  unfold cancelPendingUnmute, clearUnmuteTimeout.
  destruct (JS.truthy_num (unmuteDelay rule)) eqn:Hd; [|done].
  destruct (unmuteTimeout s) as [h|] eqn:Hh; simpl; [done|].
  by rewrite Hh.
Qed.

Lemma mute_muted rule video s : muted (mute' rule video s) = true.
Proof.
  rewrite mute_unfold, cancelPendingUnmute_muted.
  destruct (muted s) eqn:Hm; [done|apply muteBlock_muted].
Qed.

(** A call of [mute] on the state an earlier call left changes nothing. *)
Lemma mute_idempotent rule video s :
  mute' rule video (mute' rule video s) = mute' rule video s.
Proof.
  rewrite (mute_unfold rule video (mute' rule video s)), mute_muted.
  rewrite mute_unfold. unfold cancelPendingUnmute at 1.
  by rewrite cancelPendingUnmute_done.
Qed.

(** [mute] with a remembered handle and a truthy delay cancels the timer. *)
Lemma mute_cancels_pending rule video s handle :
  JS.truthy_num (unmuteDelay rule) = true ->
  unmuteTimeout s = Some handle ->
  timers (mute' rule video s) !! handle = None
  /\ unmuteTimeout (mute' rule video s) = None.
Proof.
  intros Hd Hh. rewrite mute_unfold.
  set (s1 := if muted s then s else muteBlock' rule video s).
  assert (unmuteTimeout s1 = Some handle) as Hh1.
  { unfold s1. destruct (muted s); [done|]. by rewrite muteBlock_unmuteTimeout. }
  unfold cancelPendingUnmute, clearUnmuteTimeout, clearTimeout.
  rewrite Hd, Hh1. simpl.
  split; [apply lookup_delete_eq|done].
Qed.

(** A request to unmute with a delay arms a timer under the next handle
    and leaves [muted] and every timer already pending as they are. *)
Lemma unmute_schedules rule video s :
  muted s = true -> unmuteDelay_ge0 rule = true ->
  let s' := unmute' rule video false s in
  muted s' = true
  /\ unmuteTimeout s' = Some (next_handle s)
  /\ timers s'
     = <[next_handle s := mkTask (default 0 (unmuteDelay rule)) rule]> (timers s).
Proof.
  intros Hm Hd. unfold unmute. rewrite Hm, Hd. simpl.
  unfold scheduleUnmute, clearUnmuteTimeout.
  destruct (unmuteTimeout s) as [h|] eqn:Hh; simpl; by rewrite ?Hh, ?Hm.
Qed.

(** An engine that is not muted ignores a request to unmute. *)
Lemma unmute_unmuted rule video delayed s :
  muted s = false -> unmute' rule video delayed s = s.
Proof. intros Hm. unfold unmute. by rewrite Hm. Qed.

End MuteFacts.

(** C1.  Two requests to unmute in a row, for a rule with a delay of
    500 ms, on a muted engine: the first arms one timer and leaves
    [muted]; the second arms another without cancelling the first
    ([clearUnmuteTimeout] is guarded by [this.unmuteTimeout == null]), so
    two timers are outstanding, the engine remembers the later handle
    only, and the expiry of the earlier one clears the mute. *)
Theorem unmute_twice_stacks_timers :
  let s1 := unmute no_element delayed_rule None false muted_engine in
  let s2 := unmute no_element delayed_rule None false s1 in
  (muted s1 = true /\ unmuteTimeout s1 = Some 1%positive /\ size (timers s1) = 1%nat)
  /\ (muted s2 = true /\ unmuteTimeout s2 = Some 2%positive
      /\ size (timers s2) = 2%nat
      /\ timers s2 !! 1%positive = Some (mkTask 500 delayed_rule)
      /\ timers s2 !! 2%positive = Some (mkTask 500 delayed_rule))
  /\ muted (fire no_element 1%positive s2) = false.
Proof. vm_compute. repeat split. Qed.

(** The same for every engine: a timer pending under the remembered
    handle is still pending after the next request to unmute. *)
Lemma unmute_keeps_pending_timer getElement rule video s handle task :
  muted s = true -> unmuteDelay_ge0 rule = true ->
  unmuteTimeout s = Some handle -> timers s !! handle = Some task ->
  handle <> next_handle s ->
  let s' := unmute getElement rule video false s in
  timers s' !! handle = Some task
  /\ timers s' !! next_handle s = Some (mkTask (default 0 (unmuteDelay rule)) rule)
  /\ unmuteTimeout s' = Some (next_handle s).
Proof.
  intros Hm Hd Hh Ht Hne s'.
  destruct (unmute_schedules getElement rule video s Hm Hd) as (_ & Hh' & Ht').
  fold s' in Hh', Ht'. rewrite Ht'. split; [|split; [|done]].
  - by rewrite lookup_insert_ne.
  - by rewrite lookup_insert_eq.
Qed.

(** C3.  A request to unmute for a rule with a delay of 0 ms arms a
    timer; the request to mute that follows does not cancel it (the
    guards read the delay as a truth value), and its expiry clears the
    mute. *)
Theorem mute_keeps_zero_delay_timer :
  let s1 := unmute no_element zero_delay_rule None false muted_engine in
  let s2 := mute sample_filter no_element zero_delay_rule None s1 in
  timers s1 !! 1%positive = Some (mkTask 0 zero_delay_rule)
  /\ timers s2 !! 1%positive = Some (mkTask 0 zero_delay_rule)
  /\ unmuteTimeout s2 = Some 1%positive
  /\ muted s2 = true
  /\ muted (fire no_element 1%positive s2) = false.
Proof. vm_compute. repeat split. Qed.

(** With a delay other than 0 the remembered timer is cancelled and its
    expiry finds nothing to run. *)
Lemma mute_cancels_delayed_unmute filter getElement rule video s handle :
  JS.truthy_num (unmuteDelay rule) = true ->
  unmuteTimeout s = Some handle ->
  let s' := mute filter getElement rule video s in
  timers s' !! handle = None /\ fire getElement handle s' = s' /\ muted s' = true.
Proof.
  intros Hd Hh s'.
  destruct (mute_cancels_pending filter getElement rule video s handle Hd Hh)
    as [Ht _].
  fold s' in Ht. split; [done|]. split.
  - unfold fire. by rewrite Ht.
  - apply mute_muted.
Qed.

(** Only the remembered handle is cancelled: of the two timers stacked
    by two requests to unmute, the earlier one outlives the request to
    mute, and its expiry clears the mute. *)
Example mute_misses_stacked_timer :
  let s2 := unmute no_element delayed_rule None false
              (unmute no_element delayed_rule None false muted_engine) in
  let s3 := mute sample_filter no_element delayed_rule None s2 in
  timers s3 !! 2%positive = None
  /\ timers s3 !! 1%positive = Some (mkTask 500 delayed_rule)
  /\ muted (fire no_element 1%positive s3) = false.
Proof. vm_compute. repeat split. Qed.

(** C7, as stated, fails on an engine that is muted already: neither call
    sends the message or counts a mute. *)
Lemma mute_twice_counterexample : ~ mute_twice_as_stated.
Proof.
  intros H.
  destruct (H sample_filter no_element delayed_rule None muted_engine)
    as (_ & Hstats & _).
  vm_compute in Hstats. discriminate Hstats.
Qed.

(** C7, amended.  On an engine that is not muted, two calls of [mute] in
    a row run the mute side effect once: the effector of the rule's mute
    method and, when statistics are collected, one count.  The second
    call changes nothing, and [muted] holds after each call. *)
Theorem mute_twice_once filter getElement rule video s :
  muted s = false ->
  let s1 := mute filter getElement rule video s in
  let s2 := mute filter getElement rule video s1 in
  s2 = s1
  /\ s1 = cancelPendingUnmute rule (muteBlock filter getElement rule video s)
  /\ muted s1 = true /\ muted s2 = true
  /\ stats_mutes s2 = stats_mutes s + (if collectStats filter then 1 else 0)
  /\ trace s2 = trace s ++ effector_messages rule ++ [DebugTime "mute()"].
Proof.
  intros Hm s1 s2.
  assert (s2 = s1) as H21 by apply mute_idempotent.
  assert (s1 = cancelPendingUnmute rule (muteBlock filter getElement rule video s))
    as H1.
  { unfold s1. by rewrite mute_unfold, Hm. }
  split; [done|]. split; [done|]. rewrite H21.
  split; [apply mute_muted|]. split; [apply mute_muted|].
  rewrite H1, cancelPendingUnmute_stats, cancelPendingUnmute_trace.
  split; [apply muteBlock_stats|apply muteBlock_trace].
Qed.

Lemma mute_twice_once_witness :
  muted unmuted_engine = false
  /\ let s2 := mute sample_filter no_element delayed_rule None
                 (mute sample_filter no_element delayed_rule None unmuted_engine) in
     stats_mutes s2 = 1 /\ trace s2 = [SendMute true; DebugTime "mute()"].
Proof.
  split; [reflexivity|].
  destruct (mute_twice_once sample_filter no_element delayed_rule None
              unmuted_engine eq_refl) as (_ & _ & _ & _ & Hstats & Htrace).
  split; [exact Hstats|exact Htrace].
Defined.
(** ** Rule initialiser *)

Section InitFacts.

Variable filter : Filter.

Lemma mode_is_true rule m : mode_is rule m = true <-> mode rule = Some m.
Proof. unfold mode_is, JS.opt_str_eqb. apply bool_decide_eq_true. Qed.

Lemma inapplicable_true rule :
  inapplicable filter rule = true <-> not_applicable filter rule.
Proof.
  unfold inapplicable, not_applicable.
  rewrite !orb_true_iff, !andb_true_iff, !orb_true_iff, !negb_true_iff,
    !mode_is_true, !bool_decide_eq_true.
  tauto.
Qed.

Lemma inapplicable_set_disabled v rule :
  inapplicable filter (set_disabled v rule) = inapplicable filter rule.
Proof. reflexivity. Qed.

Ltac defaults_cases :=
  unfold ruleDefaults, initDisplaySelector; repeat case_match; reflexivity.

Lemma ruleDefaults_mode rule : mode (ruleDefaults filter rule) = mode rule.
Proof. defaults_cases. Qed.

Lemma ruleDefaults_disabled rule :
  disabled (ruleDefaults filter rule) = disabled rule.
Proof. defaults_cases. Qed.

Lemma ruleDefaults_dynamicTargetMode rule :
  dynamicTargetMode (ruleDefaults filter rule) = dynamicTargetMode rule.
Proof. defaults_cases. Qed.

(** [initByMode] appends nothing to the array of enabled rules. *)
Lemma initByMode_enabledRuleIds ruleId rule s :
  enabledRuleIds (initByMode filter ruleId rule s).2 = enabledRuleIds s.
Proof. unfold initByMode. repeat case_match; reflexivity. Qed.

Lemma initByMode_rules ruleId rule s :
  rules (initByMode filter ruleId rule s).2 = rules s.
Proof. unfold initByMode. repeat case_match; reflexivity. Qed.

(** [enableRule] appends at most the rule's own id, and only for a rule
    that is not disabled. *)
Lemma enableRule_enabledRuleIds ruleId rule s :
  enabledRuleIds (enableRule ruleId rule s)
  = if JS.truthy_bool (disabled rule) then enabledRuleIds s
    else enabledRuleIds s ++ [ruleId].
Proof. unfold enableRule, emit. repeat case_match; reflexivity. Qed.

Lemma enableRule_rules ruleId rule s :
  rules (enableRule ruleId rule s) = rules s.
Proof. unfold enableRule, emit. repeat case_match; reflexivity. Qed.

(** [initRule] writes to the rule it is given and to no other. *)
Lemma initRule_other_rule ruleId i s :
  ruleId <> i -> rules (initRule filter ruleId s) !! i = rules s !! i.
Proof.
  intros Hne. unfold initRule.
  destruct (rules s !! ruleId) as [rule|]; [|done].
  case_match.
  - simpl. by rewrite list_lookup_insert_ne.
  - destruct (initByMode _ _ _) as [rule' s'] eqn:Hby.
    rewrite enableRule_rules. simpl.
    pose proof (initByMode_rules ruleId
                  (ruleDefaults filter
                     (if inapplicable filter rule
                      then set_disabled (Some true) rule else rule)) s) as Hr.
    rewrite Hby in Hr. simpl in Hr. rewrite Hr.
    by rewrite list_lookup_insert_ne.
Qed.

Lemma initRule_enabled_subset ruleId id s :
  id ∈ enabledRuleIds (initRule filter ruleId s) ->
  id ∈ enabledRuleIds s \/ id = ruleId.
Proof.
  unfold initRule.
  destruct (rules s !! ruleId) as [rule|]; [|by left].
  case_match.
  - by left.
  - destruct (initByMode _ _ _) as [rule' s'] eqn:Hby.
    rewrite enableRule_enabledRuleIds. simpl.
    pose proof (initByMode_enabledRuleIds ruleId
                  (ruleDefaults filter
                     (if inapplicable filter rule
                      then set_disabled (Some true) rule else rule)) s) as He.
    rewrite Hby in He. simpl in He. rewrite He.
    destruct (JS.truthy_bool (disabled rule')); [by left|].
    intros [Hin|Hin]%elem_of_app; [by left|].
    right. by apply list_elem_of_singleton in Hin.
Qed.

(** The first guard of [initRule]: the rule is disabled, stored, and
    nothing is indexed. *)
Lemma initRule_inapplicable ruleId rule s :
  rules s !! ruleId = Some rule ->
  inapplicable filter rule = true ->
  initRule filter ruleId s
  = emit (LogInfo "Audio rule disabled" (Some ruleId))
      (store_rule ruleId (set_disabled (Some true) rule) s).
Proof. intros Hr Hi. unfold initRule. by rewrite Hr, Hi. Qed.

End InitFacts.

(** C9.  A rule without a mode, an element or elementChild rule without
    a tag name, and a rule whose [iframe] requirement does not match the
    page, is disabled by [initRule], and its id is added to none of the
    index arrays: it is outside the enabled rules after the call if it
    was before. *)
Theorem initRule_disables_inapplicable filter ruleId rule s :
  rules s !! ruleId = Some rule ->
  not_applicable filter rule ->
  let s' := initRule filter ruleId s in
  (disabled <$> rules s' !! ruleId) = Some (Some true)
  /\ enabledRuleIds s' = enabledRuleIds s
  /\ cueRuleIds s' = cueRuleIds s
  /\ watcherRuleIds s' = watcherRuleIds s
  /\ apfCaptionRuleIds s' = apfCaptionRuleIds s
  /\ (ruleId ∉ enabledRuleIds s -> ruleId ∉ enabledRuleIds s').
Proof.
  intros Hr Hna s'. apply inapplicable_true in Hna.
  unfold s'. rewrite (initRule_inapplicable filter ruleId rule s Hr Hna).
  simpl. split; [|by repeat split].
  rewrite list_lookup_insert_eq; [done|].
  by apply lookup_lt_Some in Hr.
Qed.

Lemma initRule_disables_inapplicable_witness :
  rules (engine_of [delayed_rule; framed_rule] false) !! 1%nat = Some framed_rule
  /\ not_applicable sample_filter framed_rule
  /\ let s' := initRule sample_filter 1 (engine_of [delayed_rule; framed_rule] false) in
     (disabled <$> rules s' !! 1%nat) = Some (Some true)
     /\ enabledRuleIds s' = [].
Proof.
  assert (Hna : not_applicable sample_filter framed_rule)
    by (right; right; left; split; reflexivity).
  split; [reflexivity|]. split; [exact Hna|].
  destruct (initRule_disables_inapplicable sample_filter 1 framed_rule
              (engine_of [delayed_rule; framed_rule] false) eq_refl Hna)
    as (Hd & He & _).
  split; [exact Hd|exact He].
Defined.

(** The same through the constructor's loop over all rules: a rule that
    does not apply is outside the enabled rules when the loop is done. *)
Lemma initRules_excludes_inapplicable filter s i rule :
  enabledRuleIds s = [] ->
  rules s !! i = Some rule ->
  not_applicable filter rule ->
  i ∉ enabledRuleIds (initRules filter s).
Proof.
  intros He Hr Hna. apply inapplicable_true in Hna. unfold initRules.
  assert (Hinv : (i ∉ enabledRuleIds s)
                 /\ exists r, rules s !! i = Some r /\ inapplicable filter r = true).
  { split; [rewrite He; apply not_elem_of_nil|eauto]. }
  clear He Hr Hna. generalize (seq 0 (length (rules s))). intros js.
  revert s Hinv. induction js as [|j js IH]; intros s [Hout (r & Hr & Hi)]; simpl.
  - done.
  - apply IH. destruct (decide (j = i)) as [->|Hne].
    + rewrite (initRule_inapplicable filter i r s Hr Hi). simpl. split; [done|].
      exists (set_disabled (Some true) r). split; [|done].
      apply list_lookup_insert_eq. by apply lookup_lt_Some in Hr.
    + split.
      * intros [Hin| ->]%initRule_enabled_subset; [done|congruence].
      * exists r. split; [|done]. by rewrite initRule_other_rule.
Qed.

(** C2.  A dynamic rule without a target mode, on a page it applies to:
    [initRule] leaves [disabled] unset and appends the rule's id to the
    enabled rules.  The statement meant to disable it compares instead of
    assigning. *)
Theorem initRule_enables_dynamic :
  let s' := initRule sample_filter 0 (engine_of [dynamic_rule] false) in
  mode dynamic_rule = Some "dynamic"
  /\ dynamicTargetMode dynamic_rule = None
  /\ (disabled <$> rules s' !! 0%nat) = Some None
  /\ enabledRuleIds s' = [0%nat].
Proof. vm_compute. repeat split. Qed.

(** The same for every engine and every dynamic rule without a target
    mode that applies to the page and is not disabled beforehand. *)
Lemma initRule_dynamic_enabled filter ruleId rule s :
  rules s !! ruleId = Some rule ->
  mode rule = Some "dynamic" ->
  inapplicable filter rule = false ->
  JS.truthy_bool (disabled rule) = false ->
  let s' := initRule filter ruleId s in
  enabledRuleIds s' = enabledRuleIds s ++ [ruleId]
  /\ (JS.truthy_bool <$> (disabled <$> rules s' !! ruleId)) = Some false.
Proof.
  intros Hr Hm Hi Hd s'. unfold s', initRule. rewrite Hr, Hi, Hd.
  set (r := ruleDefaults filter rule).
  assert (mode r = Some "dynamic") as Hmr
    by (unfold r; by rewrite ruleDefaults_mode).
  assert (JS.truthy_bool (disabled r) = false) as Hdr
    by (unfold r; by rewrite ruleDefaults_disabled).
  unfold initByMode.
  assert (mode_is r "cue" = false) as -> by (unfold mode_is; by rewrite Hmr).
  assert (mode_is r "dynamic" = true) as -> by (unfold mode_is; by rewrite Hmr).
  assert (disabled (initDynamicRule r) = disabled r) as Hdd
    by (unfold initDynamicRule; by case_match).
  rewrite enableRule_enabledRuleIds, enableRule_rules, Hdd, Hdr. simpl.
  split; [done|].
  rewrite list_lookup_insert_eq by (by apply lookup_lt_Some in Hr).
  simpl. by rewrite Hdd, Hdr.
Qed.

(** ** Node matcher *)

Section MatcherFacts.

Variable filter : Filter.
Variable dom : Dom.
Variable node : nat.
Variable s : WebAudio.

Local Abbreviation quiet' := (quiet dom node s).
Local Abbreviation first_match' := (first_match filter dom node s).

Lemma supportedNode_loop_first_match fuel :
  forall i,
    (length (enabledRuleIds s) - i < fuel)%nat ->
    forallb quiet' (drop i (enabledRuleIds s)) = true ->
    supportedNode_loop filter dom fuel node i s
    = Some (Normal (first_match' (drop i (enabledRuleIds s)))).
Proof.
  induction fuel as [|fuel IH]; intros i Hfuel Hquiet; [lia|].
  simpl. destruct (enabledRuleIds s !! i) as [ruleId|] eqn:Hi.
  - pose proof (lookup_lt_Some _ _ _ Hi) as Hlt.
    rewrite (drop_S _ _ _ Hi) in Hquiet |- *.
    simpl in Hquiet. apply andb_true_iff in Hquiet as [Hq Hrest].
    assert (supportedNode_loop filter dom fuel node (S i) s
            = Some (Normal (first_match' (drop (S i) (enabledRuleIds s)))))
      as Hnext by (apply IH; [lia|done]).
    unfold quiet in Hq. unfold first_match in *. simpl. unfold accepts at 1.
    destruct (rules s !! ruleId) as [rule|]; [|done].
    destruct (mode_is rule "element");
      [destruct (supportedElementNode dom node rule); [done|exact Hnext]|].
    destruct (mode_is rule "elementChild");
      [destruct (supportedElementChildNode dom node rule); [done|exact Hnext]|].
    destruct (mode_is rule "text");
      [destruct (supportedTextNode dom node rule); [done|exact Hnext]|].
    destruct (mode_is rule "watcher");
      [destruct (supportedWatcherNode dom node rule); [done|exact Hnext]|].
    destruct (mode_is rule "dynamic"); [|exact Hnext].
    simpl in Hq. apply negb_true_iff in Hq.
    unfold supportedDynamicNode. rewrite Hq. exact Hnext.
  - apply lookup_ge_None in Hi. by rewrite drop_ge.
Qed.

End MatcherFacts.

Example span_engine_enabled : enabledRuleIds span_engine = [0%nat].
Proof. reflexivity. Qed.

(** When the enabled ids designate rules and the node is no dynamic
    rule's marker, [supportedNode] returns the id of the first enabled
    rule whose mode predicate accepts the node, and [false] when there is
    none.  The id of the rule at position 0 is the number 0, which is as
    falsy as [false]. *)
Lemma supportedNode_first_match filter dom fuel node s :
  (length (enabledRuleIds s) < fuel)%nat ->
  forallb (quiet dom node s) (enabledRuleIds s) = true ->
  supportedNode filter dom fuel node s
  = Some (Normal (first_match filter dom node s (enabledRuleIds s)))
  /\ (first_match filter dom node s (enabledRuleIds s)).1
     = match List.find (accepts dom node s) (enabledRuleIds s) with
       | Some ruleId => RuleId ruleId
       | None => NotSupported
       end
  /\ result_truthy (RuleId 0) = false
  /\ result_truthy NotSupported = false.
Proof.
  intros Hfuel Hquiet. split; [|split; [|done]].
  - unfold supportedNode.
    rewrite (supportedNode_loop_first_match filter dom node s fuel 0%nat);
      [by rewrite drop_0|lia|by rewrite drop_0].
  - unfold first_match. by destruct (List.find _ _).
Qed.

Lemma supportedNode_first_match_witness :
  (length (enabledRuleIds span_engine) < 2)%nat
  /\ forallb (quiet span_dom 7 span_engine) (enabledRuleIds span_engine) = true
  /\ supportedNode sample_filter span_dom 2 7 span_engine
     = Some (Normal (RuleId 0,
                     supportedCaptionsFound sample_filter true false span_engine))
  /\ result_truthy (RuleId 0) = false.
Proof.
  assert (Hfuel : (length (enabledRuleIds span_engine) < 2)%nat)
    by (vm_compute; lia).
  assert (Hquiet : forallb (quiet span_dom 7 span_engine)
                     (enabledRuleIds span_engine) = true) by reflexivity.
  split; [exact Hfuel|]. split; [exact Hquiet|].
  destruct (supportedNode_first_match sample_filter span_dom 2 7 span_engine
              Hfuel Hquiet) as (Hret & _ & Hzero & _).
  split; [|exact Hzero]. rewrite Hret. reflexivity.
Defined.

Example marker_engine_enabled : enabledRuleIds marker_engine = [0; 1]%nat.
Proof. reflexivity. Qed.

(** C10.  On a text node whose text is the marker of an enabled dynamic
    rule, [supportedNode] returns neither a rule id nor [false]: the
    dynamic rule is visited first, [supportedDynamicNode] reads
    [node.tagName.toLowerCase()] of a node without [tagName], and the call
    ends in a [TypeError], although the text rule enabled after it accepts
    the node.  With enough turns or few, the loop never gets to that
    rule. *)
Theorem supportedNode_marker_text_throws fuel :
  enabledRuleIds marker_engine = [0; 1]%nat
  /\ accepts marker_dom 7 marker_engine 0 = false
  /\ accepts marker_dom 7 marker_engine 1 = true
  /\ List.find (accepts marker_dom 7 marker_engine) (enabledRuleIds marker_engine)
     = Some 1%nat
  /\ supportedNode sample_filter marker_dom (S fuel) 7 marker_engine
     = Some (Throw (TypeError "node.tagName")).
Proof. repeat split; reflexivity. Qed.

(** * Further properties *)

(** ** Rule registry *)

Section RegistryFacts.

Variable build : Build.

(** What [removeUnsupportedSites] leaves under a key. *)
Lemma removeUnsupportedSites_lookup sites k :
  removeUnsupportedSites build sites !! k
  = sites !! k ≫= (fun e =>
      match List.filter (targetMatches build) (asArray e) with
      | [] => None
      | l => Some (RuleArray l)
      end).
Proof.
  unfold removeUnsupportedSites.
  destruct (sites !! k) as [e|] eqn:He; simpl.
  - destruct (List.filter (targetMatches build) (asArray e)) as [|r l] eqn:Hf.
    + apply map_lookup_filter_None. right. intros x Hx. simpl.
      rewrite lookup_fmap, He in Hx. simpl in Hx. injection Hx as <-.
      unfold keepSupportedRules, noRules. simpl. by rewrite Hf.
    + apply map_lookup_filter_Some. split.
      * rewrite lookup_fmap, He. simpl. unfold keepSupportedRules. by rewrite Hf.
      * done.
  - apply map_lookup_filter_None. left. by rewrite lookup_fmap, He.
Qed.

Lemma filter_targetMatches_idem l :
  List.filter (targetMatches build) (List.filter (targetMatches build) l)
  = List.filter (targetMatches build) l.
Proof.
  induction l as [|r l IH]; simpl; [done|].
  destruct (targetMatches build r) eqn:Hr; simpl; [|done]. by rewrite Hr, IH.
Qed.

Lemma delete_all_lookup (l : list string) : forall (m : gmap string SiteEntry) k,
  foldl (fun m d => delete d m) m l !! k
  = if bool_decide (k ∈ l) then None else m !! k.
Proof.
  induction l as [|d l IH]; intros m k; simpl; [done|].
  rewrite IH. destruct (decide (k = d)) as [->|Hne].
  - rewrite (bool_decide_eq_true_2 (d ∈ d :: l)) by left.
    case_bool_decide; [done|apply lookup_delete_eq].
  - rewrite lookup_delete_ne by done.
    assert (bool_decide (k ∈ d :: l) = bool_decide (k ∈ l)) as ->; [|done].
    apply bool_decide_ext. rewrite elem_of_cons. split; [by intros [?|?]|by right].
Qed.

End RegistryFacts.

(** X1.  After [removeUnsupportedSites] a key is in the table exactly
    when its site had a rule for the build target (or without target);
    its value is then the array of those rules, in their order, which is
    not empty and holds no other rule. *)
Theorem removeUnsupportedSites_kept build sites k e :
  removeUnsupportedSites build sites !! k = Some e
  <-> exists e0 l,
        sites !! k = Some e0
        /\ l = List.filter (targetMatches build) (asArray e0)
        /\ l <> [] /\ e = RuleArray l
        /\ Forall (fun r => buildTarget r = None
                            \/ buildTarget r = Some (build_target build)) l.
Proof.
  rewrite removeUnsupportedSites_lookup. split.
  - destruct (sites !! k) as [e0|]; simpl; [|done].
    destruct (List.filter _ _) as [|r l] eqn:Hf; [done|].
    intros [= <-]. exists e0, (r :: l). repeat split; try done.
    rewrite <- Hf. apply Forall_forall. intros x Hx.
    apply list_elem_of_In, filter_In in Hx as [_ Hx].
    unfold targetMatches in Hx. destruct (buildTarget x) as [t|]; [|by left].
    right. f_equal. unfold JS.str_eqb in Hx. by apply bool_decide_eq_true in Hx.
  - intros (e0 & l & -> & -> & Hne & -> & _). simpl.
    by destruct (List.filter _ _).
Qed.

(** X2.  [removeUnsupportedSites] applied to its own result changes
    nothing. *)
Theorem removeUnsupportedSites_idempotent build sites :
  removeUnsupportedSites build (removeUnsupportedSites build sites)
  = removeUnsupportedSites build sites.
Proof.
  apply map_eq. intros k.
  rewrite (removeUnsupportedSites_lookup build (removeUnsupportedSites build sites)).
  rewrite removeUnsupportedSites_lookup.
  destruct (sites !! k) as [e|]; simpl; [|done].
  destruct (List.filter (targetMatches build) (asArray e)) as [|r l] eqn:Hf;
    [done|].
  assert (List.filter (targetMatches build) (r :: l) = r :: l) as Hid
    by (rewrite <- Hf; apply filter_targetMatches_idem).
  cbv [mbind option_bind asArray]. by rewrite Hid.
Qed.

(** X3.  In [supportedAndCustomSites] a key of the custom table is
    decided by the custom entry alone: the built-in rules of that site
    are replaced, and a custom entry without a supported rule removes the
    site.  Every other key is as in [supportedSites]. *)
Theorem supportedAndCustomSites_custom_wins build customConfig k :
  supportedAndCustomSites build customConfig !! k
  = match customConfig !! k with
    | Some _ => removeUnsupportedSites build customConfig !! k
    | None => supportedSites build true !! k
    end.
Proof.
  unfold supportedAndCustomSites, assign at 1.
  rewrite removeUnsupportedSites_lookup.
  destruct (customConfig !! k) as [e|] eqn:Hc.
  - rewrite (lookup_union_Some_l _ _ _ e) by done.
    by rewrite removeUnsupportedSites_lookup, Hc.
  - rewrite lookup_union_r by done.
    unfold supportedSites at 2. by rewrite removeUnsupportedSites_lookup.
Qed.

(** X4.  A site the build target's configuration disables is in neither
    form of [supportedSites], whichever table listed it. *)
Theorem supportedSites_disabled build removeUnsupported k :
  k ∈ disabledSites (getBuildTargetConfig build) ->
  supportedSites build removeUnsupported !! k = None.
Proof.
  intros Hk.
  assert (supportedSites build false !! k = None) as Hraw.
  { unfold supportedSites. rewrite delete_all_lookup.
    by rewrite bool_decide_eq_true_2. }
  destruct removeUnsupported; [|done].
  change (supportedSites build true)
    with (removeUnsupportedSites build (supportedSites build false)).
  by rewrite removeUnsupportedSites_lookup, Hraw.
Qed.

Lemma supportedSites_disabled_witness :
  "a.example" ∈ disabledSites (getBuildTargetConfig sample_build)
  /\ supportedSites sample_build true !! "a.example" = None
  /\ is_Some (supportedSites sample_build true !! "c.example").
Proof.
  assert (Hk : "a.example" ∈ disabledSites (getBuildTargetConfig sample_build))
    by (vm_compute; left).
  split; [exact Hk|]. split.
  - exact (supportedSites_disabled sample_build true "a.example" Hk).
  - vm_compute. eauto.
Defined.

(** X5.  When the empty string is no key of the table, the constructor
    finds rules exactly when the table has the page's host name or the
    host name of its frame; the page's own host name has precedence. *)
Theorem siteRules_found sites hostname iframe :
  sites !! "" = None ->
  (siteRules sites hostname iframe = None
   <-> sites !! hostname = None
       /\ forall h, iframe = Some h -> sites !! h = None)
  /\ (is_Some (sites !! hostname) ->
      siteRules sites hostname iframe = sites !! hostname).
Proof.
  intros Hempty. unfold siteRules, getSiteKey. split.
  - destruct (sites !! hostname) as [e|] eqn:Hh.
    + rewrite bool_decide_eq_true_2 by eauto. rewrite Hh. split; [done|].
      by intros [? _].
    + rewrite bool_decide_eq_false_2 by (by intros [? ?]).
      destruct iframe as [h|]; [|by rewrite Hempty].
      destruct h as [|c h].
      * simpl. rewrite Hempty. split; [|done]. intros _. split; [done|].
        by intros ? [= <-].
      * simpl. destruct (sites !! String c h) as [e|] eqn:Hf.
        -- rewrite bool_decide_eq_true_2 by eauto. rewrite Hf.
           split; [done|]. intros [_ H]. specialize (H _ eq_refl). congruence.
        -- rewrite bool_decide_eq_false_2 by (by intros [? ?]). rewrite Hempty.
           split; [|done]. intros _. split; [done|]. by intros ? [= <-].
  - intros Hsome. by rewrite bool_decide_eq_true_2.
Qed.

Lemma siteRules_found_witness :
  builtinSites sample_build !! "" = None
  /\ siteRules (builtinSites sample_build) "c.example" (Some "a.example")
     = builtinSites sample_build !! "c.example".
Proof.
  assert (Hempty : builtinSites sample_build !! "" = None) by reflexivity.
  split; [exact Hempty|].
  destruct (siteRules_found (builtinSites sample_build) "c.example"
              (Some "a.example") Hempty) as [_ Hown].
  apply Hown. vm_compute. eauto.
Defined.

(** ** Rule initialiser: the index arrays *)

Section IndexFacts.

Variable filter : Filter.

(** The two ways through [initRule]. *)
Lemma initRule_skipped ruleId rule s :
  rules s !! ruleId = Some rule ->
  JS.truthy_bool
    (disabled (if inapplicable filter rule
               then set_disabled (Some true) rule else rule)) = true ->
  initRule filter ruleId s
  = emit (LogInfo "Audio rule disabled" (Some ruleId))
      (store_rule ruleId
         (if inapplicable filter rule then set_disabled (Some true) rule else rule) s).
Proof. intros Hr Hd. unfold initRule. by rewrite Hr, Hd. Qed.

Lemma initRule_active ruleId rule s :
  rules s !! ruleId = Some rule ->
  inapplicable filter rule = false ->
  JS.truthy_bool (disabled rule) = false ->
  initRule filter ruleId s
  = enableRule ruleId (initByMode filter ruleId (ruleDefaults filter rule) s).1
      (store_rule ruleId (initByMode filter ruleId (ruleDefaults filter rule) s).1
         (initByMode filter ruleId (ruleDefaults filter rule) s).2).
Proof.
  intros Hr Hi Hd. unfold initRule. rewrite Hr, Hi, Hd.
  by destruct (initByMode _ _ _ _).
Qed.

(** A rule on its way through [initRule] takes one of the two. *)
Lemma initRule_cases ruleId rule s :
  rules s !! ruleId = Some rule ->
  (JS.truthy_bool
     (disabled (if inapplicable filter rule
                then set_disabled (Some true) rule else rule)) = true)
  \/ (inapplicable filter rule = false /\ JS.truthy_bool (disabled rule) = false).
Proof.
  intros _. destruct (inapplicable filter rule); [by left|].
  destruct (JS.truthy_bool (disabled rule)); [by left|by right].
Qed.

Lemma initRule_length ruleId s :
  length (rules (initRule filter ruleId s)) = length (rules s).
Proof.
  destruct (rules s !! ruleId) as [rule|] eqn:Hr.
  - destruct (initRule_cases ruleId rule s Hr) as [Hd|[Hi Hd]].
    + rewrite (initRule_skipped ruleId rule s Hr Hd). simpl. apply length_insert.
    + rewrite (initRule_active ruleId rule s Hr Hi Hd).
      rewrite enableRule_rules. simpl. rewrite length_insert.
      by rewrite initByMode_rules.
  - unfold initRule. by rewrite Hr.
Qed.

(** The rule [initRule] leaves at the position it worked on. *)
Lemma initRule_stored ruleId rule s :
  rules s !! ruleId = Some rule ->
  rules (initRule filter ruleId s) !! ruleId
  = Some (if JS.truthy_bool
               (disabled (if inapplicable filter rule
                          then set_disabled (Some true) rule else rule))
          then (if inapplicable filter rule then set_disabled (Some true) rule else rule)
          else (initByMode filter ruleId (ruleDefaults filter rule) s).1).
Proof.
  intros Hr. pose proof (lookup_lt_Some _ _ _ Hr) as Hlt.
  destruct (initRule_cases ruleId rule s Hr) as [Hd|[Hi Hd]].
  - rewrite (initRule_skipped ruleId rule s Hr Hd), Hd. simpl.
    by apply list_lookup_insert_eq.
  - rewrite (initRule_active ruleId rule s Hr Hi Hd), Hi, Hd.
    rewrite enableRule_rules. simpl. rewrite initByMode_rules.
    by apply list_lookup_insert_eq.
Qed.

(** [initRule] appends the id to the enabled rules exactly when the rule
    it leaves is not disabled. *)
Lemma initRule_enabledRuleIds ruleId s :
  (ruleId < length (rules s))%nat ->
  enabledRuleIds (initRule filter ruleId s)
  = enabledRuleIds s
    ++ (if rule_enabled (initRule filter ruleId s) ruleId then [ruleId] else []).
Proof.
  intros Hlt. destruct (lookup_lt_is_Some_2 _ _ Hlt) as [rule Hr].
  unfold rule_enabled. rewrite (initRule_stored ruleId rule s Hr).
  destruct (initRule_cases ruleId rule s Hr) as [Hd|[Hi Hd]].
  - rewrite (initRule_skipped ruleId rule s Hr Hd), Hd. simpl.
    rewrite Hd. simpl. by rewrite app_nil_r.
  - rewrite (initRule_active ruleId rule s Hr Hi Hd), Hi, Hd.
    set (p := initByMode filter ruleId (ruleDefaults filter rule) s).
    rewrite enableRule_enabledRuleIds.
    change (enabledRuleIds (store_rule ruleId p.1 p.2)) with (enabledRuleIds p.2).
    assert (enabledRuleIds p.2 = enabledRuleIds s) as ->
      by apply initByMode_enabledRuleIds.
    cbv beta iota.
    destruct (JS.truthy_bool (disabled p.1)); simpl; [by rewrite app_nil_r|done].
Qed.

Lemma rule_enabled_other ruleId i s :
  ruleId <> i ->
  rule_enabled (initRule filter ruleId s) i = rule_enabled s i.
Proof. intros Hne. unfold rule_enabled. by rewrite initRule_other_rule. Qed.

(** The loop of the constructor, over the first [k] rules. *)
Lemma initRules_prefix k : forall s,
  enabledRuleIds s = [] ->
  (k <= length (rules s))%nat ->
  length (rules (foldl (fun s ruleId => initRule filter ruleId s) s (seq 0 k)))
  = length (rules s)
  /\ enabledRuleIds (foldl (fun s ruleId => initRule filter ruleId s) s (seq 0 k))
     = List.filter
         (rule_enabled (foldl (fun s ruleId => initRule filter ruleId s) s (seq 0 k)))
         (seq 0 k)
  /\ (forall i, (k <= i)%nat ->
        rules (foldl (fun s ruleId => initRule filter ruleId s) s (seq 0 k)) !! i
        = rules s !! i).
Proof.
  induction k as [|k IH]; intros s He Hk.
  - simpl. by rewrite He.
  - rewrite seq_S, foldl_app.
    destruct (IH s He ltac:(lia)) as (Hlen & Hen & Hrest).
    set (sk := foldl (fun s ruleId => initRule filter ruleId s) s (seq 0 k)) in *.
    change (0 + k)%nat with k. cbn [foldl].
    split; [by rewrite initRule_length|]. split.
    + rewrite initRule_enabledRuleIds by lia.
      rewrite List.filter_app. cbn [List.filter]. f_equal.
      rewrite Hen. apply List.filter_ext_in. intros i Hi.
      apply in_seq in Hi. symmetry. apply rule_enabled_other. lia.
    + intros i Hi. rewrite initRule_other_rule by lia. apply Hrest. lia.
Qed.

End IndexFacts.

(** X6.  When the constructor's loop over the rules starts with no rule
    enabled, the enabled ids it leaves are exactly the positions of the
    rules that are not disabled afterwards, in increasing order and each
    once. *)
Theorem initRules_enabledRuleIds filter s :
  enabledRuleIds s = [] ->
  let s' := initRules filter s in
  enabledRuleIds s'
  = List.filter (rule_enabled s') (seq 0 (length (rules s')))
  /\ length (rules s') = length (rules s)
  /\ (forall ruleId, ruleId ∈ enabledRuleIds s' <-> rule_enabled s' ruleId = true)
  /\ NoDup (enabledRuleIds s').
Proof.
  intros He s'.
  destruct (initRules_prefix filter (length (rules s)) s He ltac:(lia))
    as (Hlen & Hen & _).
  fold (initRules filter s) in Hlen, Hen. fold s' in Hlen, Hen.
  rewrite Hlen. split; [done|]. split; [done|]. split.
  - intros ruleId. rewrite Hen, list_elem_of_In, filter_In, in_seq. split.
    + by intros [_ ?].
    + intros Hr. split; [|done]. unfold rule_enabled in Hr.
      destruct (rules s' !! ruleId) as [r|] eqn:Hrule; [|done].
      apply lookup_lt_Some in Hrule. lia.
  - rewrite Hen. apply NoDup_ListNoDup, List.NoDup_filter, seq_NoDup.
Qed.

Lemma initRules_enabledRuleIds_witness :
  enabledRuleIds (engine_of [framed_rule; delayed_rule; dynamic_rule] false) = []
  /\ enabledRuleIds
       (initRules sample_filter
          (engine_of [framed_rule; delayed_rule; dynamic_rule] false))
     = [1; 2]%nat.
Proof.
  split; [reflexivity|].
  destruct (initRules_enabledRuleIds sample_filter
              (engine_of [framed_rule; delayed_rule; dynamic_rule] false) eq_refl)
    as (Hen & _).
  rewrite Hen. reflexivity.
Defined.

Section ArrayFacts.

Variable filter : Filter.

Ltac init_cases :=
  unfold initByMode, initCueRule, initDynamicRule, initElementChildRule,
    initElementRule, initTextRule, initWatcherRule;
  repeat case_match; simpl; try reflexivity.

Lemma initByMode_mode ruleId rule s :
  mode (initByMode filter ruleId rule s).1 = mode rule.
Proof. init_cases. Qed.

Lemma initByMode_apfCaptions ruleId rule s :
  apfCaptions (initByMode filter ruleId rule s).1 = apfCaptions rule.
Proof. init_cases. Qed.

Lemma ruleDefaults_apfCaptions rule :
  apfCaptions (ruleDefaults filter rule) = apfCaptions rule.
Proof.
  unfold ruleDefaults, initDisplaySelector. repeat case_match; reflexivity.
Qed.

Lemma initByMode_cueRuleIds ruleId rule s :
  cueRuleIds (initByMode filter ruleId rule s).2
  = cueRuleIds s
    ++ (if negb (JS.truthy_bool (disabled (initByMode filter ruleId rule s).1))
           && mode_is rule "cue"
        then [ruleId] else []).
Proof.
  unfold initByMode. destruct (mode_is rule "cue"); simpl.
  - destruct (negb _); simpl; [done|by rewrite app_nil_r].
  - rewrite andb_false_r, app_nil_r. repeat case_match; reflexivity.
Qed.

Lemma mode_is_exclusive rule a b :
  a <> b -> mode_is rule a = true -> mode_is rule b = false.
Proof.
  unfold mode_is, JS.opt_str_eqb. intros Hne Ha.
  apply bool_decide_eq_true in Ha. apply bool_decide_eq_false. congruence.
Qed.

Lemma initByMode_watcherRuleIds ruleId rule s :
  watcherRuleIds (initByMode filter ruleId rule s).2
  = watcherRuleIds s
    ++ (if negb (JS.truthy_bool (disabled (initByMode filter ruleId rule s).1))
           && mode_is rule "watcher"
        then [ruleId] else []).
Proof.
  destruct (mode_is rule "watcher") eqn:Hw.
  - unfold initByMode.
    rewrite (mode_is_exclusive rule "watcher" "cue"),
      (mode_is_exclusive rule "watcher" "dynamic"),
      (mode_is_exclusive rule "watcher" "elementChild"),
      (mode_is_exclusive rule "watcher" "element"),
      (mode_is_exclusive rule "watcher" "text"), Hw by done.
    simpl. destruct (negb _); simpl; [done|by rewrite app_nil_r].
  - rewrite andb_false_r, app_nil_r. unfold initByMode. rewrite Hw.
    repeat case_match; reflexivity.
Qed.

Lemma initByMode_apfCaptionRuleIds ruleId rule s :
  apfCaptionRuleIds (initByMode filter ruleId rule s).2 = apfCaptionRuleIds s.
Proof. unfold initByMode. repeat case_match; reflexivity. Qed.

Lemma enableRule_cueRuleIds ruleId rule s :
  cueRuleIds (enableRule ruleId rule s) = cueRuleIds s.
Proof. unfold enableRule, emit. repeat case_match; reflexivity. Qed.

Lemma enableRule_watcherRuleIds ruleId rule s :
  watcherRuleIds (enableRule ruleId rule s) = watcherRuleIds s.
Proof. unfold enableRule, emit. repeat case_match; reflexivity. Qed.

Lemma enableRule_apfCaptionRuleIds ruleId rule s :
  apfCaptionRuleIds (enableRule ruleId rule s)
  = apfCaptionRuleIds s
    ++ (if negb (JS.truthy_bool (disabled rule)) && JS.truthy_bool (apfCaptions rule)
        then [ruleId] else []).
Proof.
  unfold enableRule, emit.
  destruct (JS.truthy_bool (disabled rule)); simpl.
  - rewrite app_nil_r. by destruct (negb (mode_is rule "ytauto")).
  - destruct (JS.truthy_bool (apfCaptions rule)); simpl;
      rewrite ?app_nil_r; repeat case_match; reflexivity.
Qed.

(** What [initRule] appends to the three other index arrays. *)
Lemma initRule_index_arrays ruleId s :
  (ruleId < length (rules s))%nat ->
  let s' := initRule filter ruleId s in
  cueRuleIds s'
  = cueRuleIds s
    ++ (if rule_enabled s' ruleId && rule_at s' (fun r => mode_is r "cue") ruleId
        then [ruleId] else [])
  /\ watcherRuleIds s'
     = watcherRuleIds s
       ++ (if rule_enabled s' ruleId
              && rule_at s' (fun r => mode_is r "watcher") ruleId
           then [ruleId] else [])
  /\ apfCaptionRuleIds s'
     = apfCaptionRuleIds s
       ++ (if rule_enabled s' ruleId
              && rule_at s' (fun r => JS.truthy_bool (apfCaptions r)) ruleId
           then [ruleId] else []).
Proof.
  intros Hlt s'. destruct (lookup_lt_is_Some_2 _ _ Hlt) as [rule Hr].
  unfold rule_enabled, rule_at, s'. rewrite (initRule_stored filter ruleId rule s Hr).
  destruct (initRule_cases filter ruleId rule s Hr) as [Hd|[Hi Hd]].
  - rewrite (initRule_skipped filter ruleId rule s Hr Hd), Hd. simpl.
    rewrite Hd. simpl. by rewrite !app_nil_r.
  - rewrite (initRule_active filter ruleId rule s Hr Hi Hd), Hi, Hd.
    set (r := ruleDefaults filter rule).
    set (p := initByMode filter ruleId r s).
    rewrite enableRule_cueRuleIds, enableRule_watcherRuleIds,
      enableRule_apfCaptionRuleIds.
    change (cueRuleIds (store_rule ruleId p.1 p.2)) with (cueRuleIds p.2).
    change (watcherRuleIds (store_rule ruleId p.1 p.2)) with (watcherRuleIds p.2).
    change (apfCaptionRuleIds (store_rule ruleId p.1 p.2))
      with (apfCaptionRuleIds p.2).
    pose proof (initByMode_cueRuleIds ruleId r s) as Hc.
    pose proof (initByMode_watcherRuleIds ruleId r s) as Hw.
    pose proof (initByMode_apfCaptionRuleIds ruleId r s) as Ha.
    fold p in Hc, Hw, Ha. rewrite Hc, Hw, Ha. cbv beta iota.
    assert (forall m, mode_is p.1 m = mode_is r m) as Hm.
    { intros m. unfold mode_is, p. by rewrite initByMode_mode. }
    by rewrite !Hm.
Qed.

Lemma rule_at_other q ruleId i s :
  ruleId <> i -> rule_at (initRule filter ruleId s) q i = rule_at s q i.
Proof. intros Hne. unfold rule_at. by rewrite initRule_other_rule. Qed.

Lemma initRules_fold_length (l : list nat) : forall s,
  length (rules (foldl (fun s ruleId => initRule filter ruleId s) s l))
  = length (rules s).
Proof.
  induction l as [|j l IH]; intros s; simpl; [done|].
  by rewrite IH, initRule_length.
Qed.

(** An index array that [initRule] extends by the id of a rule
    satisfying [q] holds, after the first [k] turns of the constructor's
    loop, the positions below [k] satisfying [q]. *)
Lemma initRules_prefix_array (proj : WebAudio -> list nat)
    (q : WebAudio -> nat -> bool) :
  (forall j s, (j < length (rules s))%nat ->
     proj (initRule filter j s)
     = proj s ++ (if q (initRule filter j s) j then [j] else [])) ->
  (forall j i s, j <> i -> q (initRule filter j s) i = q s i) ->
  forall k s,
    proj s = [] -> (k <= length (rules s))%nat ->
    proj (foldl (fun s ruleId => initRule filter ruleId s) s (seq 0 k))
    = List.filter (q (foldl (fun s ruleId => initRule filter ruleId s) s (seq 0 k)))
        (seq 0 k).
Proof.
  intros Hstep Hother k. induction k as [|k IH]; intros s He Hk.
  - simpl. by rewrite He.
  - rewrite seq_S, foldl_app.
    pose proof (IH s He ltac:(lia)) as Hen.
    pose proof (initRules_fold_length (seq 0 k) s) as Hlen.
    set (sk := foldl (fun s ruleId => initRule filter ruleId s) s (seq 0 k)) in *.
    change (0 + k)%nat with k. cbn [foldl].
    rewrite Hstep by lia.
    rewrite List.filter_app. cbn [List.filter]. f_equal.
    rewrite Hen. apply List.filter_ext_in. intros i Hi.
    apply in_seq in Hi. symmetry. apply Hother. lia.
Qed.

Lemma filter_filter_and (p q : nat -> bool) (l : list nat) :
  List.filter p (List.filter q l) = List.filter (fun i => q i && p i) l.
Proof.
  induction l as [|x l IH]; simpl; [done|].
  destruct (q x); simpl; [|done]. destruct (p x); by rewrite IH.
Qed.

End ArrayFacts.

(** X7.  When the constructor's loop starts with empty index arrays, the
    cue, watcher and synthetic-caption arrays it leaves are the enabled
    ids, in their order, of the rules of mode [cue], of mode [watcher]
    and with [apfCaptions]: no id is indexed there without being
    enabled. *)
Theorem initRules_index_arrays filter s :
  fresh_arrays s ->
  let s' := initRules filter s in
  cueRuleIds s'
  = List.filter (rule_at s' (fun r => mode_is r "cue")) (enabledRuleIds s')
  /\ watcherRuleIds s'
     = List.filter (rule_at s' (fun r => mode_is r "watcher")) (enabledRuleIds s')
  /\ apfCaptionRuleIds s'
     = List.filter (rule_at s' (fun r => JS.truthy_bool (apfCaptions r)))
         (enabledRuleIds s').
Proof.
  intros (He & Hc & Hw & Ha) s'.
  destruct (initRules_prefix filter (length (rules s)) s He ltac:(lia))
    as (_ & Hen & _).
  fold (initRules filter s) in Hen. fold s' in Hen. rewrite Hen.
  rewrite !filter_filter_and.
  assert (Harr : forall proj p,
            (forall j st, (j < length (rules st))%nat ->
               proj (initRule filter j st)
               = proj st
                 ++ (if rule_enabled (initRule filter j st) j
                        && rule_at (initRule filter j st) p j
                     then [j] else [])) ->
            proj s = [] ->
            proj s' = List.filter (fun i => rule_enabled s' i && rule_at s' p i)
                        (seq 0 (length (rules s)))).
  { intros proj p Hstep Hnil.
    apply (initRules_prefix_array filter proj
             (fun st i => rule_enabled st i && rule_at st p i));
      [done| |done|lia].
    intros j i st Hne. by rewrite rule_enabled_other, rule_at_other. }
  split; [|split].
  - apply Harr; [|done]. intros j st Hj.
    by destruct (initRule_index_arrays filter j st Hj) as (H & _ & _).
  - apply Harr; [|done]. intros j st Hj.
    by destruct (initRule_index_arrays filter j st Hj) as (_ & H & _).
  - apply Harr; [|done]. intros j st Hj.
    by destruct (initRule_index_arrays filter j st Hj) as (_ & _ & H).
Qed.

Lemma initRules_index_arrays_witness :
  fresh_arrays (engine_of [plain_cue_rule; delayed_rule; showing_rule] false)
  /\ cueRuleIds
       (initRules sample_filter
          (engine_of [plain_cue_rule; delayed_rule; showing_rule] false))
     = [0; 2]%nat.
Proof.
  assert (Hf : fresh_arrays
                 (engine_of [plain_cue_rule; delayed_rule; showing_rule] false))
    by (repeat split; reflexivity).
  split; [exact Hf|].
  destruct (initRules_index_arrays sample_filter _ Hf) as (Hcue & _).
  rewrite Hcue. reflexivity.
Defined.

(** ** Rule initialiser: the rule objects *)

Section RuleObjectFacts.

Variable filter : Filter.

Lemma initByMode_rule ruleId rule s :
  (initByMode filter ruleId rule s).1 = modeSetup filter rule.
Proof. unfold initByMode, modeSetup. repeat case_match; reflexivity. Qed.

Lemma initRule_lookup ruleId rule s :
  rules s !! ruleId = Some rule ->
  rules (initRule filter ruleId s) !! ruleId = Some (initialisedRule filter rule).
Proof.
  intros Hr. rewrite (initRule_stored filter ruleId rule s Hr).
  unfold initialisedRule. rewrite initByMode_rule.
  by destruct (inapplicable filter rule).
Qed.

(** After the first [k] turns of the constructor's loop the first [k]
    rules are initialised and the others untouched. *)
Lemma initRules_prefix_rules k : forall s i,
  (k <= length (rules s))%nat ->
  rules (foldl (fun s ruleId => initRule filter ruleId s) s (seq 0 k)) !! i
  = if bool_decide (i < k)%nat
    then initialisedRule filter <$> rules s !! i
    else rules s !! i.
Proof.
  induction k as [|k IH]; intros s i Hk.
  - cbn [seq foldl]. case_bool_decide; [lia|done].
  - rewrite seq_S, foldl_app. change (0 + k)%nat with k. cbn [foldl].
    set (sk := foldl (fun s ruleId => initRule filter ruleId s) s (seq 0 k)).
    destruct (decide (i = k)) as [->|Hne].
    + rewrite bool_decide_eq_true_2 by lia.
      assert (rules sk !! k = rules s !! k) as Hk'.
      { unfold sk. rewrite IH by lia. by rewrite bool_decide_eq_false_2 by lia. }
      destruct (rules s !! k) as [rule|] eqn:Hr.
      * by rewrite (initRule_lookup k rule sk Hk').
      * apply lookup_ge_None in Hr. lia.
    + rewrite initRule_other_rule by done. unfold sk. rewrite IH by lia.
      apply (f_equal (fun b : bool => if b then _ else _)).
      apply bool_decide_ext. lia.
Qed.

Ltac setup_cases :=
  unfold modeSetup, initCueRule, initDynamicRule, initElementChildRule,
    initElementRule, initTextRule, initWatcherRule;
  repeat case_match; simpl; try reflexivity.

Lemma modeSetup_videoSelector rule :
  videoSelector (modeSetup filter rule) = videoSelector rule.
Proof. setup_cases. Qed.

Lemma modeSetup_filterSubtitles rule :
  filterSubtitles (modeSetup filter rule) = filterSubtitles rule.
Proof. setup_cases. Qed.

Lemma modeSetup_mode rule : mode (modeSetup filter rule) = mode rule.
Proof. setup_cases. Qed.

Lemma ruleDefaults_videoSelector rule :
  is_Some (videoSelector (ruleDefaults filter rule)).
Proof.
  unfold ruleDefaults, initDisplaySelector. destruct rule. simpl.
  repeat case_match; simpl in *; try (by eexists);
    match goal with H : bool_decide _ = false |- _ =>
      apply bool_decide_eq_false in H; by destruct videoSelector0 end.
Qed.

Lemma ruleDefaults_filterSubtitles rule :
  is_Some (filterSubtitles (ruleDefaults filter rule))
  /\ (filterText filter = false ->
      filterSubtitles (ruleDefaults filter rule) = Some false).
Proof.
  unfold ruleDefaults, initDisplaySelector. destruct rule. simpl.
  split; [|intros Hft; rewrite Hft; simpl];
    repeat case_match; simpl in *; try (by eexists); try done;
    match goal with H : bool_decide _ = false |- _ =>
      apply bool_decide_eq_false in H; by destruct filterSubtitles0 end.
Qed.

Lemma modeSetup_checkInterval rule :
  mode rule = Some "watcher" -> is_Some (checkInterval (modeSetup filter rule)).
Proof.
  intros Hm. unfold modeSetup, mode_is, JS.opt_str_eqb. rewrite Hm. simpl.
  unfold initWatcherRule. destruct rule. simpl.
  repeat case_match; simpl in *; try (by eexists);
    match goal with H : bool_decide (checkInterval0 = None) = false |- _ =>
      apply bool_decide_eq_false in H; by destruct checkInterval0 end.
Qed.

(** A rule that leaves [initRule] enabled carries the defaults. *)
Lemma initialisedRule_defaulted rule :
  JS.truthy_bool (disabled (initialisedRule filter rule)) = false ->
  defaulted filter (initialisedRule filter rule).
Proof.
  unfold initialisedRule. cbv zeta.
  set (g := if inapplicable filter rule then set_disabled (Some true) rule else rule).
  destruct (JS.truthy_bool (disabled g)) eqn:Hd; [by rewrite Hd|].
  intros _. unfold defaulted.
  rewrite modeSetup_videoSelector, modeSetup_filterSubtitles, modeSetup_mode.
  destruct (ruleDefaults_filterSubtitles g) as [Hf Hft].
  split; [apply ruleDefaults_videoSelector|]. split; [done|]. split; [done|].
  intros Hm. by apply modeSetup_checkInterval.
Qed.

End RuleObjectFacts.

(** X8.  The constructor's loop initialises each rule by itself: the
    rule it leaves at a position is determined by the rule it found there
    and the page's filter settings, whatever the other rules and the
    engine's state. *)
Theorem initRules_rules filter s :
  rules (initRules filter s) = initialisedRule filter <$> rules s.
Proof.
  apply list_eq. intros i. unfold initRules.
  rewrite initRules_prefix_rules by lia. rewrite list_lookup_fmap.
  destruct (rules s !! i) as [rule|] eqn:Hr.
  - apply lookup_lt_Some in Hr as Hlt. by rewrite bool_decide_eq_true_2.
  - by case_bool_decide.
Qed.

(** X9.  When the loop starts with no rule enabled, every rule it
    enables has a video selector and a [filterSubtitles] value, which is
    [false] when the page's text filtering is off, and a watcher rule has
    a check interval. *)
Theorem initRules_enabled_defaulted filter s ruleId :
  enabledRuleIds s = [] ->
  ruleId ∈ enabledRuleIds (initRules filter s) ->
  exists rule,
    rules (initRules filter s) !! ruleId = Some rule /\ defaulted filter rule.
Proof.
  intros He Hin.
  destruct (initRules_prefix filter (length (rules s)) s He ltac:(lia))
    as (_ & Hen & _).
  fold (initRules filter s) in Hen. rewrite Hen in Hin.
  apply list_elem_of_In, filter_In in Hin as [Hlt Hon]. apply in_seq in Hlt.
  unfold rule_enabled in Hon.
  assert (rules (initRules filter s) !! ruleId
          = initialisedRule filter <$> rules s !! ruleId) as Hrule.
  { unfold initRules. rewrite initRules_prefix_rules by lia.
    by rewrite bool_decide_eq_true_2 by lia. }
  rewrite Hrule in Hon |- *.
  destruct (rules s !! ruleId) as [rule|]; [|done]. simpl in *.
  exists (initialisedRule filter rule). split; [done|].
  apply initialisedRule_defaulted. by apply negb_true_iff.
Qed.

Lemma initRules_enabled_defaulted_witness :
  enabledRuleIds (engine_of [framed_rule; watcher_rule] false) = []
  /\ 1%nat ∈ enabledRuleIds
               (initRules sample_filter (engine_of [framed_rule; watcher_rule] false))
  /\ exists rule,
       rules (initRules sample_filter (engine_of [framed_rule; watcher_rule] false))
         !! 1%nat = Some rule
       /\ defaulted sample_filter rule.
Proof.
  assert (Hin : 1%nat ∈ enabledRuleIds
                  (initRules sample_filter
                     (engine_of [framed_rule; watcher_rule] false)))
    by (vm_compute; left).
  split; [reflexivity|]. split; [exact Hin|].
  exact (initRules_enabled_defaulted sample_filter
           (engine_of [framed_rule; watcher_rule] false) 1%nat eq_refl Hin).
Defined.

(** ** Rule initialiser: mode-specific setup *)

(** A projection that every step of a chain of assignments leaves alone
    is left alone by the chain. *)
Lemma let_keep {A B} (p : A -> B) (a : A) (f : A -> A) (r0 : A) :
  p a = p r0 -> (forall r, p (f r) = p r) -> p (let x := a in f x) = p r0.
Proof. intros Ha Hf. cbv zeta. by rewrite Hf. Qed.

Ltac keep_field :=
  intros; cbv beta;
  lazymatch goal with
  | |- ?p (let x := ?a in @?f x) = ?p ?r0 =>
      apply (let_keep p a f r0); [keep_field | keep_field]
  | |- _ =>
      first [ reflexivity
            | case_match; keep_field
            | unfold initDisplaySelector; keep_field ]
  end.

Section ModeFacts.

Variable filter : Filter.

Lemma mode_is_ruleDefaults rule m :
  mode_is (ruleDefaults filter rule) m = mode_is rule m.
Proof. unfold mode_is. by rewrite ruleDefaults_mode. Qed.

Lemma initByMode_trace ruleId rule s :
  trace (initByMode filter ruleId rule s).2 = trace s.
Proof. unfold initByMode. repeat case_match; reflexivity. Qed.

Lemma initWatcherRule_keeps rule :
  disabled (initWatcherRule rule) = disabled rule
  /\ toCue (initWatcherRule rule) = toCue rule
  /\ apfCaptions (initWatcherRule rule) = apfCaptions rule
  /\ mode (initWatcherRule rule) = mode rule.
Proof.
  unfold initWatcherRule. repeat split; repeat case_match; reflexivity.
Qed.

Lemma initWatcherRule_checkInterval rule :
  checkInterval (initWatcherRule rule) = Some (default 20 (checkInterval rule)).
Proof.
  unfold initWatcherRule.
  set (r1 := if bool_decide (apfCuesLabel rule = None) then _ else rule).
  assert (H1 : checkInterval r1 = checkInterval rule)
    by (unfold r1; by case_match).
  set (r2 := if bool_decide (checkInterval r1 = None) then _ else r1).
  assert (H2 : checkInterval r2 = Some (default 20 (checkInterval rule))).
  { unfold r2. rewrite H1. by destruct (checkInterval rule). }
  cbv zeta. fold r1. fold r2.
  repeat case_match; exact H2.
Qed.

Lemma ruleDefaults_watcher_fields rule :
  toCue (ruleDefaults filter rule) = toCue rule
  /\ checkInterval (ruleDefaults filter rule) = checkInterval rule.
Proof.
  unfold ruleDefaults. split; keep_field.
Qed.

(** What [initWatcherRule] after the defaults leaves of the fields the
    scheduling reads. *)
Lemma watcher_setup_fields rule :
  let r := initWatcherRule (ruleDefaults filter rule) in
  disabled r = disabled rule
  /\ toCue r = toCue rule
  /\ checkInterval r = Some (default 20 (checkInterval rule))
  /\ apfCaptions r = apfCaptions rule.
Proof.
  cbv zeta.
  destruct (initWatcherRule_keeps (ruleDefaults filter rule)) as (-> & -> & -> & _).
  destruct (ruleDefaults_watcher_fields rule) as (-> & Hc).
  rewrite initWatcherRule_checkInterval, Hc.
  rewrite ruleDefaults_disabled, ruleDefaults_apfCaptions. done.
Qed.

(** What the element and elementChild setups read is left alone by the
    defaults. *)
Lemma ruleDefaults_selectors rule :
  parentSelector (ruleDefaults filter rule) = parentSelector rule
  /\ parentSelectorAll (ruleDefaults filter rule) = parentSelectorAll rule
  /\ apfCaptions (ruleDefaults filter rule) = apfCaptions rule
  /\ displaySelector (ruleDefaults filter rule) = displaySelector rule.
Proof.
  unfold ruleDefaults. repeat split; keep_field.
Qed.

Lemma modeSetup_watcher rule :
  mode rule = Some "watcher" -> modeSetup filter rule = initWatcherRule rule.
Proof. intros Hm. unfold modeSetup, mode_is. rewrite Hm. reflexivity. Qed.

Lemma modeSetup_elementChild rule :
  mode rule = Some "elementChild" ->
  modeSetup filter rule = initElementChildRule rule.
Proof. intros Hm. unfold modeSetup, mode_is. rewrite Hm. reflexivity. Qed.

Lemma modeSetup_element rule :
  mode rule = Some "element" -> modeSetup filter rule = initElementRule rule.
Proof. intros Hm. unfold modeSetup, mode_is. rewrite Hm. reflexivity. Qed.

Lemma enableRule_trace ruleId rule s :
  trace (enableRule ruleId rule s)
  = trace s
    ++ (if JS.truthy_bool (disabled rule) then
          if negb (mode_is rule "ytauto")
          then [LogInfo "Audio rule disabled during initialization" (Some ruleId)]
          else []
        else if mode_is rule "watcher" then
          [SetInterval (if JS.truthy_bool (toCue rule) then WatcherToCue else Watcher)
             (checkInterval rule) ruleId]
        else []).
Proof.
  unfold enableRule, emit.
  destruct (JS.truthy_bool (disabled rule)).
  - destruct (negb (mode_is rule "ytauto")); [done|by rewrite app_nil_r].
  - destruct (mode_is rule "watcher").
    + by destruct (JS.truthy_bool (toCue rule)), (JS.truthy_bool (apfCaptions rule)).
    + destruct (JS.truthy_bool (apfCaptions rule)); by rewrite app_nil_r.
Qed.

End ModeFacts.

(** X10.  [initRule] on a watcher rule that applies to the page and is
    not disabled schedules one periodic task for it, every
    [checkInterval] ms and every 20 ms when the rule names none, running
    [watcherToCue] when the rule sets [toCue] and [watcher] otherwise; the
    rule's id is appended to the watcher and to the enabled ids. *)
Theorem initRule_schedules_watcher filter ruleId rule s :
  rules s !! ruleId = Some rule ->
  mode rule = Some "watcher" ->
  inapplicable filter rule = false ->
  JS.truthy_bool (disabled rule) = false ->
  let s' := initRule filter ruleId s in
  trace s'
  = trace s
    ++ [SetInterval (if JS.truthy_bool (toCue rule) then WatcherToCue else Watcher)
          (Some (default 20 (checkInterval rule))) ruleId]
  /\ watcherRuleIds s' = watcherRuleIds s ++ [ruleId]
  /\ enabledRuleIds s' = enabledRuleIds s ++ [ruleId].
Proof.
  intros Hr Hm Hi Hd s'. unfold s'.
  rewrite (initRule_active filter ruleId rule s Hr Hi Hd).
  rewrite initByMode_rule.
  assert (Hm' : mode (ruleDefaults filter rule) = Some "watcher")
    by (by rewrite ruleDefaults_mode).
  rewrite (modeSetup_watcher filter _ Hm').
  destruct (watcher_setup_fields filter rule) as (Hdis & Hcue & Hint & _).
  cbv zeta in Hdis, Hcue, Hint.
  pose proof (initByMode_watcherRuleIds filter ruleId (ruleDefaults filter rule) s)
    as Hwat.
  rewrite initByMode_rule, (modeSetup_watcher filter _ Hm') in Hwat.
  assert (Hw' : mode_is (ruleDefaults filter rule) "watcher" = true)
    by (unfold mode_is; by rewrite Hm').
  pose proof (initByMode_trace filter ruleId (ruleDefaults filter rule) s) as Htr.
  pose proof (initByMode_enabledRuleIds filter ruleId (ruleDefaults filter rule) s)
    as Hen.
  set (s2 := (initByMode filter ruleId (ruleDefaults filter rule) s).2) in *.
  set (r := initWatcherRule (ruleDefaults filter rule)) in *.
  assert (Hw : mode_is r "watcher" = true).
  { unfold mode_is, r.
    destruct (initWatcherRule_keeps (ruleDefaults filter rule)) as (_ & _ & _ & ->).
    by rewrite Hm'. }
  rewrite Hdis, Hd, Hw' in Hwat.
  rewrite enableRule_trace, enableRule_watcherRuleIds, enableRule_enabledRuleIds.
  rewrite Hdis, Hd, Hw, Hcue, Hint.
  change (trace (store_rule ruleId r s2)) with (trace s2).
  change (watcherRuleIds (store_rule ruleId r s2)) with (watcherRuleIds s2).
  change (enabledRuleIds (store_rule ruleId r s2)) with (enabledRuleIds s2).
  by rewrite Htr, Hwat, Hen.
Qed.

Lemma initRule_schedules_watcher_witness :
  rules (engine_of [watcher_rule] false) !! 0%nat = Some watcher_rule
  /\ trace (initRule sample_filter 0 (engine_of [watcher_rule] false))
     = [SetInterval Watcher (Some 50) 0%nat].
Proof.
  split; [reflexivity|].
  destruct (initRule_schedules_watcher sample_filter 0 watcher_rule
              (engine_of [watcher_rule] false) eq_refl eq_refl eq_refl eq_refl)
    as (Htrace & _).
  exact Htrace.
Defined.

(** X11.  An elementChild rule with neither [parentSelector] nor
    [parentSelectorAll], and an element or elementChild rule with
    [apfCaptions] but no [displaySelector], is disabled by [initRule]
    although it applies to the page, and its id is not indexed. *)
Theorem initRule_disables_incomplete filter ruleId rule s :
  rules s !! ruleId = Some rule ->
  inapplicable filter rule = false ->
  (mode rule = Some "elementChild"
   /\ JS.truthy_str (parentSelector rule) = false
   /\ JS.truthy_str (parentSelectorAll rule) = false)
  \/ ((mode rule = Some "element" \/ mode rule = Some "elementChild")
      /\ JS.truthy_bool (apfCaptions rule) = true
      /\ displaySelector rule = None) ->
  let s' := initRule filter ruleId s in
  (JS.truthy_bool <$> (disabled <$> rules s' !! ruleId)) = Some true
  /\ enabledRuleIds s' = enabledRuleIds s
  /\ apfCaptionRuleIds s' = apfCaptionRuleIds s.
Proof.
  intros Hr Hi Hcase s'. unfold s'.
  pose proof (lookup_lt_Some _ _ _ Hr) as Hlt.
  destruct (JS.truthy_bool (disabled rule)) eqn:Hd.
  - assert (JS.truthy_bool
              (disabled (if inapplicable filter rule
                         then set_disabled (Some true) rule else rule)) = true)
      as Hd' by (by rewrite Hi).
    rewrite (initRule_skipped filter ruleId rule s Hr Hd'), Hi. simpl.
    rewrite list_lookup_insert_eq by done. simpl. by rewrite Hd.
  - rewrite (initRule_active filter ruleId rule s Hr Hi Hd).
    rewrite initByMode_rule.
    destruct (ruleDefaults_selectors filter rule) as (Hp & Hpa & Hapf & Hds).
    assert (JS.truthy_bool
              (disabled (modeSetup filter (ruleDefaults filter rule))) = true)
      as Hoff.
    { destruct Hcase as [(Hm & Hps & Hpsa)|([Hm|Hm] & Ha & Hdisp)].
      - rewrite modeSetup_elementChild by (by rewrite ruleDefaults_mode).
        unfold initElementChildRule. rewrite Hp, Hpa, Hps, Hpsa.
        cbn [negb andb]. repeat case_match; reflexivity.
      - rewrite modeSetup_element by (by rewrite ruleDefaults_mode).
        unfold initElementRule. rewrite Hapf, Hds, Ha, Hdisp. reflexivity.
      - rewrite modeSetup_elementChild by (by rewrite ruleDefaults_mode).
        unfold initElementChildRule.
        set (r1 := if _ && _ then _ else _).
        assert (H1 : apfCaptions r1 = apfCaptions rule
                     /\ displaySelector r1 = displaySelector rule).
        { unfold r1. rewrite <- Hapf, <- Hds. by case_match. }
        destruct H1 as [-> ->]. rewrite Ha, Hdisp. reflexivity. }
    pose proof (initByMode_rules filter ruleId (ruleDefaults filter rule) s) as HR.
    pose proof (initByMode_enabledRuleIds filter ruleId (ruleDefaults filter rule) s)
      as HE.
    pose proof (initByMode_apfCaptionRuleIds filter ruleId
                  (ruleDefaults filter rule) s) as HA.
    set (s2 := (initByMode filter ruleId (ruleDefaults filter rule) s).2) in *.
    set (r := modeSetup filter (ruleDefaults filter rule)) in *.
    clearbody s2 r.
    rewrite enableRule_rules, enableRule_enabledRuleIds,
      enableRule_apfCaptionRuleIds, Hoff. simpl.
    rewrite HR, HE, HA.
    rewrite list_lookup_insert_eq by done. simpl. rewrite Hoff.
    by rewrite app_nil_r.
Qed.

Lemma initRule_disables_incomplete_witness :
  rules (engine_of [orphan_child_rule] false) !! 0%nat = Some orphan_child_rule
  /\ inapplicable sample_filter orphan_child_rule = false
  /\ enabledRuleIds (initRule sample_filter 0 (engine_of [orphan_child_rule] false))
     = [].
Proof.
  split; [reflexivity|]. split; [reflexivity|].
  destruct (initRule_disables_incomplete sample_filter 0 orphan_child_rule
              (engine_of [orphan_child_rule] false) eq_refl eq_refl)
    as (_ & Hen & _).
  - left. repeat split; reflexivity.
  - exact Hen.
Defined.

(** ** Mute controller: expiry, round trips and filler audio *)

Section MuteFacts.

Variable filter : Filter.
Variable getElement : option string -> option nat.

Local Abbreviation mute'' := (mute filter getElement).
Local Abbreviation unmute'' := (unmute getElement).
Local Abbreviation unmuteEffector'' := (unmuteEffector getElement).

Lemma unmuteEffector_timers rule video s :
  timers (unmuteEffector'' rule video s) = timers s.
Proof.
  unfold unmuteEffector, stopFillerAudio, update_video, emit.
  repeat case_match; reflexivity.
Qed.

Lemma unmuteEffector_muted rule video s :
  muted (unmuteEffector'' rule video s) = muted s.
Proof.
  unfold unmuteEffector, stopFillerAudio, update_video, emit.
  repeat case_match; reflexivity.
Qed.




End MuteFacts.



Section RoundTripFacts.

Variable filter : Filter.
Variable getElement : option string -> option nat.

Lemma cancelPendingUnmute_videos rule s :
  videos (cancelPendingUnmute rule s) = videos s.
Proof.
  unfold cancelPendingUnmute, clearUnmuteTimeout, clearTimeout.
  repeat case_match; reflexivity.
Qed.

Lemma cancelPendingUnmute_volume rule s :
  volume (cancelPendingUnmute rule s) = volume s.
Proof.
  unfold cancelPendingUnmute, clearUnmuteTimeout, clearTimeout.
  repeat case_match; reflexivity.
Qed.

Lemma cancelPendingUnmute_fillerAudio rule s :
  fillerAudio (cancelPendingUnmute rule s) = fillerAudio s.
Proof.
  unfold cancelPendingUnmute, clearUnmuteTimeout, clearTimeout.
  repeat case_match; reflexivity.
Qed.

(** The filler audio's listeners leave the element's sound as it is. *)
Lemma playFillerAudio_videos video s id :
  videos (playFillerAudio video s) !! id
  = (if playing video s && bool_decide (video = Some id)
     then video_listen else (fun v => v)) <$> videos s !! id.
Proof.
  unfold playFillerAudio, update_video.
  destruct (playing video s); simpl; [|by rewrite option_fmap_id].
  destruct video as [id'|]; simpl.
  - case_bool_decide as H.
    + injection H as ->. apply lookup_alter_eq.
    + rewrite lookup_alter_ne by congruence. by rewrite option_fmap_id.
  - by rewrite option_fmap_id.
Qed.

Lemma playFillerAudio_volume video s :
  volume (playFillerAudio video s) = volume s.
Proof.
  unfold playFillerAudio, update_video. repeat case_match; reflexivity.
Qed.

Lemma playFillerAudio_muted video s :
  muted (playFillerAudio video s) = muted s.
Proof.
  unfold playFillerAudio, update_video. repeat case_match; reflexivity.
Qed.

Lemma muteEffector_volume_video rule video id v x s :
  muteMethod rule = Some VIDEO_VOLUME ->
  video_or_lookup getElement rule video = Some id ->
  videos s !! id = Some v -> v_volume v = Some x ->
  let s' := muteEffector getElement rule video s in
  (exists v', videos s' !! id = Some v'
              /\ v_volume v' = Some 0 /\ v_muted v' = v_muted v)
  /\ volume s' = x
  /\ forall id', id' <> id -> videos s' !! id' = videos s !! id'.
Proof.
  intros Hmm Hv Hl Hx. unfold muteEffector. rewrite Hmm, Hv.
  unfold the_video. simpl. rewrite Hl, Hx.
  set (sA := set_videos _ _).
  assert (HA : videos sA !! id = Some (video_set_volume 0 v))
    by (unfold sA; simpl; by rewrite lookup_alter_eq, Hl).
  assert (HA' : forall id', id' <> id -> videos sA !! id' = videos s !! id')
    by (intros id' Hne; unfold sA; simpl; by rewrite lookup_alter_ne).
  destruct (fillerAudio sA).
  - split; [|split].
    + rewrite playFillerAudio_videos, HA. simpl.
      eexists. split; [reflexivity|]. by case_match.
    + by rewrite playFillerAudio_volume.
    + intros id' Hne. rewrite playFillerAudio_videos.
      rewrite bool_decide_eq_false_2 by congruence.
      rewrite andb_false_r, option_fmap_id. by apply HA'.
  - split; [|split]; [by eexists| done | done].
Qed.

Lemma unmuteEffector_volume_video rule video id v y s :
  muteMethod rule = Some VIDEO_VOLUME ->
  video_or_lookup getElement rule video = Some id ->
  videos s !! id = Some v -> v_volume v = Some y ->
  let s' := unmuteEffector getElement rule video s in
  videos s' !! id = Some (video_set_volume (volume s) v)
  /\ forall id', id' <> id -> videos s' !! id' = videos s !! id'.
Proof.
  intros Hmm Hv Hl Hy. unfold unmuteEffector. rewrite Hmm, Hv.
  set (sA := if fillerAudio s is Some _ then stopFillerAudio s else s).
  assert (HA : videos sA = videos s /\ volume sA = volume s)
    by (unfold sA; by destruct (fillerAudio s)).
  destruct HA as [HA HB]. clearbody sA.
  unfold the_video. simpl. rewrite HA, HB, Hl, Hy. simpl. split.
  - by rewrite lookup_alter_eq, Hl.
  - intros id' Hne. by rewrite lookup_alter_ne.
Qed.

Lemma muteEffector_mute_video rule video id v s :
  muteMethod rule = Some VIDEO_MUTE ->
  video_or_lookup getElement rule video = Some id ->
  videos s !! id = Some v ->
  let s' := muteEffector getElement rule video s in
  (exists v', videos s' !! id = Some v'
              /\ v_muted v' = true /\ v_volume v' = v_volume v)
  /\ forall id', id' <> id -> videos s' !! id' = videos s !! id'.
Proof.
  intros Hmm Hv Hl. unfold muteEffector. rewrite Hmm, Hv.
  unfold the_video. simpl. rewrite Hl.
  set (sA := if negb (v_muted v) then _ else _).
  assert (HA : exists v', videos sA !! id = Some v'
                          /\ v_muted v' = true /\ v_volume v' = v_volume v).
  { unfold sA. destruct (v_muted v) eqn:E; simpl.
    - by exists v.
    - rewrite lookup_alter_eq, Hl. by eexists. }
  assert (HA' : forall id', id' <> id -> videos sA !! id' = videos s !! id').
  { intros id' Hne. unfold sA. destruct (v_muted v); simpl; [done|].
    by rewrite lookup_alter_ne. }
  destruct HA as (v' & Hv' & Hmu & Hvo).
  destruct (fillerAudio sA).
  - split.
    + rewrite playFillerAudio_videos, Hv'. simpl.
      eexists. split; [reflexivity|]. by case_match.
    + intros id' Hne. rewrite playFillerAudio_videos.
      rewrite bool_decide_eq_false_2 by congruence.
      rewrite andb_false_r, option_fmap_id. by apply HA'.
  - split; [by exists v'|done].
Qed.

Lemma unmuteEffector_mute_video rule video id v s :
  muteMethod rule = Some VIDEO_MUTE ->
  video_or_lookup getElement rule video = Some id ->
  videos s !! id = Some v ->
  let s' := unmuteEffector getElement rule video s in
  videos s' !! id = Some (video_set_muted false v)
  /\ forall id', id' <> id -> videos s' !! id' = videos s !! id'.
Proof.
  intros Hmm Hv Hl. unfold unmuteEffector. rewrite Hmm, Hv.
  set (sA := if fillerAudio s is Some _ then stopFillerAudio s else s).
  assert (HA : videos sA = videos s)
    by (unfold sA; by destruct (fillerAudio s)).
  clearbody sA.
  unfold the_video. simpl. rewrite HA, Hl.
  destruct (v_muted v) eqn:E; simpl; rewrite ?HA.
  - split; [by rewrite lookup_alter_eq, Hl|].
    intros id' Hne. by rewrite lookup_alter_ne.
  - split; [|done]. rewrite Hl. f_equal. destruct v. simpl in E. by subst.
Qed.

Lemma muteEntry_fields s :
  videos (muteEntry filter s) = videos s /\ volume (muteEntry filter s) = volume s
  /\ fillerAudio (muteEntry filter s) = fillerAudio s.
Proof. unfold muteEntry. by destruct (collectStats filter). Qed.

Lemma mute_fresh rule video s :
  muted s = false ->
  let s1 := mute filter getElement rule video s in
  let e := muteEffector getElement rule video (muteEntry filter s) in
  videos s1 = videos e /\ volume s1 = volume e /\ fillerAudio s1 = fillerAudio e.
Proof.
  intros Hm. simpl. rewrite mute_unfold, Hm.
  rewrite cancelPendingUnmute_videos, cancelPendingUnmute_volume,
    cancelPendingUnmute_fillerAudio.
  unfold muteBlock, muteEntry. simpl. done.
Qed.

Lemma unmute_now rule video s :
  muted s = true -> unmuteDelay_ge0 rule = false ->
  unmute getElement rule video false s
  = emit (DebugTime "unmute()")
      (unmuteEffector getElement rule video (set_muted false s)).
Proof. intros Hm Hd. unfold unmute. by rewrite Hm, Hd. Qed.

End RoundTripFacts.

(** X13.  With the volume method and no unmute delay, muting sets the
    element's volume to 0 and remembers the volume it had; the unmute
    that follows gives the element that volume back, leaves its own muted
    flag alone, and touches no other element. *)
Theorem mute_unmute_restores_volume filter getElement rule video id v x s :
  muteMethod rule = Some VIDEO_VOLUME ->
  unmuteDelay_ge0 rule = false ->
  muted s = false ->
  video_or_lookup getElement rule video = Some id ->
  videos s !! id = Some v -> v_volume v = Some x ->
  let s1 := mute filter getElement rule video s in
  let s2 := unmute getElement rule video false s1 in
  (v_volume <$> videos s1 !! id) = Some (Some 0)
  /\ volume s1 = x
  /\ (v_volume <$> videos s2 !! id) = Some (Some x)
  /\ (v_muted <$> videos s2 !! id) = Some (v_muted v)
  /\ muted s2 = false
  /\ forall id', id' <> id -> videos s2 !! id' = videos s !! id'.
Proof.
  intros Hmm Hd Hm Hv Hl Hx s1 s2.
  destruct (mute_fresh filter getElement rule video s Hm) as (Hvs & Hvol & _).
  fold s1 in Hvs, Hvol.
  destruct (muteEntry_fields filter s) as (Hev & _ & _).
  destruct (muteEffector_volume_video getElement rule video id v x
              (muteEntry filter s) Hmm Hv) as ((v' & Hv' & Hvol' & Hmu') & Hx' & Hoth);
    [by rewrite Hev|done|].
  rewrite <- Hvs in Hv', Hoth. rewrite <- Hvol in Hx'.
  assert (Hs2 : s2 = emit (DebugTime "unmute()")
                       (unmuteEffector getElement rule video (set_muted false s1))).
  { apply unmute_now; [apply mute_muted|done]. }
  destruct (unmuteEffector_volume_video getElement rule video id v' 0
              (set_muted false s1) Hmm Hv Hv' Hvol') as (Hu & Huo).
  simpl in Hu, Huo.
  split; [by rewrite Hv'; simpl; rewrite Hvol'|]. split; [done|].
  rewrite Hs2. simpl. rewrite Hu. simpl. rewrite Hx'.
  split; [done|]. split; [by rewrite Hmu'|]. split.
  - by rewrite unmuteEffector_muted.
  - intros id' Hne. rewrite Huo by done. rewrite Hoth by done.
    by rewrite Hev.
Qed.

Lemma mute_unmute_restores_volume_witness :
  let s2 := unmute video_element video_volume_rule None false
              (mute sample_filter video_element video_volume_rule None video_engine) in
  (v_volume <$> videos s2 !! 7%nat) = Some (Some 80).
Proof.
  exact (proj1 (proj2 (proj2
    (mute_unmute_restores_volume sample_filter video_element video_volume_rule
       None 7%nat user_muted_video 80 video_engine
       eq_refl eq_refl eq_refl eq_refl eq_refl eq_refl)))).
Defined.

(** X14.  With the element mute method and no unmute delay, muting
    leaves the element muted and its volume alone; the unmute that
    follows leaves the element unmuted, also when it was muted before the
    engine muted it. *)
Theorem mute_unmute_leaves_unmuted filter getElement rule video id v s :
  muteMethod rule = Some VIDEO_MUTE ->
  unmuteDelay_ge0 rule = false ->
  muted s = false ->
  video_or_lookup getElement rule video = Some id ->
  videos s !! id = Some v ->
  let s1 := mute filter getElement rule video s in
  let s2 := unmute getElement rule video false s1 in
  (v_muted <$> videos s1 !! id) = Some true
  /\ (v_muted <$> videos s2 !! id) = Some false
  /\ (v_volume <$> videos s2 !! id) = Some (v_volume v)
  /\ muted s2 = false
  /\ forall id', id' <> id -> videos s2 !! id' = videos s !! id'.
Proof.
  intros Hmm Hd Hm Hv Hl s1 s2.
  destruct (mute_fresh filter getElement rule video s Hm) as (Hvs & _ & _).
  fold s1 in Hvs.
  destruct (muteEntry_fields filter s) as (Hev & _ & _).
  destruct (muteEffector_mute_video getElement rule video id v
              (muteEntry filter s) Hmm Hv) as ((v' & Hv' & Hmu' & Hvol') & Hoth);
    [by rewrite Hev|].
  rewrite <- Hvs in Hv', Hoth.
  assert (Hs2 : s2 = emit (DebugTime "unmute()")
                       (unmuteEffector getElement rule video (set_muted false s1))).
  { apply unmute_now; [apply mute_muted|done]. }
  destruct (unmuteEffector_mute_video getElement rule video id v'
              (set_muted false s1) Hmm Hv Hv') as (Hu & Huo).
  simpl in Hu, Huo.
  split; [by rewrite Hv'; simpl; rewrite Hmu'|].
  rewrite Hs2. simpl. rewrite Hu. simpl.
  split; [done|]. split; [by rewrite Hvol'|]. split.
  - by rewrite unmuteEffector_muted.
  - intros id' Hne. rewrite Huo by done. rewrite Hoth by done.
    by rewrite Hev.
Qed.

Lemma mute_unmute_leaves_unmuted_witness :
  (v_muted <$> videos video_engine !! 7%nat) = Some true
  /\ let s2 := unmute video_element video_mute_rule None false
                 (mute sample_filter video_element video_mute_rule None video_engine) in
     (v_muted <$> videos s2 !! 7%nat) = Some false.
Proof.
  split; [reflexivity|].
  exact (proj1 (proj2
    (mute_unmute_leaves_unmuted sample_filter video_element video_mute_rule
       None 7%nat user_muted_video video_engine
       eq_refl eq_refl eq_refl eq_refl eq_refl))).
Defined.

Section FillerFacts.

Variable filter : Filter.
Variable getElement : option string -> option nat.

(** [playing] reads the element's position and play state only. *)
Lemma playing_alter video id f s s' :
  videos s' = alter f id (videos s) ->
  (forall v, v_currentTime (f v) = v_currentTime v /\ v_paused (f v) = v_paused v
             /\ v_ended (f v) = v_ended v /\ v_readyState (f v) = v_readyState v) ->
  playing video s' = playing video s.
Proof.
  intros Hs Hf. unfold playing, the_video. destruct video as [id'|]; [|done].
  simpl. rewrite Hs. destruct (decide (id = id')) as [->|Hne].
  - rewrite lookup_alter_eq. destruct (videos s !! id') as [v|]; [|done].
    simpl. by destruct (Hf v) as (-> & -> & -> & ->).
  - by rewrite lookup_alter_ne.
Qed.

Lemma playing_same video s s' :
  videos s' = videos s -> playing video s' = playing video s.
Proof. intros Hs. unfold playing, the_video. by rewrite Hs. Qed.

Lemma playFillerAudio_fillerAudio video s :
  fillerAudio (playFillerAudio video s)
  = if playing video s
    then (fun f => mkFiller true (filler_currentTime f)) <$> fillerAudio s
    else fillerAudio s.
Proof.
  unfold playFillerAudio, update_video.
  destruct (playing video s); [|done]. by destruct video.
Qed.

(** The filler audio after the effector of [mute]. *)
Lemma muteEffector_fillerAudio rule video s :
  fillerAudio (muteEffector getElement rule video s)
  = if video_method rule && playing (video_or_lookup getElement rule video) s
    then (fun f => mkFiller true (filler_currentTime f)) <$> fillerAudio s
    else fillerAudio s.
Proof.
  unfold muteEffector, video_method.
  destruct (muteMethod rule) as [[]|]; try reflexivity.
  - set (vid := video_or_lookup getElement rule video).
    set (sA := match the_video vid s with Some _ => _ | None => s end).
    assert (HA : fillerAudio sA = fillerAudio s /\ playing vid sA = playing vid s).
    { unfold sA. destruct (the_video vid s) as [v|]; [|done].
      destruct (negb (v_muted v)); [|done]. unfold update_video.
      destruct vid as [id|]; [|done]. split; [done|].
      by apply (playing_alter _ id (video_set_muted true)). }
    destruct HA as [HA HB]. clearbody sA. cbv zeta. cbn [andb].
    destruct (fillerAudio sA) as [f|] eqn:E.
    + by rewrite playFillerAudio_fillerAudio, HB, E, HA.
    + rewrite <- HA, E. by destruct (playing vid s).
  - set (vid := video_or_lookup getElement rule video).
    set (sA := match the_video vid s with Some _ => _ | None => s end).
    assert (HA : fillerAudio sA = fillerAudio s /\ playing vid sA = playing vid s).
    { unfold sA. destruct (the_video vid s) as [v|]; [|done].
      destruct (v_volume v); [|done]. unfold update_video.
      destruct vid as [id|]; [|done]. split; [done|].
      by apply (playing_alter _ id (video_set_volume 0)). }
    destruct HA as [HA HB]. clearbody sA. cbv zeta. cbn [andb].
    destruct (fillerAudio sA) as [f|] eqn:E.
    + by rewrite playFillerAudio_fillerAudio, HB, E, HA.
    + rewrite <- HA, E. by destruct (playing vid s).
Qed.

(** The filler audio after the effector of [unmute]. *)
Lemma unmuteEffector_fillerAudio rule video s :
  fillerAudio (unmuteEffector getElement rule video s)
  = if video_method rule then (fun _ => mkFiller false 0) <$> fillerAudio s
    else fillerAudio s.
Proof.
  unfold unmuteEffector, video_method.
  destruct (muteMethod rule) as [[]|]; try reflexivity.
  - set (sA := if fillerAudio s is Some _ then stopFillerAudio s else s).
    assert (HA : fillerAudio sA = (fun _ => mkFiller false 0) <$> fillerAudio s)
      by (unfold sA, stopFillerAudio; destruct (fillerAudio s) eqn:E;
          [done|by rewrite E]).
    clearbody sA. cbv zeta. rewrite <- HA. unfold update_video.
    repeat case_match; reflexivity.
  - set (sA := if fillerAudio s is Some _ then stopFillerAudio s else s).
    assert (HA : fillerAudio sA = (fun _ => mkFiller false 0) <$> fillerAudio s)
      by (unfold sA, stopFillerAudio; destruct (fillerAudio s) eqn:E;
          [done|by rewrite E]).
    clearbody sA. cbv zeta. rewrite <- HA. unfold update_video.
    repeat case_match; reflexivity.
Qed.

Lemma muteBlock_next_handle rule video s :
  next_handle (muteBlock filter getElement rule video s) = next_handle s.
Proof.
  unfold muteBlock, muteEffector, playFillerAudio, update_video, emit.
  repeat case_match; reflexivity.
Qed.

Lemma cancelPendingUnmute_timers rule s :
  timers (cancelPendingUnmute rule s) ⊆ timers s
  /\ next_handle (cancelPendingUnmute rule s) = next_handle s.
Proof.
  unfold cancelPendingUnmute, clearUnmuteTimeout, clearTimeout.
  repeat case_match; simpl; split; try done; apply delete_subseteq.
Qed.

End FillerFacts.

(** X15.  Muting with a method that acts on the media element starts the
    filler audio exactly when that element is playing (it has advanced,
    is neither paused nor ended, and has data); the tab method leaves
    the filler audio alone.  The unmute that takes effect stops the
    filler audio and rewinds it. *)
Theorem mute_filler_audio filter getElement rule video delayed s :
  muted s = false ->
  negb delayed && unmuteDelay_ge0 rule = false ->
  let s1 := mute filter getElement rule video s in
  let s2 := unmute getElement rule video delayed s1 in
  fillerAudio s1
  = (if video_method rule && playing (video_or_lookup getElement rule video) s
     then (fun f => mkFiller true (filler_currentTime f)) <$> fillerAudio s
     else fillerAudio s)
  /\ fillerAudio s2
     = (if video_method rule then (fun _ => mkFiller false 0) <$> fillerAudio s
        else fillerAudio s).
Proof.
  intros Hm Hd s1 s2.
  destruct (mute_fresh filter getElement rule video s Hm) as (_ & _ & Hf).
  fold s1 in Hf. rewrite muteEffector_fillerAudio in Hf.
  destruct (muteEntry_fields filter s) as (Hev & _ & Hef).
  rewrite (playing_same _ _ _ Hev), Hef in Hf.
  split; [exact Hf|].
  assert (Hm1 : muted s1 = true) by apply mute_muted.
  unfold s2, unmute. rewrite Hm1, Hd.
  simpl. rewrite unmuteEffector_fillerAudio. simpl. rewrite Hf.
  destruct (video_method rule); [|done]. simpl.
  destruct (playing _ s); [|done]. by destruct (fillerAudio s).
Qed.

Lemma mute_filler_audio_witness :
  let s1 := mute sample_filter video_element video_mute_rule None video_engine in
  fillerAudio s1 = Some (mkFiller true 0)
  /\ fillerAudio (unmute video_element video_mute_rule None false s1)
     = Some (mkFiller false 0).
Proof.
  exact (mute_filler_audio sample_filter video_element video_mute_rule None false
           video_engine eq_refl eq_refl).
Defined.

(** X16.  [mute] arms no timer: the pending timers after it are among
    those before it, and the next handle is unchanged.  [unmute] cancels
    no timer: apart from the handle it may arm, every handle is pending
    after it exactly when it was before, with the same task. *)
Theorem timers_mute_only_cancels filter getElement rule video delayed s :
  (timers (mute filter getElement rule video s) ⊆ timers s
   /\ next_handle (mute filter getElement rule video s) = next_handle s)
  /\ forall handle,
       handle <> next_handle s ->
       timers (unmute getElement rule video delayed s) !! handle
       = timers s !! handle.
Proof.
  split.
  - rewrite mute_unfold.
    destruct (cancelPendingUnmute_timers rule
                (if muted s then s else muteBlock filter getElement rule video s))
      as [H1 H2].
    split.
    + etrans; [exact H1|]. destruct (muted s); [done|].
      by rewrite muteBlock_timers.
    + rewrite H2. destruct (muted s); [done|]. apply muteBlock_next_handle.
  - intros handle Hne. unfold unmute.
    destruct (muted s); [|done].
    destruct (negb delayed && unmuteDelay_ge0 rule).
    + unfold scheduleUnmute, clearUnmuteTimeout, setTimeout.
      case_bool_decide as Hu; [rewrite Hu|]; simpl; by rewrite lookup_insert_ne.
    + simpl. by rewrite unmuteEffector_timers.
Qed.

(** ** Status of the supported captions *)

(** X17.  [supportedCaptionsFound] reports a status to the background
    page only from the extension, and then only when the update is forced
    or the status differs from the one remembered; it remembers the
    status it reports.  Reporting the same status again without force
    changes nothing. *)
Theorem supportedCaptionsFound_settles filter found forceUpdate s :
  let s1 := supportedCaptionsFound filter found forceUpdate s in
  let reported :=
    extension filter
      && (forceUpdate || negb (Bool.eqb found (supportedCaptions s))) in
  supportedCaptionsFound filter found false s1 = s1
  /\ supportedCaptions s1 = (if extension filter then found else supportedCaptions s)
  /\ trace s1
     = trace s
       ++ (if reported
           then [SendStatus found forceUpdate;
                 LogInfo (if found then "Supported captions found"
                          else "Watching for supported captions") None]
           else []).
Proof.
  unfold supportedCaptionsFound.
  destruct (extension filter) eqn:Hext; simpl.
  - destruct forceUpdate; simpl.
    + destruct found; simpl; rewrite ?Hext; simpl;
        (split; [done|split; [done|by rewrite <- app_assoc]]).
    + destruct (Bool.eqb found (supportedCaptions s)) eqn:Heq; simpl.
      * rewrite ?Hext, ?Heq. simpl. apply eqb_prop in Heq.
        split; [done|split; [done|by rewrite app_nil_r]].
      * destruct found; simpl; rewrite ?Hext; simpl;
          (split; [done|split; [done|by rewrite <- app_assoc]]).
  - split; [done|split; [done|by rewrite app_nil_r]].
Qed.

(** ** SRT parser: errors and size *)

Section SrtFacts.

Variable hmsToSeconds : string -> option Z.

Lemma parseSRT_loop_throws lines st :
  match List.find malformed_timing lines with
  | Some l => parseSRT_loop hmsToSeconds lines st = Throw (SplitError l)
  | None => exists cues, parseSRT_loop hmsToSeconds lines st = Normal cues
  end.
Proof.
  revert st. induction lines as [|l rest IH]; intros st.
  - simpl. by eexists.
  - cbn [List.find parseSRT_loop].
    destruct (JS.includes "-->" l) eqn:Hinc.
    + destruct (JS.split JS.match_arrow l) as [|a [|b [|c r]]] eqn:Hs.
      all: assert (Hm : malformed_timing l
                        = negb (length (JS.split JS.match_arrow l) =? 2)%nat)
             by (unfold malformed_timing, timing_line; by rewrite Hinc).
      all: rewrite Hm, Hs; cbn [length Nat.eqb negb]; try reflexivity.
      apply IH.
    + assert (Hm : malformed_timing l = false)
        by (unfold malformed_timing, timing_line; by rewrite Hinc).
      rewrite Hm.
      destruct (JS.str_eqb l "");
        [destruct (srt_ready st)
        |destruct (srt_ready st); [destruct (srt_text st)|]]; apply IH.
Qed.

Lemma parseSRT_loop_length lines st cues :
  parseSRT_loop hmsToSeconds lines st = Normal cues ->
  (length cues
   <= length (srt_cues st) + (if srt_ready st then 1 else 0)
      + length (List.filter timing_line lines))%nat.
Proof.
  revert st. induction lines as [|l rest IH]; intros st.
  - simpl. intros [= <-]. destruct (srt_ready st).
    + rewrite pushCue_length. lia.
    + lia.
  - cbn [parseSRT_loop List.filter]. unfold timing_line at 1.
    destruct (JS.includes "-->" l) eqn:Hinc.
    + destruct (JS.split JS.match_arrow l) as [|a [|b [|c r]]] eqn:Hs;
        try discriminate.
      intros H. apply IH in H. cbn [srt_cues length] in *.
      destruct (srt_ready (mkSrt _ _ _ _)), (srt_ready st); lia.
    + destruct (JS.str_eqb l "").
      * destruct (srt_ready st) eqn:Hr.
        -- intros H. apply IH in H. cbn [srt_cues] in H.
           rewrite pushCue_length in H.
           change (srt_ready (mkSrt None None None (pushCue hmsToSeconds st)))
             with false in H.
           cbv iota in H. lia.
        -- intros H. apply IH in H. rewrite Hr in H. lia.
      * destruct (srt_ready st) eqn:Hr.
        -- destruct (srt_text st); intros H; apply IH in H;
             cbn [srt_cues] in H;
             match type of H with
             | context [srt_ready ?x] =>
                 change (srt_ready x) with (srt_ready st) in H
             end; rewrite Hr in H; lia.
        -- intros H. apply IH in H. rewrite Hr in H. lia.
Qed.

End SrtFacts.

(** X18.  [parseSRT] throws exactly when some line holds [-->] without
    splitting into two parts around an arrow set off by blanks; the error
    names the first such line.  Otherwise it returns a list: a timing
    token that cannot be converted never makes it throw. *)
Theorem parseSRT_throws hmsToSeconds srt :
  match List.find malformed_timing (srt_lines srt) with
  | Some l => parseSRT hmsToSeconds srt = Throw (SplitError l)
  | None => exists cues, parseSRT hmsToSeconds srt = Normal cues
  end.
Proof. apply parseSRT_loop_throws. Qed.

(** X19.  The list [parseSRT] returns has at most one entry for each
    line holding [-->]: without a timing line there is no cue. *)
Theorem parseSRT_length hmsToSeconds srt cues :
  parseSRT hmsToSeconds srt = Normal cues ->
  (length cues <= length (List.filter timing_line (srt_lines srt)))%nat.
Proof.
  intros H. apply parseSRT_loop_length in H. simpl in H. lia.
Qed.

Lemma parseSRT_length_witness :
  exists cues,
    parseSRT Helper.hmsToSeconds srt_example = Normal cues
    /\ (length cues <= 1)%nat.
Proof.
  assert (H : { cues | parseSRT Helper.hmsToSeconds srt_example = Normal cues }).
  { vm_compute. eexists. reflexivity. }
  destruct H as [cues H]. exists cues. split; [exact H|].
  exact (parseSRT_length Helper.hmsToSeconds srt_example cues H).
Defined.

(** ** Caption lines *)

Lemma append_assoc' (a b c : string) : (a +:+ b) +:+ c = a +:+ (b +:+ c).
Proof.
  induction a as [|x a IH]; [done|].
  change (String x ((a +:+ b) +:+ c) = String x (a +:+ (b +:+ c))).
  by f_equal.
Qed.

Lemma append_empty_r (a : string) : a +:+ "" = a.
Proof.
  induction a as [|x a IH]; [done|].
  change (String x (a +:+ "") = String x a). by f_equal.
Qed.

Lemma split_go_nonempty matchAt skip cur s : JS.split_go matchAt skip cur s <> [].
Proof.
  revert skip cur. induction s as [|c s IH]; intros skip cur; simpl; [done|].
  destruct skip; [|apply IH]. destruct (matchAt (String c s)); [done|apply IH].
Qed.

Lemma join_cons sep x l :
  l <> [] -> join sep (x :: l) = x +:+ sep +:+ join sep l.
Proof. by destruct l. Qed.

(** Joining the pieces of [s.split('\n')] with the separator gives [s]
    back. *)
Lemma join_split_go cur s :
  join (String JS.LF "") (JS.split_go match_LF 0 cur s) = cur +:+ s.
Proof.
  revert cur. induction s as [|c s IH]; intros cur.
  - simpl. by rewrite append_empty_r.
  - cbn [JS.split_go match_LF]. unfold JS.ascii_eqb. case_bool_decide as Hc.
    + cbn [Nat.pred]. rewrite join_cons by apply split_go_nonempty.
      rewrite IH, Hc. reflexivity.
    + rewrite IH, append_assoc'. reflexivity.
Qed.

Lemma join_split s : join (String JS.LF "") (JS.split match_LF s) = s.
Proof. unfold JS.split. by rewrite join_split_go. Qed.

Lemma zip_with_fst_eq {A B C} (f : A -> B -> C) (g : C -> A) l1 l2 :
  (forall a b, g (f a b) = a) -> length l1 = length l2 ->
  g <$> zip_with f l1 l2 = l1.
Proof.
  intros Hg. revert l2. induction l1 as [|a l1 IH]; intros [|b l2] Hl;
    simpl in *; try done.
  rewrite Hg, IH; [done|lia].
Qed.

Lemma zip_with_snd_eq {A B C} (f : A -> B -> C) (g : C -> B) l1 l2 :
  (forall a b, g (f a b) = b) -> length l1 = length l2 ->
  g <$> zip_with f l1 l2 = l2.
Proof.
  intros Hg. revert l2. induction l1 as [|a l1 IH]; intros [|b l2] Hl;
    simpl in *; try done.
  rewrite Hg, IH; [done|lia].
Qed.

Lemma zip_with_none_differ (m : bool) (l1 l2 : list string) :
  length l1 = length l2 ->
  existsb res_modified
    (zip_with (fun a b => mkResult b (m && negb (JS.str_eqb a b)) a) l1 l2) = false ->
  m = true -> l1 = l2.
Proof.
  intros Hl He ->. revert l2 Hl He.
  induction l1 as [|a l1 IH]; intros [|b l2] Hl He; simpl in *; try done.
  apply orb_false_iff in He as [Hab He]. unfold JS.str_eqb in Hab.
  apply negb_false_iff, bool_decide_eq_true in Hab. subst b.
  f_equal. apply IH; [lia|done].
Qed.

(** X20.  Splitting a result on newlines loses no text: the original
    texts of the lines, joined by newlines, are the original text, and
    likewise the filtered texts.  A line is marked modified only in a
    modified result, and a modified result whose two texts differ has a
    modified line. *)
Theorem splitReplaceTextResultsOnNewlines_joins result :
  let lines := splitReplaceTextResultsOnNewlines result in
  join (String JS.LF "") (res_original <$> lines) = res_original result
  /\ join (String JS.LF "") (res_filtered <$> lines) = res_filtered result
  /\ (existsb res_modified lines = true -> res_modified result = true)
  /\ (res_modified result = true ->
      res_original result <> res_filtered result ->
      existsb res_modified lines = true).
Proof.
  unfold splitReplaceTextResultsOnNewlines.
  set (f := fun originalLine filteredLine : string => _).
  destruct ((length (JS.split match_LF (res_original result)) =? 1)%nat
            || negb (length (JS.split match_LF (res_original result))
                     =? length (JS.split match_LF (res_filtered result)))%nat)
    eqn:Hc; cbv zeta.
  - simpl. rewrite orb_false_r. done.
  - apply orb_false_iff in Hc as [_ Hl].
    apply negb_false_iff, Nat.eqb_eq in Hl.
    split; [|split; [|split]].
    + rewrite (zip_with_fst_eq f res_original) by done. apply join_split.
    + rewrite (zip_with_snd_eq f res_filtered) by done. apply join_split.
    + destruct (res_modified result); [done|]. intros He. exfalso.
      revert He. unfold f. cbn [andb]. clear Hl.
      generalize (JS.split match_LF (res_filtered result)).
      generalize (JS.split match_LF (res_original result)).
      intros l1. induction l1 as [|a l1 IH]; intros [|b l2]; simpl; try done.
      apply IH.
    + intros Hm Hne. destruct (existsb res_modified _) eqn:He; [done|].
      exfalso. apply Hne.
      rewrite <- (join_split (res_original result)),
        <- (join_split (res_filtered result)).
      f_equal. by apply (zip_with_none_differ (res_modified result)).
Qed.

(** ** Cue classification, cue by cue *)

Section CueFacts.

Variable replaceTextResult : string -> ReplaceTextResult.
Variable rule : AudioRule.

Lemma processCue_lookup st c ref :
  cue_objects (processCue replaceTextResult rule st c) !! ref
  = processedCue replaceTextResult rule (bool_decide (ref = c))
      <$> cue_objects st !! ref.
Proof.
  unfold processCue, processedCue.
  destruct (decide (ref = c)) as [->|Hne].
  - rewrite bool_decide_eq_true_2 by done. cbn [andb].
    destruct (cue_objects st !! c) as [cue|] eqn:Hc; [|by rewrite Hc].
    destruct (filtered cue) as [b|] eqn:Hf; simpl.
    + rewrite Hc. simpl. by rewrite Hf.
    + rewrite lookup_insert_eq. by rewrite Hf.
  - rewrite bool_decide_eq_false_2 by done. cbn [andb].
    rewrite option_fmap_id.
    destruct (cue_objects st !! c) as [cue|]; [|done].
    destruct (filtered cue); [done|]. simpl. by rewrite lookup_insert_ne.
Qed.

Lemma processedCue_again a b cue :
  processedCue replaceTextResult rule a (processedCue replaceTextResult rule b cue)
  = processedCue replaceTextResult rule (b || a) cue.
Proof.
  unfold processedCue. destruct b; cbn [orb andb]; [|done].
  destruct (decide (filtered cue = None)) as [Hf|Hf].
  - rewrite !(bool_decide_eq_true_2 (filtered cue = None)) by done.
    destruct (classifyCue_filtered replaceTextResult rule cue) as [x Hx].
    rewrite (bool_decide_eq_false_2
               (filtered (classifyCue replaceTextResult rule cue) = None))
      by (by rewrite Hx).
    by rewrite andb_false_r.
  - rewrite !(bool_decide_eq_false_2 (filtered cue = None)) by done.
    by rewrite andb_false_r.
Qed.

End CueFacts.

(** X21.  [processCues] treats each cue object by itself: a cue of the
    store that is listed and has no own property [filtered] is
    classified once, from the text and times it had, however often it is
    listed; every other cue is left as it was, and no cue is added to or
    removed from the store. *)
Theorem processCues_lookup replaceTextResult cues rule st ref :
  cue_objects (processCues replaceTextResult cues rule st) !! ref
  = processedCue replaceTextResult rule (bool_decide (ref ∈ cues))
      <$> cue_objects st !! ref.
Proof.
  revert st. induction cues as [|c cues IH]; intros st.
  - simpl. unfold processedCue. simpl. by rewrite option_fmap_id.
  - change (processCues replaceTextResult (c :: cues) rule st)
      with (processCues replaceTextResult cues rule
              (processCue replaceTextResult rule st c)).
    rewrite IH, processCue_lookup, <- option_fmap_compose.
    apply option_fmap_ext. intros cue. simpl.
    rewrite processedCue_again. f_equal.
    destruct (decide (ref = c)) as [->|Hne].
    + rewrite (bool_decide_eq_true_2 (c = c)) by done.
      by rewrite (bool_decide_eq_true_2 (c ∈ c :: cues)) by left.
    + rewrite (bool_decide_eq_false_2 (ref = c)) by done. simpl.
      apply bool_decide_ext. rewrite elem_of_cons.
      split; [by right|by intros [?|?]].
Qed.

(** ** Watcher captions *)

Section WatcherFacts.

Variable filter : Filter.
Variable getElement : option string -> option nat.
Variable replaceTextResult : string -> ReplaceTextResult.
Variable rule : AudioRule.

Local Abbreviation processCaption' :=
  (processCaption filter getElement replaceTextResult rule).

Lemma captionsText_ext captions p p' :
  captionText p' = captionText p ->
  captionsText captions p' = captionsText captions p.
Proof.
  intros H. unfold captionsText. f_equal. apply list_fmap_ext.
  intros _ c _. unfold textContentOf. by rewrite H.
Qed.




End WatcherFacts.

(** X22.  After a watcher pass over caption elements the engine
    remembers their joined text; when that text is not empty, the next
    pass over the same elements is skipped: it marks the data as skipped,
    returns [false] and leaves engine and captions as they are, so that
    the same captions do not mute a second time. *)
Theorem processWatcherCaptionsArray_repeat
    filter getElement replaceTextResult rule captions data data' p :
  let p1 :=
    (processWatcherCaptionsArray filter getElement replaceTextResult
       rule captions data p).2 in
  captionsText captions p1 <> "" ->
  lastProcessedText p1 = captionsText captions p1
  /\ processWatcherCaptionsArray filter getElement replaceTextResult
       rule captions data' p1
     = (Some false,
        mkData (data_filtered data') (initialCall data') (Some true)
          (textResults data'),
        p1).
Proof.
  intros p1 Hne.
  assert (Hlast : lastProcessedText p1 = captionsText captions p1).
  { revert Hne. unfold p1, processWatcherCaptionsArray.
    destruct (JS.truthy_str (Some (lastProcessedText p))
              && JS.str_eqb (lastProcessedText p) (captionsText captions p))
      eqn:Hskip.
    - simpl. intros _. apply andb_true_iff in Hskip as [_ Heq].
      unfold JS.str_eqb in Heq. by apply bool_decide_eq_true in Heq.
    - destruct (foldl _ _ _) as [d2 p2]. simpl. intros _.
      by apply captionsText_ext. }
  split; [exact Hlast|].
  unfold processWatcherCaptionsArray at 1. fold p1.
  rewrite Hlast. unfold JS.str_eqb.
  rewrite bool_decide_eq_true_2 by done.
  destruct (captionsText captions p1) eqn:E; [done|]. reflexivity.
Qed.

Lemma processWatcherCaptionsArray_repeat_witness :
  let r1 :=
    processWatcherCaptionsArray sample_filter no_element sample_replace
      prompt_rule [1%nat; 2%nat] fresh_data caption_page in
  muted (engine r1.2) = true
  /\ (processWatcherCaptionsArray sample_filter no_element sample_replace
        prompt_rule [1%nat; 2%nat] fresh_data r1.2).1.1 = Some false.
Proof.
  split; [reflexivity|].
  assert (Hne : captionsText [1%nat; 2%nat]
                  (processWatcherCaptionsArray sample_filter no_element
                     sample_replace prompt_rule [1%nat; 2%nat] fresh_data
                     caption_page).2 <> "")
    by (vm_compute; discriminate).
  destruct (processWatcherCaptionsArray_repeat sample_filter no_element
              sample_replace prompt_rule [1%nat; 2%nat] fresh_data fresh_data
              caption_page Hne) as [_ ->].
  reflexivity.
Defined.



(** ** Track selection without assumption on the scores *)

Section TrackFacts.

Variable rule : AudioRule.
Variable overrideKey : option RuleKey.

Lemma getVideoTextTrack_loop_considered rest : forall pre bi bs fc,
  (fc = true -> exists t, pre !! bi = Some t /\ considered rule t = true) ->
  (fc = false -> Forall (fun t => considered rule t = false) pre) ->
  match getVideoTextTrack_loop rule overrideKey rest (length pre) bi bs fc with
  | Some i => exists t, (pre ++ rest) !! i = Some t /\ considered rule t = true
  | None => Forall (fun t => considered rule t = false) (pre ++ rest)
  end.
Proof.
  induction rest as [|t rest IH]; intros pre bi bs fc Hfound Hnone.
  - simpl. rewrite app_nil_r. destruct fc; [by apply Hfound|by apply Hnone].
  - cbn [getVideoTextTrack_loop].
    assert (Hlen : length (pre ++ [t]) = S (length pre))
      by (rewrite length_app; simpl; lia).
    assert (Hhere : (pre ++ [t]) !! length pre = Some t)
      by (rewrite lookup_app_r by lia; by rewrite Nat.sub_diag).
    assert (Hfound' : fc = true ->
              exists t0, (pre ++ [t]) !! bi = Some t0 /\ considered rule t0 = true).
    { intros Hfc. destruct (Hfound Hfc) as (t0 & Ht0 & Hc). exists t0.
      split; [|done]. by apply lookup_app_l_Some. }
    destruct (considered rule t) eqn:Hc.
    + destruct (currentScore rule overrideKey t =? perfectScore rule overrideKey).
      * exists t. split; [|done].
        rewrite lookup_app_r by lia. by rewrite Nat.sub_diag.
      * destruct ((bs <? currentScore rule overrideKey t) || negb fc) eqn:Hb.
        -- specialize (IH (pre ++ [t]) (length pre)
                         (currentScore rule overrideKey t) true).
           rewrite Hlen, <- app_assoc in IH. apply IH; [|done].
           intros _. by exists t.
        -- apply orb_false_iff in Hb as [_ Hfc].
           apply negb_false_iff in Hfc.
           specialize (IH (pre ++ [t]) bi bs fc).
           rewrite Hlen, <- app_assoc in IH. apply IH; [done|].
           intros Hfc'. congruence.
    + specialize (IH (pre ++ [t]) bi bs fc).
      rewrite Hlen, <- app_assoc in IH. apply IH; [done|].
      intros Hfc. apply Forall_app. split; [by apply Hnone|]. by constructor.
Qed.

End TrackFacts.

(** X24.  Whatever the scores, [getVideoTextTrack] returns a track of the
    list that has cues and, when the rule requires showing tracks, is
    showing; and it returns no track only when the list has none such. *)
Theorem getVideoTextTrack_considered tracks rule overrideKey :
  (forall i,
     getVideoTextTrack tracks rule overrideKey = Some i ->
     exists t, tracks !! i = Some t /\ considered rule t = true)
  /\ (getVideoTextTrack tracks rule overrideKey = None
      <-> Forall (fun t => considered rule t = false) tracks).
Proof.
  pose proof (getVideoTextTrack_loop_considered rule overrideKey tracks
                [] 0%nat 0 false) as H.
  simpl in H. fold (getVideoTextTrack tracks rule overrideKey) in H.
  specialize (H (fun E => False_ind _ (Bool.diff_false_true E))
                (fun _ => Forall_nil_2 _)).
  destruct (getVideoTextTrack tracks rule overrideKey) as [i|].
  - destruct H as (t & Ht & Hc). split.
    + intros i' [= <-]. by exists t.
    + split; [done|]. intros Hall. exfalso.
      rewrite Forall_forall in Hall.
      apply list_elem_of_lookup_2 in Ht. specialize (Hall t Ht). congruence.
  - split; [done|]. done.
Qed.

(** ** SRT parser: one block *)

Section BlockFacts.

Variable hmsToSeconds : string -> option Z.

Lemma join_merge x y ts :
  join (String JS.LF "") ((x +:+ String JS.LF y) :: ts)
  = join (String JS.LF "") (x :: y :: ts).
Proof.
  destruct ts as [|z ts].
  - reflexivity.
  - change (((x +:+ String JS.LF y) +:+ String JS.LF "" +:+ join (String JS.LF "") (z :: ts))
            = x +:+ String JS.LF "" +:+ (y +:+ String JS.LF "" +:+ join (String JS.LF "") (z :: ts))).
    rewrite append_assoc'. reflexivity.
Qed.

Lemma text_line_inv l :
  text_line l = true -> JS.includes "-->" l = false /\ JS.str_eqb l "" = false.
Proof.
  unfold text_line, timing_line. intros H.
  apply andb_true_iff in H as [H1 H2].
  by apply negb_true_iff in H1, H2.
Qed.

(** The text lines after the first are appended to the text. *)
Lemma parseSRT_loop_texts texts : forall a b t0 cues rest,
  a <> "" -> b <> "" ->
  Forall (fun l => text_line l = true) texts ->
  parseSRT_loop hmsToSeconds (texts ++ rest) (mkSrt (Some a) (Some b) (Some t0) cues)
  = parseSRT_loop hmsToSeconds rest
      (mkSrt (Some a) (Some b) (Some (join (String JS.LF "") (t0 :: texts))) cues).
Proof.
  induction texts as [|l texts IH]; intros a b t0 cues rest Ha Hb Hall.
  - reflexivity.
  - inversion Hall as [|? ? Hl Hall']; subst.
    destruct (text_line_inv l Hl) as [Hinc Hemp].
    cbn [app parseSRT_loop]. rewrite Hinc, Hemp.
    assert (Hr : srt_ready (mkSrt (Some a) (Some b) (Some t0) cues) = true)
      by (unfold srt_ready; simpl; by destruct a, b).
    rewrite Hr. cbn [srt_text srt_start srt_end srt_cues].
    rewrite IH by done. by rewrite join_merge.
Qed.

Lemma parseSRT_loop_block_texts texts : forall a b cues rest,
  a <> "" -> b <> "" ->
  Forall (fun l => text_line l = true) texts ->
  parseSRT_loop hmsToSeconds (texts ++ rest) (mkSrt (Some a) (Some b) None cues)
  = parseSRT_loop hmsToSeconds rest
      (mkSrt (Some a) (Some b) (block_text texts) cues).
Proof.
  intros a b cues rest Ha Hb Hall. destruct texts as [|l texts]; [done|].
  inversion Hall as [|? ? Hl Hall']; subst.
  destruct (text_line_inv l Hl) as [Hinc Hemp].
  cbn [app parseSRT_loop]. rewrite Hinc, Hemp.
  assert (Hr : srt_ready (mkSrt (Some a) (Some b) None cues) = true)
    by (unfold srt_ready; simpl; by destruct a, b).
  rewrite Hr. cbn [srt_text srt_start srt_end srt_cues].
  by rewrite parseSRT_loop_texts.
Qed.

End BlockFacts.

(** X25.  A block of an SRT file, read when no text is pending, gives
    one cue: a timing line that splits into a start and an end, both not
    empty, followed by text lines and an empty line, appends the cue
    [newCue] makes of the start, the end and the text lines joined by
    newlines ([null] without text lines), and the parser goes on with
    nothing pending; the same block at the end of the file, without the
    empty line, gives the same last cue. *)
Theorem parseSRT_loop_block hmsToSeconds timing a b texts :
  timing_line timing = true ->
  JS.split JS.match_arrow timing = [a; b] ->
  a <> "" -> b <> "" ->
  Forall (fun l => text_line l = true) texts ->
  let cue := newCue hmsToSeconds (TStr a) (TStr b) (block_text texts) noOptions in
  forall s e cues rest,
    parseSRT_loop hmsToSeconds (timing :: texts ++ "" :: rest) (mkSrt s e None cues)
    = parseSRT_loop hmsToSeconds rest (mkSrt None None None (cues ++ [cue]))
    /\ parseSRT_loop hmsToSeconds (timing :: texts) (mkSrt s e None cues)
       = Normal (cues ++ [cue]).
Proof.
  intros Ht Hs Ha Hb Hall cue s e cues rest.
  unfold timing_line in Ht.
  assert (Hr : forall t, srt_ready (mkSrt (Some a) (Some b) t cues) = true)
    by (intros t; unfold srt_ready; simpl; by destruct a, b).
  split.
  - cbn [parseSRT_loop]. rewrite Ht, Hs. cbn [srt_text srt_cues].
    rewrite parseSRT_loop_block_texts by done.
    cbn [parseSRT_loop]. rewrite Hr. reflexivity.
  - cbn [parseSRT_loop]. rewrite Ht, Hs. cbn [srt_text srt_cues].
    rewrite <- (app_nil_r texts).
    rewrite parseSRT_loop_block_texts by done.
    cbn [parseSRT_loop]. rewrite Hr. reflexivity.
Qed.

Lemma parseSRT_loop_block_witness :
  parseSRT_loop Helper.hmsToSeconds
    ["00:00:01,000 --> 00:00:02,000"; "Hello"; "there"]
    (mkSrt None None None [])
  = Normal [Some (cue_of 1000 2000 ("Hello" +:+ String JS.LF "there"))].
Proof.
  assert (Ha : "00:00:01,000" <> "") by done.
  assert (Hb : "00:00:02,000" <> "") by done.
  assert (Hall : Forall (fun l => text_line l = true) ["Hello"; "there"])
    by (by repeat constructor).
  exact (proj2 (parseSRT_loop_block Helper.hmsToSeconds
                  "00:00:01,000 --> 00:00:02,000" "00:00:01,000" "00:00:02,000"
                  ["Hello"; "there"] eq_refl eq_refl Ha Hb Hall
                  None None [] [])).
Defined.
